(** * The asynchronous write pipeline of SmileSion-Go-Utils

    A shallow embedding of the queue / worker pool / retry / shutdown code of
    [db/xsqlite/xsqlite.go] and [db/xredis/redis.go], together with the panic
    guard [SafeGo] of [concurrency/concurrency.go] and the one-shot [Close] of
    [logger/logger.go].

    After these come [xmysql] (the same pipeline over MySQL), the
    [WorkerPool] and [Semaphore] of [concurrency/concurrency.go], the logger
    with its goroutines, and the packages [config] and [uuid].

    Goroutines are modelled as threads of a small-step machine that a
    schedule (a list of actions) drives; every nondeterministic choice of the
    Go runtime (which goroutine runs, which ready [select] case is taken, how
    much time passes) is an entry of the schedule, so each definition
    computes and every property over "all executions" is a property over all
    schedules. *)

From Stdlib Require Import ZArith Lia Bool.
From stdpp Require Import base list strings pretty.

Local Open Scope string_scope.
Local Open Scope list_scope.
Local Open Scope Z_scope.

(** ** Go values *)

(** Go's [error]: [None] is [nil]. *)
Definition error : Type := string.

(** How a call into foreign code (the SQL driver, a user closure) ends. *)
Inductive outcome : Type :=
| Nil                    (* returned a nil error *)
| Err (e : error)        (* returned a non-nil error *)
| Panic (v : string).    (* panicked with value v *)

(** Go's [int] and [time.Duration] are 64-bit two's complement integers. *)
Definition wrap64 (z : Z) : Z := (z + 2 ^ 63) mod 2 ^ 64 - 2 ^ 63.

Definition Duration : Type := Z.
Definition Nanosecond : Duration := 1.
Definition Millisecond : Duration := 1000000.
Definition Second : Duration := 1000000000.

(** [time.Duration(math.Pow(2, float64(n)))].  Powers of two are exact in a
    float64, and the conversion to an integer truncates towards zero, so a
    negative exponent gives 0.  The pipeline only evaluates this under the
    guard [n < 5]. *)
Definition pow2_duration (n : Z) : Duration :=
  if n <? 0 then 0 else 2 ^ n.

Definition int64 (z : Z) : Prop := - 2 ^ 63 <= z < 2 ^ 63.

(** The two literals of [execWithRetry], under the names the
    specification gives them: the [5] of [j.tries < 5] and the
    [100 * time.Millisecond] of the wait. *)
Definition maxAttempts : Z := 5.
Definition backoffBase : Duration := 100 * Millisecond.

(** ** Go channels *)

Module Chan.
Section Chan.
Context {A : Type}.

(** A buffered channel: the queued elements (oldest first), the capacity
    given to [make], and whether [close] has been called. *)
Record chan : Type := mk { buf : list A; cap : Z; closed : bool }.

Definition make (n : Z) : chan := {| buf := []; cap := n; closed := false |}.

Definition len (c : chan) : Z := Z.of_nat (length (buf c)).

Definition full (c : chan) : bool := cap c <=? len c.

(** [c <- v]. *)
Inductive send_result : Type :=
| Sent (c : chan)
| SendBlocks
| SendPanics.          (* "send on closed channel" *)

Definition send (c : chan) (v : A) : send_result :=
  if closed c then SendPanics
  else if full c then SendBlocks
  else Sent {| buf := buf c ++ [v]; cap := cap c; closed := closed c |}.

(** [v, ok := <-c]. *)
Inductive recv_result : Type :=
| Received (v : A) (c : chan)
| RecvClosed           (* ok = false: closed and drained *)
| RecvBlocks.

Definition recv (c : chan) : recv_result :=
  match buf c with
  | v :: rest => Received v {| buf := rest; cap := cap c; closed := closed c |}
  | [] => if closed c then RecvClosed else RecvBlocks
  end.

(** [close(c)]. *)
Inductive close_result : Type :=
| Closed (c : chan)
| ClosePanics.         (* "close of closed channel" *)

Definition close (c : chan) : close_result :=
  if closed c then ClosePanics
  else Closed {| buf := buf c; cap := cap c; closed := true |}.

(** The buffer holds no more than the capacity allows. *)
Definition within_cap (c : chan) : Prop := len c <= cap c.
End Chan.
Arguments chan : clear implicits.
End Chan.

(** ** The pipeline shared by xsqlite and xredis

    Both packages declare the same [DB] struct around a different backend
    handle and a different [job]; [worker], [Enqueue] and [Close] are the
    same text in both.  The section is parametric in the two types and in
    the package's [execWithRetry]. *)

Section Pipeline.
Variable job : Type.
Variable backend : Type.

(** The cases of the two [select] statements on [db.ctx.Done()]. *)
Inductive select_case : Type :=
| CtxDone              (* case <-db.ctx.Done() *)
| TimerC.              (* case <-timer.C *)

(** Method bodies without loops, as trees of the runtime operations they
    perform on the shared [DB]. *)
Inductive prog (R : Type) : Type :=
| Return (r : R)
| Exec (f : backend -> outcome * backend) (k : option error -> prog R)
| NewTimer (wait : Duration) (k : Z -> prog R)
| SelectDoneTimer (deadline : Z) (k : select_case -> prog R)
| StopTimer (k : prog R)
| TrySend (j : job) (k : prog R)
| Send (j : job) (k : prog R)
| Cancel (k : prog R)
| CloseJobs (k : prog R)
| WgWait (k : prog R)
| BackendClose (k : option error -> prog R).

Arguments Return {R} r.
Arguments Exec {R} f k.
Arguments NewTimer {R} wait k.
Arguments SelectDoneTimer {R} deadline k.
Arguments StopTimer {R} k.
Arguments TrySend {R} j k.
Arguments Send {R} j k.
Arguments Cancel {R} k.
Arguments CloseJobs {R} k.
Arguments WgWait {R} k.
Arguments BackendClose {R} k.

Fixpoint bind {A B : Type} (p : prog A) (f : A -> prog B) : prog B :=
  match p with
  | Return r => f r
  | Exec g k => Exec g (fun e => bind (k e) f)
  | NewTimer w k => NewTimer w (fun t => bind (k t) f)
  | SelectDoneTimer t k => SelectDoneTimer t (fun c => bind (k c) f)
  | StopTimer k => StopTimer (bind k f)
  | TrySend j k => TrySend j (bind k f)
  | Send j k => Send j (bind k f)
  | Cancel k => Cancel (bind k f)
  | CloseJobs k => CloseJobs (bind k f)
  | WgWait k => WgWait (bind k f)
  | BackendClose k => BackendClose (fun e => bind (k e) f)
  end.

(** The single operations, as programs. *)
Definition call (f : backend -> outcome * backend) : prog (option error) :=
  Exec f Return.
Definition new_timer (wait : Duration) : prog Z := NewTimer wait Return.
Definition select_done_timer (deadline : Z) : prog select_case :=
  SelectDoneTimer deadline Return.
Definition stop_timer : prog unit := StopTimer (Return tt).
Definition try_send (j : job) : prog unit := TrySend j (Return tt).
Definition send (j : job) : prog unit := Send j (Return tt).
Definition cancel : prog unit := Cancel (Return tt).
Definition close_jobs : prog unit := CloseJobs (Return tt).
Definition wg_wait : prog unit := WgWait (Return tt).
Definition backend_close : prog (option error) := BackendClose Return.

(** The fields of [DB] that the methods touch: the backend handle
    ([sqldb] or [rdb]), the [jobs] channel, the [WaitGroup] counter and
    whether [ctx] is done. *)
Record DB : Type := {
  handle : backend;
  jobs : Chan.chan job;
  wg : Z;
  ctx_done : bool
}.

Definition set_handle (d : DB) (h : backend) : DB :=
  {| handle := h; jobs := jobs d; wg := wg d; ctx_done := ctx_done d |}.
Definition set_jobs (d : DB) (c : Chan.chan job) : DB :=
  {| handle := handle d; jobs := c; wg := wg d; ctx_done := ctx_done d |}.
Definition set_wg (d : DB) (n : Z) : DB :=
  {| handle := handle d; jobs := jobs d; wg := n; ctx_done := ctx_done d |}.
Definition set_ctx_done (d : DB) (b : bool) : DB :=
  {| handle := handle d; jobs := jobs d; wg := wg d; ctx_done := b |}.

(** Which ready case a [select] takes.  [PickOther] is the case that is
    not [<-db.ctx.Done()]: the receive from [db.jobs] in [worker], the
    timer in [execWithRetry]. *)
Inductive pick : Type := PickDone | PickOther.

(** What one operation does to the thread that performs it. *)
Inductive op_result (T : Type) : Type :=
| Next (t : T) (d : DB)
| Blocked
| Panicked (v : string).
Arguments Next {T} t d.
Arguments Blocked {T}.
Arguments Panicked {T} v.

(** [release h] is the backend's own [Close()]. *)
Variable release : backend -> option error * backend.

Definition op_step {R : Type} (p : prog R) (pk : pick) (now : Z) (d : DB)
  : op_result (prog R) :=
  match p with
  | Return _ => Blocked
  | Exec f k =>
      match f (handle d) with
      | (Nil, h) => Next (k None) (set_handle d h)
      | (Err e, h) => Next (k (Some e)) (set_handle d h)
      | (Panic v, _) => Panicked v
      end
  | NewTimer wait k => Next (k (now + wait)) d
  | SelectDoneTimer deadline k =>
      match pk with
      | PickDone => if ctx_done d then Next (k CtxDone) d else Blocked
      | PickOther => if deadline <=? now then Next (k TimerC) d else Blocked
      end
  | StopTimer k => Next k d
  | TrySend j k =>
      match Chan.send (jobs d) j with
      | Chan.Sent c => Next k (set_jobs d c)
      | Chan.SendBlocks => Next k d
      | Chan.SendPanics => Panicked "send on closed channel"
      end
  | Send j k =>
      match Chan.send (jobs d) j with
      | Chan.Sent c => Next k (set_jobs d c)
      | Chan.SendBlocks => Blocked
      | Chan.SendPanics => Panicked "send on closed channel"
      end
  | Cancel k => Next k (set_ctx_done d true)
  | CloseJobs k =>
      match Chan.close (jobs d) with
      | Chan.Closed c => Next k (set_jobs d c)
      | Chan.ClosePanics => Panicked "close of closed channel"
      end
  | WgWait k => if wg d =? 0 then Next k d else Blocked
  | BackendClose k =>
      let (e, h) := release (handle d) in Next (k e) (set_handle d h)
  end.

Variable execWithRetry : job -> prog (option error).

(** A worker goroutine: at the [select] of its loop, inside
    [db.execWithRetry(j)] for the job [j] it received, or returned. *)
Inductive wstate : Type :=
| WSelect
| WRun (j : job) (p : prog (option error))
| WReturned.

(** [defer db.wg.Done()]. *)
Definition wg_done (d : DB) : DB := set_wg d (wg d - 1).

Definition worker (w : wstate) (pk : pick) (now : Z) (d : DB)
  : op_result wstate :=
  match w with
  | WSelect =>
      match pk with
      | PickDone =>
          if ctx_done d then Next WReturned (wg_done d) else Blocked
      | PickOther =>
          match Chan.recv (jobs d) with
          | Chan.Received j c => Next (WRun j (execWithRetry j)) (set_jobs d c)
          | Chan.RecvClosed => Next WReturned (wg_done d)
          | Chan.RecvBlocks => Blocked
          end
      end
  | WRun j (Return _) => Next WSelect d
  | WRun j p =>
      match op_step p pk now d with
      | Next p' d' => Next (WRun j p') d'
      | Blocked => Blocked
      | Panicked v => Panicked v
      end
  | WReturned => Blocked
  end.

(** A goroutine of the program that uses the pipeline. *)
Inductive cstate : Type :=
| CRun (p : prog (option error))
| CReturned (r : option error).

Definition caller (c : cstate) (pk : pick) (now : Z) (d : DB)
  : op_result cstate :=
  match c with
  | CRun (Return r) => Next (CReturned r) d
  | CRun p =>
      match op_step p pk now d with
      | Next p' d' => Next (CRun p') d'
      | Blocked => Blocked
      | Panicked v => Panicked v
      end
  | CReturned _ => Blocked
  end.

(** The whole process.  [panicked] is set by the first panic that no
    frame recovers; the process is dead from then on. *)
Record system : Type := {
  db : DB;
  workers : list wstate;
  callers : list cstate;
  now : Z;
  panicked : option string
}.

Definition set_db (s : system) (d : DB) : system :=
  {| db := d; workers := workers s; callers := callers s;
     now := now s; panicked := panicked s |}.
Definition set_workers (s : system) (ws : list wstate) : system :=
  {| db := db s; workers := ws; callers := callers s;
     now := now s; panicked := panicked s |}.
Definition set_callers (s : system) (cs : list cstate) : system :=
  {| db := db s; workers := workers s; callers := cs;
     now := now s; panicked := panicked s |}.
Definition set_now (s : system) (t : Z) : system :=
  {| db := db s; workers := workers s; callers := callers s;
     now := t; panicked := panicked s |}.
Definition set_panicked (s : system) (v : string) : system :=
  {| db := db s; workers := workers s; callers := callers s;
     now := now s; panicked := Some v |}.

Inductive action : Type :=
| AWorker (i : nat) (pk : pick)     (* worker i moves *)
| ACaller (i : nat) (pk : pick)     (* caller i moves *)
| ATick (dt : Duration)             (* time passes *)
| AParentCancel.                    (* the parent context is cancelled *)

Definition step (a : action) (s : system) : system :=
  match panicked s with
  | Some _ => s
  | None =>
      match a with
      | AWorker i pk =>
          match workers s !! i with
          | Some w =>
              match worker w pk (now s) (db s) with
              | Next w' d' => set_db (set_workers s (<[i:=w']> (workers s))) d'
              | Blocked => s
              | Panicked v => set_panicked s v
              end
          | None => s
          end
      | ACaller i pk =>
          match callers s !! i with
          | Some c =>
              match caller c pk (now s) (db s) with
              | Next c' d' => set_db (set_callers s (<[i:=c']> (callers s))) d'
              | Blocked => s
              | Panicked v => set_panicked s v
              end
          | None => s
          end
      | ATick dt => if 0 <=? dt then set_now s (now s + dt) else s
      | AParentCancel => set_db s (set_ctx_done (db s) true)
      end
  end.

Definition run (acts : list action) (s : system) : system :=
  fold_left (fun s a => step a s) acts s.

(** The body of [Close], the same in both packages:
<<
    db.cancel(); close(db.jobs); db.wg.Wait(); return db.sqldb.Close()
>> *)
Definition Close : prog (option error) :=
  bind cancel (fun _ =>
  bind close_jobs (fun _ =>
  bind wg_wait (fun _ =>
  backend_close))).

(** [Open]'s tail: the context derived from [parent], the struct
    literal, and the loop that starts [nworkers] goroutines after
    [db.wg.Add(1)] each. *)
Definition start (parent_done : bool) (h : backend) (queueSize nworkers : Z)
  : system :=
  {| db := {| handle := h; jobs := Chan.make queueSize;
              wg := Z.max 0 nworkers; ctx_done := parent_done |};
     workers := replicate (Z.to_nat nworkers) WSelect;
     callers := [];
     now := 0;
     panicked := None |}.

(** Jobs in flight: buffered in [db.jobs] or in the hands of a worker. *)
Definition held (w : wstate) : list job :=
  match w with WRun j _ => [j] | _ => [] end.

Definition in_flight (s : system) : list job :=
  Chan.buf (jobs (db s)) ++ concat (map held (workers s)).

(** What a thread may do to [db.jobs]: the capacity is fixed, the
    buffer stays within it, and a closed channel stays closed. *)
Definition jobs_evolve (d d' : DB) : Prop :=
  Chan.cap (jobs d') = Chan.cap (jobs d) /\
  (Chan.within_cap (jobs d) -> Chan.within_cap (jobs d')) /\
  (Chan.closed (jobs d) = true -> Chan.closed (jobs d') = true).

(** [submits p j]: on some path through [p] the job [j] is offered to
    [db.jobs], by a blocking or a non-blocking send. *)
Inductive submits {R : Type} : prog R -> job -> Prop :=
| submits_try_send j k : submits (TrySend j k) j
| submits_send j k : submits (Send j k) j
| submits_exec f k e j : submits (k e) j -> submits (Exec f k) j
| submits_new_timer w k t j : submits (k t) j -> submits (NewTimer w k) j
| submits_select t k c j : submits (k c) j -> submits (SelectDoneTimer t k) j
| submits_stop_timer k j : submits k j -> submits (StopTimer k) j
| submits_after_try_send j0 k j : submits k j -> submits (TrySend j0 k) j
| submits_after_send j0 k j : submits k j -> submits (Send j0 k) j
| submits_cancel k j : submits k j -> submits (Cancel k) j
| submits_close_jobs k j : submits k j -> submits (CloseJobs k) j
| submits_wg_wait k j : submits k j -> submits (WgWait k) j
| submits_backend_close k e j :
    submits (k e) j -> submits (BackendClose k) j.

(** The rest of a program once the backend call at its head has
    returned [e]. *)
Definition after_exec {R : Type} (p : prog R) (e : option error) : prog R :=
  match p with
  | Exec _ k => k e
  | _ => p
  end.

(** The duration of the timer that the program arms next, if that is
    what it does next. *)
Definition armed_wait {R : Type} (p : prog R) : option Duration :=
  match p with
  | NewTimer wait _ => Some wait
  | _ => None
  end.

(** A caller inside [Close]: before or after [close(db.jobs)]. *)
Inductive in_Close : cstate -> bool -> Prop :=
| in_Close_cancel : in_Close (CRun Close) false
| in_Close_close_jobs :
    in_Close (CRun (CloseJobs (WgWait (BackendClose Return)))) false
| in_Close_wg_wait : in_Close (CRun (WgWait (BackendClose Return))) true
| in_Close_backend_close : in_Close (CRun (BackendClose Return)) true
| in_Close_return r : in_Close (CRun (Return r)) true
| in_Close_returned r : in_Close (CReturned r) true.

(** Caller [i] is inside [Close], and past [close(db.jobs)] only if the
    channel is closed. *)
Definition closing (i : nat) (s : system) : Prop :=
  exists c b, callers s !! i = Some c /\ in_Close c b /\
              (b = true -> Chan.closed (jobs (db s)) = true).

(** Every job that is queued, held by a worker, or still to be offered
    by a thread satisfies [P]. *)
Definition worker_jobs_in (P : job -> Prop) (w : wstate) : Prop :=
  match w with
  | WRun j p => P j /\ forall j', submits p j' -> P j'
  | _ => True
  end.

Definition caller_jobs_in (P : job -> Prop) (c : cstate) : Prop :=
  match c with
  | CRun p => forall j', submits p j' -> P j'
  | CReturned _ => True
  end.

Definition jobs_in (P : job -> Prop) (s : system) : Prop :=
  Forall P (Chan.buf (jobs (db s))) /\
  Forall (worker_jobs_in P) (workers s) /\
  Forall (caller_jobs_in P) (callers s).
End Pipeline.

Arguments Return {job backend R} r.
Arguments Exec {job backend R} f k.
Arguments NewTimer {job backend R} wait k.
Arguments SelectDoneTimer {job backend R} deadline k.
Arguments StopTimer {job backend R} k.
Arguments TrySend {job backend R} j k.
Arguments Send {job backend R} j k.
Arguments Cancel {job backend R} k.
Arguments CloseJobs {job backend R} k.
Arguments WgWait {job backend R} k.
Arguments BackendClose {job backend R} k.
Arguments bind {job backend A B} p f.
Arguments call {job backend} f.
Arguments new_timer {job backend} wait.
Arguments select_done_timer {job backend} deadline.
Arguments stop_timer {job backend}.
Arguments try_send {job backend} j.
Arguments send {job backend} j.
Arguments cancel {job backend}.
Arguments close_jobs {job backend}.
Arguments wg_wait {job backend}.
Arguments backend_close {job backend}.
Arguments handle {job backend} d.
Arguments jobs {job backend} d.
Arguments wg {job backend} d.
Arguments ctx_done {job backend} d.
Arguments set_handle {job backend} d h.
Arguments set_jobs {job backend} d c.
Arguments set_wg {job backend} d n.
Arguments set_ctx_done {job backend} d b.
Arguments wg_done {job backend} d.
Arguments Next {job backend T} t d.
Arguments Blocked {job backend T}.
Arguments Panicked {job backend T} v.
Arguments op_step {job backend} release {R} p pk now d.
Arguments WSelect {job backend}.
Arguments WRun {job backend} j p.
Arguments WReturned {job backend}.
Arguments worker {job backend} release execWithRetry w pk now d.
Arguments CRun {job backend} p.
Arguments CReturned {job backend} r.
Arguments caller {job backend} release c pk now d.
Arguments db {job backend} s.
Arguments workers {job backend} s.
Arguments callers {job backend} s.
Arguments now {job backend} s.
Arguments panicked {job backend} s.
Arguments set_db {job backend} s d.
Arguments set_workers {job backend} s ws.
Arguments set_callers {job backend} s cs.
Arguments set_now {job backend} s t.
Arguments set_panicked {job backend} s v.
Arguments step {job backend} release execWithRetry a s.
Arguments run {job backend} release execWithRetry acts s.
Arguments Close {job backend}.
Arguments start {job backend} parent_done h queueSize nworkers.
Arguments held {job backend} w.
Arguments in_flight {job backend} s.
Arguments jobs_evolve {job backend} d d'.
Arguments submits {job backend R} p j.
Arguments after_exec {job backend R} p e.
Arguments armed_wait {job backend R} p.
Arguments in_Close {job backend} c past.
Arguments closing {job backend} i s.
Arguments worker_jobs_in {job backend} P w.
Arguments caller_jobs_in {job backend} P c.
Arguments jobs_in {job backend} P s.

#[global] Instance prog_ret {job backend} : MRet (prog job backend) :=
  fun _ r => Return r.
#[global] Instance prog_bind {job backend} : MBind (prog job backend) :=
  fun _ _ f p => bind p f.

(** ** Package xsqlite *)

Module xsqlite.

(** The dynamic values ([any]) that callers pass as statement arguments. *)
Inductive any : Type :=
| Int (n : Z)
| Str (s : string)
| Null.

(** [*sql.DB], seen from the pipeline: [driver n timeout query args] is
    how the n-th statement handed to the driver ends ([timeout] is the
    deadline of the context it runs under, if it has one), [calls] the
    statements handed to it so far, [close_result] what its [Close()]
    returns and [closes] how often [Close()] has been called. *)
Record sqlDB : Type := {
  driver : nat -> option Duration -> string -> list any -> outcome;
  calls : list (string * list any);
  close_result : option error;
  closes : nat
}.

(** [sqldb.ExecContext(ctx, query, args...)], result discarded. *)
Definition ExecContext (timeout : option Duration) (query : string)
    (args : list any) (h : sqlDB) : outcome * sqlDB :=
  (driver h (length (calls h)) timeout query args,
   {| driver := driver h; calls := calls h ++ [(query, args)];
      close_result := close_result h; closes := closes h |}).

(** [sqldb.Close()]. *)
Definition sqlClose (h : sqlDB) : option error * sqlDB :=
  (close_result h,
   {| driver := driver h; calls := calls h;
      close_result := close_result h; closes := S (closes h) |}).

Record Config : Type := {
  DBPath : string;
  Workers : Z;
  QueueSize : Z;
  BusyTimeout : Duration;
  SyncMode : string;
  ExtraPragma : list string
}.

Record job : Type := {
  query : string;
  args : list any;
  tries : Z
}.

Definition execOnce (query : string) (args : list any)
  : prog job sqlDB (option error) :=
  call (ExecContext (Some (10 * Second)) query args).

Definition execWithRetry (j : job) : prog job sqlDB (option error) :=
  err ← execOnce (query j) (args j);
  match err with
  | Some e =>
      if tries j <? 5 then
        let wait :=
          wrap64 (wrap64 (pow2_duration (tries j) * 100) * Millisecond) in
        timer ← new_timer wait;
        c ← select_done_timer timer;
        match c with
        | CtxDone => stop_timer ;; mret (Some e)
        | TimerC =>
            let j := {| query := query j; args := args j;
                        tries := wrap64 (tries j + 1) |} in
            try_send j ;; mret (Some e)
        end
      else mret (Some e)
  | None => mret None
  end.

Definition Enqueue (query : string) (args : list any) : prog job sqlDB unit :=
  let j := {| query := query; args := args; tries := 0 |} in
  send j.

Fixpoint EnqueueMany (query : string) (arglist : list (list any))
  : prog job sqlDB unit :=
  match arglist with
  | [] => mret tt
  | a :: rest => Enqueue query a ;; EnqueueMany query rest
  end.

Definition Close : prog job sqlDB (option error) := Close.

Definition worker := worker sqlClose execWithRetry.
Definition step := step sqlClose execWithRetry.
Definition run := run sqlClose execWithRetry.

(** The stages of [execWithRetry j] after the statement has failed with
    [e] and [j.tries < 5]: the timer is armed; the [select] waits on it;
    then either the timer is stopped or the job is offered again. *)
Definition retry_wait (j : job) : Duration :=
  wrap64 (wrap64 (pow2_duration (tries j) * 100) * Millisecond).

Definition retried (j : job) : job :=
  {| query := query j; args := args j; tries := wrap64 (tries j + 1) |}.

Definition on_select (j : job) (e : error) (c : select_case)
  : prog job sqlDB (option error) :=
  match c with
  | CtxDone => StopTimer (Return (Some e))
  | TimerC => TrySend (retried j) (Return (Some e))
  end.

Definition on_timer (j : job) (e : error) (timer : Z)
  : prog job sqlDB (option error) :=
  SelectDoneTimer timer (on_select j e).

Definition on_failure (j : job) (e : error) : prog job sqlDB (option error) :=
  NewTimer (retry_wait j) (on_timer j e).

(** Where a worker can be at time [t], given that it was about to run a
    job at time [t0]: if its [select] waits on a timer, the timer was
    armed at [t0] or later; if it is about to offer a job again, the wait
    for that job has passed since [t0]. *)
Inductive waited (t0 t : Z) : wstate job sqlDB -> Prop :=
| waited_select : waited t0 t WSelect
| waited_returned : waited t0 t WReturned
| waited_start j : waited t0 t (WRun j (execWithRetry j))
| waited_failed j e : waited t0 t (WRun j (on_failure j e))
| waited_armed j e deadline :
    t0 + retry_wait j <= deadline ->
    waited t0 t (WRun j (on_timer j e deadline))
| waited_fired j e :
    t0 + retry_wait j <= t ->
    waited t0 t (WRun j (on_select j e TimerC))
| waited_cancelled j e : waited t0 t (WRun j (on_select j e CtxDone))
| waited_done j r : waited t0 t (WRun j (Return r)).

Definition worker_waited (i : nat) (t0 : Z) (s : system job sqlDB) : Prop :=
  t0 <= now s /\
  exists w, workers s !! i = Some w /\ waited t0 (now s) w.

(** The waits of the attempts before the attempt with counter [n]:
    100ms + 200ms + ... + 100ms * 2^(n-1). *)
Definition backoff_before (n : Z) : Duration := backoffBase * (2 ^ n - 1).

(** Where the run of a job with a counter from 0 to 5 can be at time [t]
    in a pipeline that was fresh at time [t0]: the job cannot be there
    before the waits of its earlier attempts have passed, and it is not
    offered again before its own wait has passed as well. *)
Inductive paced_stage (t0 t : Z) (j : job) : prog job sqlDB (option error) -> Prop :=
| paced_start : paced_stage t0 t j (execWithRetry j)
| paced_failed e : tries j < 5 -> paced_stage t0 t j (on_failure j e)
| paced_armed e deadline :
    tries j < 5 ->
    t0 + backoff_before (tries j + 1) <= deadline ->
    paced_stage t0 t j (on_timer j e deadline)
| paced_fired e :
    tries j < 5 ->
    t0 + backoff_before (tries j + 1) <= t ->
    paced_stage t0 t j (on_select j e TimerC)
| paced_cancelled e : paced_stage t0 t j (on_select j e CtxDone)
| paced_done r : paced_stage t0 t j (Return r).

Definition paced_job (t0 t : Z) (j : job) : Prop :=
  0 <= tries j <= 5 /\ t0 + backoff_before (tries j) <= t.

Definition paced_worker (t0 t : Z) (w : wstate job sqlDB) : Prop :=
  match w with
  | WRun j p => paced_job t0 t j /\ paced_stage t0 t j p
  | _ => True
  end.

Definition paced (t0 : Z) (s : system job sqlDB) : Prop :=
  t0 <= now s /\
  Forall (paced_job t0 (now s)) (Chan.buf (jobs (db s))) /\
  Forall (paced_worker t0 (now s)) (workers s) /\
  Forall (caller_jobs_in (fun j => tries j = 0)) (callers s).

(** How [Open] ends: with a running pipeline, with an error, or in a
    panic of the driver. *)
Inductive open_result : Type :=
| Opened (s : system job sqlDB)
| OpenError (e : error)
| OpenPanic (v : string).

(** [%q] of [fmt] on a string is [strconv.Quote]: the string between
    double quotes, where a double quote and a backslash get a backslash
    before them, the printable ASCII characters (32 to 126) stand as they
    are, the control characters 7 to 13 are written [\a \b \t \n \v \f \r],
    and every other character below 32, and 127, is written [\x] and its
    two lower-case hexadecimal digits.  A byte from 128 on belongs to a
    UTF-8 sequence, which Go keeps when it encodes a printable rune and
    escapes otherwise; [escape] keeps such a byte, so [quoted] is Go's text
    on the strings of [ascii_only], and on those only. *)
Definition hex_digit (n : nat) : Ascii.ascii :=
  if (n <? 10)%nat then Ascii.ascii_of_nat (48 + n)
  else Ascii.ascii_of_nat (87 + n).

Definition escape (c : Ascii.ascii) : string :=
  let n := Ascii.nat_of_ascii c in
  let backslash := Ascii.ascii_of_nat 92 in
  if ((n =? 34) || (n =? 92))%nat then String backslash (String c EmptyString)
  else if ((32 <=? n) && (n <? 127))%nat then String c EmptyString
  else if (n =? 7)%nat then "\a"
  else if (n =? 8)%nat then "\b"
  else if (n =? 12)%nat then "\f"
  else if (n =? 10)%nat then "\n"
  else if (n =? 13)%nat then "\r"
  else if (n =? 9)%nat then "\t"
  else if (n =? 11)%nat then "\v"
  else if (n <? 128)%nat then
    "\x" +:+ String (hex_digit (n / 16)) (String (hex_digit (n mod 16)) EmptyString)
  else String c EmptyString.

Fixpoint escape_all (p : string) : string :=
  match p with
  | EmptyString => EmptyString
  | String c rest => escape c +:+ escape_all rest
  end.

Definition quoted (p : string) : string :=
  String (Ascii.ascii_of_nat 34)
    (escape_all p +:+ String (Ascii.ascii_of_nat 34) EmptyString).

Fixpoint ascii_only (p : string) : bool :=
  match p with
  | EmptyString => true
  | String c rest => (Ascii.nat_of_ascii c <? 128)%nat && ascii_only rest
  end.

(** The loop over [cfg.ExtraPragma]: [sqldb.Exec("PRAGMA " + p)] for each
    [p]; on the first error the handle is closed and the error wrapped. *)
Fixpoint apply_pragmas (pragmas : list string) (sqldb : sqlDB)
  : outcome * sqlDB :=
  match pragmas with
  | [] => (Nil, sqldb)
  | p :: rest =>
      match ExecContext None ("PRAGMA " +:+ p) [] sqldb with
      | (Nil, sqldb) => apply_pragmas rest sqldb
      | (Err err, sqldb) =>
          (Err ("apply pragma " +:+ quoted p +:+ ": " +:+ err),
           snd (sqlClose sqldb))
      | (Panic v, sqldb) => (Panic v, sqldb)
      end
  end.

(** The loop over the migrations: [sqldb.Exec(m)] for each [m]. *)
Fixpoint run_migrations (migrations : list string) (sqldb : sqlDB)
  : outcome * sqlDB :=
  match migrations with
  | [] => (Nil, sqldb)
  | m :: rest =>
      match ExecContext None m [] sqldb with
      | (Nil, sqldb) => run_migrations rest sqldb
      | (Err err, sqldb) =>
          (Err ("migration failed: " +:+ err), snd (sqlClose sqldb))
      | (Panic v, sqldb) => (Panic v, sqldb)
      end
  end.

(** The four [if] statements that fill in defaults. *)
Definition defaults (cfg : Config) : Config :=
  {| DBPath := DBPath cfg;
     Workers := if Workers cfg <=? 0 then 2 else Workers cfg;
     QueueSize := if QueueSize cfg <=? 0 then 1000 else QueueSize cfg;
     BusyTimeout :=
       if BusyTimeout cfg <=? 0 then 5 * Second else BusyTimeout cfg;
     SyncMode :=
       if decide (SyncMode cfg = "") then "NORMAL" else SyncMode cfg;
     ExtraPragma := ExtraPragma cfg |}.

(** [Open(parent, cfg, opts...)]: [parent_done] says whether [parent] is
    already cancelled, [migrations] is what the options set, [opened] what
    [sql.Open] returned.  The settings of the connection pool
    ([SetMaxOpenConns] and the like) do not show in this model. *)
Definition Open (parent_done : bool) (cfg : Config)
    (migrations : list string) (opened : error + sqlDB) : open_result :=
  if decide (DBPath cfg = "") then OpenError "DBPath required" else
  let cfg := defaults cfg in
  match opened with
  | inl err => OpenError err
  | inr sqldb =>
      match apply_pragmas (ExtraPragma cfg) sqldb with
      | (Err err, _) => OpenError err
      | (Panic v, _) => OpenPanic v
      | (Nil, sqldb) =>
          match run_migrations migrations sqldb with
          | (Err err, _) => OpenError err
          | (Panic v, _) => OpenPanic v
          | (Nil, sqldb) =>
              Opened (start parent_done sqldb (QueueSize cfg) (Workers cfg))
          end
      end
  end.

(** [WithTx].  A transaction, seen from [WithTx]: what [fn(tx)] does
    (it returns nil or an error, or panics), and what [tx.Commit()] and
    [tx.Rollback()] return. *)
Record Tx : Type := {
  fn_result : outcome;
  commit_result : option error;
  rollback_result : option error
}.

(** The calls that [WithTx] makes. *)
Inductive tx_call : Type :=
| BeginTx
| Fn
| Commit
| Rollback.

(** [begin] is what [db.sqldb.BeginTx] returns.  The result is what
    [WithTx] returns, or the panic that leaves it, with the calls made in
    their order. *)
Definition WithTx (begin : error + Tx) : outcome * list tx_call :=
  match begin with
  | inl err => (Err err, [BeginTx])
  | inr tx =>
      match fn_result tx with
      | Panic p =>
          (* the deferred function: recover, roll back, panic again *)
          let _ := rollback_result tx in
          (Panic p, [BeginTx; Fn; Rollback])
      | Err err =>
          let _ := rollback_result tx in
          (Err err, [BeginTx; Fn; Rollback])
      | Nil =>
          match commit_result tx with
          | Some err => (Err err, [BeginTx; Fn; Commit])
          | None => (Nil, [BeginTx; Fn; Commit])
          end
      end
  end.

(** [max]. *)
Definition max (a b : Z) : Z := if b <? a then a else b.

(** What [Open] sets on the connection pool:
    [SetMaxOpenConns(max(4, cfg.Workers))], [SetMaxIdleConns(cfg.Workers)]
    and [SetConnMaxLifetime(0)], with the configuration after the
    defaults. *)
Definition pool_settings (cfg : Config) : Z * Z * Duration :=
  let cfg := defaults cfg in
  (max 4 (Workers cfg), Workers cfg, 0).

(** The data source name that [Open] hands to [sql.Open]: [%d] prints
    [int(cfg.BusyTimeout.Milliseconds())]. *)
Definition dsn (cfg : Config) : string :=
  let cfg := defaults cfg in
  "file:" +:+ DBPath cfg +:+ "?_pragma=busy_timeout(" +:+
  pretty (Z.quot (BusyTimeout cfg) 1000000) +:+
  ")&_pragma=journal_mode(WAL)&_pragma=foreign_keys(1)".

(** A configuration with another [SyncMode]. *)
Definition with_SyncMode (cfg : Config) (mode : string) : Config :=
  {| DBPath := DBPath cfg; Workers := Workers cfg; QueueSize := QueueSize cfg;
     BusyTimeout := BusyTimeout cfg; SyncMode := mode;
     ExtraPragma := ExtraPragma cfg |}.
End xsqlite.

(** ** Package xredis *)

Module xredis.

(** [*redis.Client], seen from the pipeline: the key/value store that
    the commands act on, what [Ping] and [Close()] return, and how often
    [Close()] has been called.  A [redis.Cmdable] is the same handle. *)
Record Client : Type := {
  store : list (string * string);
  ping_result : option error;
  close_result : option error;
  closes : nat
}.

(** [rdb.Close()]. *)
Definition rdbClose (h : Client) : option error * Client :=
  (close_result h,
   {| store := store h; ping_result := ping_result h;
      close_result := close_result h; closes := S (closes h) |}).

Record Config : Type := {
  Addr : string;
  Password : string;
  DB : Z;
  Workers : Z;
  QueueSize : Z
}.

(** [fn] is a Go closure [func(redis.Cmdable) error]: it may change the
    store, return an error, or panic. *)
Record job : Type := {
  fn : Client -> outcome * Client;
  tries : Z
}.

Definition execWithRetry (j : job) : prog job Client (option error) :=
  err ← call (fn j);
  match err with
  | Some e =>
      if tries j <? 5 then
        let wait :=
          wrap64 (wrap64 (pow2_duration (tries j) * 100) * Millisecond) in
        timer ← new_timer wait;
        c ← select_done_timer timer;
        match c with
        | CtxDone => stop_timer ;; mret (Some e)
        | TimerC =>
            let j := {| fn := fn j; tries := wrap64 (tries j + 1) |} in
            try_send j ;; mret (Some e)
        end
      else mret (Some e)
  | None => mret None
  end.

Definition Enqueue (fn : Client -> outcome * Client) : prog job Client unit :=
  send {| fn := fn; tries := 0 |}.

Definition ExecSync (fn : Client -> outcome * Client)
  : prog job Client (option error) :=
  call fn.

Definition Close : prog job Client (option error) := Close.

Definition worker := worker rdbClose execWithRetry.
Definition step := step rdbClose execWithRetry.
Definition run := run rdbClose execWithRetry.

Definition defaults (cfg : Config) : Config :=
  {| Addr := Addr cfg; Password := Password cfg; DB := DB cfg;
     Workers := if Workers cfg <=? 0 then 2 else Workers cfg;
     QueueSize := if QueueSize cfg <=? 0 then 1000 else QueueSize cfg |}.

(** [Open].  [rdb] is the client that [redis.NewClient] built. *)
Definition Open (parent_done : bool) (cfg : Config) (rdb : Client)
  : error + system job Client :=
  let cfg := defaults cfg in
  match ping_result rdb with
  | Some err => inl err
  | None => inr (start parent_done rdb (QueueSize cfg) (Workers cfg))
  end.
End xredis.

(** ** Package concurrency *)

Module concurrency.

(** A [func()] either returns or panics with a value. *)
Definition thunk : Type := unit -> option string.

(** [recover()] hands out the panic in flight, if any, and ends it. *)
Definition recover (panicking : option string) : option string * option string :=
  (panicking, None).

(** The goroutine that [SafeGo(fn, wg)] starts, run to its end: the lines
    written with [log.Printf] (without the stack trace), the counter of
    [wg] (if [wg] is not nil) and the panic that leaves the goroutine,
    which would end the process. *)
Definition SafeGo (fn : thunk) (wg : option Z) (logs : list string)
  : list string * option Z * option string :=
  let wg := (fun n => n + 1) <$> wg in
  let panicking := fn tt in
  let '(r, panicking) := recover panicking in
  let logs :=
    match r with
    | Some v => logs ++ ["[SafeGo] panic recovered: " +:+ v]
    | None => logs
    end in
  let wg := (fun n => n - 1) <$> wg in
  (logs, wg, panicking).

(** A bare [go fn()], as [Open] starts its workers. *)
Definition Go (fn : thunk) : option string := fn tt.

(** *** WorkerPool

    A goroutine of [NewWorkerPool]: at the [range] over [jobChan], about
    to call [SafeGo(job, nil)] for the job it has received, or returned
    (the channel was closed and empty). *)
Inductive dstate : Type :=
| DRange
| DSpawn (job : thunk)
| DReturned.

(** The pool and the goroutines around it.  [started] lists the
    goroutines that [SafeGo] has started, each with its job and whether it
    has run to its end; [submitted] lists the jobs whose [Submit] has
    returned; [crashed] is the panic that has ended the process, if any. *)
Record WorkerPool : Type := {
  jobChan : Chan.chan thunk;
  wg : Z;
  dispatchers : list dstate;
  started : list (thunk * bool);
  submitted : list thunk;
  logs : list string;
  crashed : option string
}.

(** [NewWorkerPool(workerCount, jobQueueSize)].  [make] panics on a
    negative size, before any goroutine is started; otherwise the loop
    starts [workerCount] goroutines, each counted in [wg].  With
    [jobQueueSize = 0] the channel has no buffer. *)
Definition NewWorkerPool (workerCount jobQueueSize : Z) : WorkerPool :=
  if jobQueueSize <? 0 then
    {| jobChan := Chan.make jobQueueSize;
       wg := 0;
       dispatchers := [];
       started := [];
       submitted := [];
       logs := [];
       crashed := Some "makechan: size out of range" |}
  else
    {| jobChan := Chan.make jobQueueSize;
       wg := Z.max 0 workerCount;
       dispatchers := replicate (Z.to_nat workerCount) DRange;
       started := [];
       submitted := [];
       logs := [];
       crashed := None |}.

(** The send [p.jobChan <- job] of [Submit] ends in one of two ways: the
    job goes into the buffer, when there is room ([PSubmit]), or, when
    the buffer is empty, it goes straight to a goroutine of the pool that
    waits at its [range] ([PHandover]); a channel without buffer knows
    only the second.  On a closed channel the send panics. *)
Inductive pool_action : Type :=
| PSubmit (job : thunk)     (* a goroutine is in p.Submit(job) *)
| PHandover (job : thunk) (i : nat)
                            (* p.Submit(job) meets goroutine i at its receive *)
| PClose                    (* a goroutine runs close(p.jobChan) in p.Close() *)
| PDispatch (i : nat)       (* goroutine i of NewWorkerPool moves *)
| PRun (k : nat).           (* the k-th goroutine of SafeGo runs to its end *)

Definition pool_step (a : pool_action) (p : WorkerPool) : WorkerPool :=
  match crashed p with
  | Some _ => p
  | None =>
      match a with
      | PSubmit job =>
          match Chan.send (jobChan p) job with
          | Chan.Sent c =>
              {| jobChan := c; wg := wg p; dispatchers := dispatchers p;
                 started := started p; submitted := submitted p ++ [job];
                 logs := logs p; crashed := None |}
          | Chan.SendBlocks => p
          | Chan.SendPanics =>
              {| jobChan := jobChan p; wg := wg p; dispatchers := dispatchers p;
                 started := started p; submitted := submitted p;
                 logs := logs p; crashed := Some "send on closed channel" |}
          end
      | PHandover job i =>
          if Chan.closed (jobChan p) then
            {| jobChan := jobChan p; wg := wg p; dispatchers := dispatchers p;
               started := started p; submitted := submitted p;
               logs := logs p; crashed := Some "send on closed channel" |}
          else
            match dispatchers p !! i, Chan.buf (jobChan p) with
            | Some DRange, [] =>
                {| jobChan := jobChan p; wg := wg p;
                   dispatchers := <[i := DSpawn job]> (dispatchers p);
                   started := started p; submitted := submitted p ++ [job];
                   logs := logs p; crashed := None |}
            | _, _ => p
            end
      | PClose =>
          match Chan.close (jobChan p) with
          | Chan.Closed c =>
              {| jobChan := c; wg := wg p; dispatchers := dispatchers p;
                 started := started p; submitted := submitted p;
                 logs := logs p; crashed := None |}
          | Chan.ClosePanics =>
              {| jobChan := jobChan p; wg := wg p; dispatchers := dispatchers p;
                 started := started p; submitted := submitted p;
                 logs := logs p; crashed := Some "close of closed channel" |}
          end
      | PDispatch i =>
          match dispatchers p !! i with
          | Some DRange =>
              match Chan.recv (jobChan p) with
              | Chan.Received job c =>
                  {| jobChan := c; wg := wg p;
                     dispatchers := <[i := DSpawn job]> (dispatchers p);
                     started := started p; submitted := submitted p;
                     logs := logs p; crashed := None |}
              | Chan.RecvClosed =>
                  {| jobChan := jobChan p; wg := wg p - 1;
                     dispatchers := <[i := DReturned]> (dispatchers p);
                     started := started p; submitted := submitted p;
                     logs := logs p; crashed := None |}
              | Chan.RecvBlocks => p
              end
          | Some (DSpawn job) =>
              {| jobChan := jobChan p; wg := wg p;
                 dispatchers := <[i := DRange]> (dispatchers p);
                 started := started p ++ [(job, false)]; submitted := submitted p;
                 logs := logs p; crashed := None |}
          | _ => p
          end
      | PRun k =>
          match started p !! k with
          | Some (job, false) =>
              let '(logs', _, panicking) := SafeGo job None (logs p) in
              {| jobChan := jobChan p; wg := wg p; dispatchers := dispatchers p;
                 started := <[k := (job, true)]> (started p);
                 submitted := submitted p;
                 logs := logs'; crashed := panicking |}
          | _ => p
          end
      end
  end.

Definition pool_run (acts : list pool_action) (p : WorkerPool) : WorkerPool :=
  fold_left (fun p a => pool_step a p) acts p.

(** Whether [p.wg.Wait()], the last statement of [Close], returns. *)
Definition Wait (p : WorkerPool) : bool := wg p =? 0.

(** The jobs that the goroutines of [NewWorkerPool] hold. *)
Definition dispatching (d : dstate) : list thunk :=
  match d with
  | DSpawn job => [job]
  | _ => []
  end.

Definition ranging (d : dstate) : bool :=
  match d with
  | DReturned => false
  | _ => true
  end.

(** A goroutine of [SafeGo] that has run to its end in a panic. *)
Definition recovered (t : thunk * bool) : bool :=
  snd t && match fst t tt with Some _ => true | None => false end.

(** The panics that can end the process, and the lines in the log. *)
Definition pool_safe (p : WorkerPool) : Prop :=
  match crashed p with
  | Some v => v = "send on closed channel" \/ v = "close of closed channel"
  | None => True
  end /\
  length (logs p) = length (List.filter recovered (started p)).

(** The count of [wg], the state of the channel once a goroutine of the
    pool has returned, and where the submitted jobs are. *)
Definition pool_inv (p : WorkerPool) : Prop :=
  wg p = Z.of_nat (length (List.filter ranging (dispatchers p))) /\
  (DReturned ∈ dispatchers p ->
   Chan.closed (jobChan p) = true /\ Chan.buf (jobChan p) = []) /\
  submitted p ≡ₚ
    (fst <$> started p) ++ concat (dispatching <$> dispatchers p) ++ Chan.buf (jobChan p).

(** The schedule that submits one job, lets goroutine 0 receive it and
    start it, and so on for each job; then closes the channel and lets
    every goroutine of the pool see that. *)
Definition submit_all_then_close (nworkers : nat) (jobs : list thunk)
  : list pool_action :=
  flat_map (fun job => [PSubmit job; PDispatch 0; PDispatch 0]) jobs ++
  PClose :: (PDispatch <$> seq 0 nworkers).

(** *** Semaphore

    A goroutine in [s.WithSemaphore(fn)]: at [s.Acquire()], in [fn()],
    at the deferred [s.Release()] (with the panic of [fn], if any, in
    flight), or out of the call. *)
Inductive sstate : Type :=
| SAcquire (fn : thunk)
| SRunning (fn : thunk)
| SRelease (panicking : option string)
| SDone (panicking : option string).

Record Semaphore : Type := {
  tokens : Chan.chan unit;
  callers : list sstate
}.

(** [NewSemaphore(limit)], with a goroutine in [WithSemaphore(fn)] for
    each [fn]. *)
Definition NewSemaphore (limit : Z) (fns : list thunk) : Semaphore :=
  {| tokens := Chan.make limit; callers := SAcquire <$> fns |}.

(** A move of goroutine [i]. *)
Definition sem_step (i : nat) (s : Semaphore) : Semaphore :=
  match callers s !! i with
  | Some (SAcquire fn) =>
      match Chan.send (tokens s) tt with
      | Chan.Sent c => {| tokens := c; callers := <[i := SRunning fn]> (callers s) |}
      | _ => s
      end
  | Some (SRunning fn) =>
      {| tokens := tokens s; callers := <[i := SRelease (fn tt)]> (callers s) |}
  | Some (SRelease panicking) =>
      match Chan.recv (tokens s) with
      | Chan.Received _ c =>
          {| tokens := c; callers := <[i := SDone panicking]> (callers s) |}
      | Chan.RecvClosed =>
          {| tokens := tokens s; callers := <[i := SDone panicking]> (callers s) |}
      | Chan.RecvBlocks => s
      end
  | _ => s
  end.

Definition sem_run (sched : list nat) (s : Semaphore) : Semaphore :=
  fold_left (fun s i => sem_step i s) sched s.

(** A goroutine that holds a token: between [Acquire] and the end of
    [Release]. *)
Definition holding (c : sstate) : bool :=
  match c with
  | SRunning _ | SRelease _ => true
  | _ => false
  end.
End concurrency.

(** ** Package logger *)

Module logger.

(** The fields of [Logger] that [Close] touches; [written] is what the
    [run] goroutine has handed to the writer, [done] is the state of
    [closeOnce]. *)
Record Logger : Type := {
  logChan : Chan.chan string;
  written : list string;
  done : bool;
  writer_closes : nat
}.

(** [l.closeOnce.Do(func() { close(l.logChan); l.wg.Wait();
    _ = l.writer.Close() })], where waiting for [run] means that [run]
    has written every buffered line.  The result is [None] when the
    function panics. *)
Definition Close (l : Logger) : option Logger :=
  if done l then Some l
  else
    match Chan.close (logChan l) with
    | Chan.ClosePanics => None
    | Chan.Closed c =>
        Some {| logChan := {| Chan.buf := []; Chan.cap := Chan.cap c;
                              Chan.closed := Chan.closed c |};
                written := written l ++ Chan.buf c;
                done := true;
                writer_closes := S (writer_closes l) |}
    end.

(** *** The logger with its goroutines

    [Close] above runs the function of [closeOnce] in one piece.  Here
    the [run] goroutine, the callers of [log] and the callers of [Close]
    take their steps one at a time. *)

(** The line feed that ends the lines on stderr. *)
Definition newline : string := String (Ascii.ascii_of_nat 10) "".

(** [Formatter]: level, message and time (in seconds) to a line. *)
Definition Formatter : Type := string -> string -> Z -> string.

(** What [ctx.Value(TraceIDKey)] returns when it is not nil: a string, or
    a value of another type, given by the name of the type. *)
Inductive value : Type :=
| VString (s : string)
| VOther (type : string).

(** The [run] goroutine: at the [range] over [logChan], about to write
    the line it has received, or returned. *)
Inductive rstate : Type :=
| RRange
| RWrite (msg : string)
| RReturned.

(** [closeOnce]. *)
Inductive once : Type :=
| OnceFree
| OnceRunning
| OnceDone.

(** A goroutine in [Close]: about to call [closeOnce.Do]; inside the
    function at [close(l.logChan)], [l.wg.Wait()] or [l.writer.Close()];
    or returned. *)
Inductive closer : Type :=
| CDo
| CCloseChan
| CWait
| CWriterClose
| CReturned.

(** [write_result n] is the error of the n-th [l.writer.Write], if it
    fails.  [queued] lists the lines that [log] has put into the channel,
    [handed] those that [run] has passed to [Write]; [file] and [stderr]
    are what has been written. *)
Record machine : Type := {
  chan : Chan.chan string;
  formatter : Formatter;
  runner : rstate;
  wg : Z;
  closeOnce : once;
  closers : list closer;
  write_result : nat -> option error;
  queued : list string;
  handed : list string;
  file : list string;
  stderr : list string;
  writer_closed : nat;
  crashed : option string
}.

Definition set_chan (l : machine) (c : Chan.chan string) : machine :=
  {| chan := c; formatter := formatter l; runner := runner l; wg := wg l;
     closeOnce := closeOnce l; closers := closers l;
     write_result := write_result l; queued := queued l; handed := handed l;
     file := file l; stderr := stderr l; writer_closed := writer_closed l;
     crashed := crashed l |}.
Definition set_runner (l : machine) (r : rstate) : machine :=
  {| chan := chan l; formatter := formatter l; runner := r; wg := wg l;
     closeOnce := closeOnce l; closers := closers l;
     write_result := write_result l; queued := queued l; handed := handed l;
     file := file l; stderr := stderr l; writer_closed := writer_closed l;
     crashed := crashed l |}.
Definition set_closer (l : machine) (i : nat) (c : closer) (o : once) : machine :=
  {| chan := chan l; formatter := formatter l; runner := runner l; wg := wg l;
     closeOnce := o; closers := <[i := c]> (closers l);
     write_result := write_result l; queued := queued l; handed := handed l;
     file := file l; stderr := stderr l; writer_closed := writer_closed l;
     crashed := crashed l |}.
Definition set_crashed (l : machine) (v : string) : machine :=
  {| chan := chan l; formatter := formatter l; runner := runner l; wg := wg l;
     closeOnce := closeOnce l; closers := closers l;
     write_result := write_result l; queued := queued l; handed := handed l;
     file := file l; stderr := stderr l; writer_closed := writer_closed l;
     crashed := Some v |}.

(** [NewLogger], after [go l.run()], with [n] goroutines that will call
    [Close].  [defaultFormatter] is given, since it prints a time. *)
Definition NewLogger (defaultFormatter : Formatter) (f : option Formatter)
    (write_result : nat -> option error) (n : nat) : machine :=
  {| chan := Chan.make 1000;
     formatter := match f with Some f => f | None => defaultFormatter end;
     runner := RRange; wg := 1; closeOnce := OnceFree;
     closers := replicate n CDo;
     write_result := write_result; queued := []; handed := [];
     file := []; stderr := []; writer_closed := 0; crashed := None |}.

(** [SetFormatter]. *)
Definition SetFormatter (f : option Formatter) (l : machine) : machine :=
  match f with
  | Some f =>
      {| chan := chan l; formatter := f; runner := runner l; wg := wg l;
         closeOnce := closeOnce l; closers := closers l;
         write_result := write_result l; queued := queued l; handed := handed l;
         file := file l; stderr := stderr l; writer_closed := writer_closed l;
         crashed := crashed l |}
  | None => l
  end.

(** [l.log(ctx, level, msg)] at time [t].  [ctx] is [None] for a nil
    context, and else what [ctx.Value(TraceIDKey)] returns. *)
Definition log (ctx : option (option value)) (level msg : string) (t : Z)
    (l : machine) : machine :=
  let traceID :=
    match ctx with
    | Some (Some (VString s)) => inr s
    | Some (Some (VOther type)) =>
        inl ("interface conversion: interface {} is " +:+ type +:+ ", not string")
    | _ => inr ""
    end in
  match traceID with
  | inl v => set_crashed l v
  | inr traceID =>
      let msg :=
        if decide (traceID = "") then msg
        else "[traceID: " +:+ traceID +:+ "] " +:+ msg in
      let formatted := formatter l level msg t in
      match Chan.send (chan l) formatted with
      | Chan.Sent c =>
          {| chan := c; formatter := formatter l; runner := runner l; wg := wg l;
             closeOnce := closeOnce l; closers := closers l;
             write_result := write_result l; queued := queued l ++ [formatted];
             handed := handed l; file := file l; stderr := stderr l;
             writer_closed := writer_closed l; crashed := crashed l |}
      | Chan.SendBlocks =>
          {| chan := chan l; formatter := formatter l; runner := runner l;
             wg := wg l; closeOnce := closeOnce l; closers := closers l;
             write_result := write_result l; queued := queued l;
             handed := handed l; file := file l;
             stderr := stderr l ++
               ["logger channel full, drop log: " +:+ msg +:+ newline];
             writer_closed := writer_closed l; crashed := crashed l |}
      | Chan.SendPanics => set_crashed l "send on closed channel"
      end
  end.

(** [Info], [Warn] and [Error] put a background context in the place of
    a nil one; the message is the result of [fmt.Sprintf]. *)
Definition with_background (ctx : option (option value)) : option (option value) :=
  match ctx with
  | None => Some None
  | Some v => Some v
  end.
Definition Info ctx msg t l := log (with_background ctx) "INFO" msg t l.
Definition Warn ctx msg t l := log (with_background ctx) "WARN" msg t l.
Definition Error ctx msg t l := log (with_background ctx) "ERROR" msg t l.

(** A step of the [run] goroutine. *)
Definition run_step (l : machine) : machine :=
  match runner l with
  | RRange =>
      match Chan.recv (chan l) with
      | Chan.Received msg c => set_runner (set_chan l c) (RWrite msg)
      | Chan.RecvClosed =>
          {| chan := chan l; formatter := formatter l; runner := RReturned;
             wg := wg l - 1; closeOnce := closeOnce l; closers := closers l;
             write_result := write_result l; queued := queued l;
             handed := handed l; file := file l; stderr := stderr l;
             writer_closed := writer_closed l; crashed := crashed l |}
      | Chan.RecvBlocks => l
      end
  | RWrite msg =>
      let n := length (handed l) in
      {| chan := chan l; formatter := formatter l; runner := RRange; wg := wg l;
         closeOnce := closeOnce l; closers := closers l;
         write_result := write_result l; queued := queued l;
         handed := handed l ++ [msg];
         file := match write_result l n with
                 | None => file l ++ [msg]
                 | Some _ => file l
                 end;
         stderr := match write_result l n with
                   | None => stderr l
                   | Some err =>
                       stderr l ++ ["logger write error: " +:+ err +:+ newline]
                   end;
         writer_closed := writer_closed l; crashed := crashed l |}
  | RReturned => l
  end.

(** A step of the [i]-th goroutine that calls [Close]. *)
Definition close_step (i : nat) (l : machine) : machine :=
  match closers l !! i with
  | Some CDo =>
      match closeOnce l with
      | OnceFree => set_closer l i CCloseChan OnceRunning
      | OnceRunning => l
      | OnceDone => set_closer l i CReturned OnceDone
      end
  | Some CCloseChan =>
      match Chan.close (chan l) with
      | Chan.Closed c => set_closer (set_chan l c) i CWait (closeOnce l)
      | Chan.ClosePanics => set_crashed l "close of closed channel"
      end
  | Some CWait => if wg l =? 0 then set_closer l i CWriterClose (closeOnce l) else l
  | Some CWriterClose =>
      {| chan := chan l; formatter := formatter l; runner := runner l; wg := wg l;
         closeOnce := OnceDone; closers := <[i := CReturned]> (closers l);
         write_result := write_result l; queued := queued l; handed := handed l;
         file := file l; stderr := stderr l;
         writer_closed := S (writer_closed l); crashed := crashed l |}
  | _ => l
  end.

Inductive action : Type :=
| ALog (ctx : option (option value)) (level msg : string) (t : Z)
| ASetFormatter (f : option Formatter)
| ARun
| AClose (i : nat).

Definition step (a : action) (l : machine) : machine :=
  match crashed l with
  | Some _ => l
  | None =>
      match a with
      | ALog ctx level msg t => log ctx level msg t l
      | ASetFormatter f => SetFormatter f l
      | ARun => run_step l
      | AClose i => close_step i l
      end
  end.

Definition run (acts : list action) (l : machine) : machine :=
  fold_left (fun l a => step a l) acts l.

(** The line in the hands of [run]. *)
Definition writing (r : rstate) : list string :=
  match r with
  | RWrite msg => [msg]
  | _ => []
  end.

(** The lines among [msgs] that [Write] accepts, when the first of them
    is the [n]-th line handed to it. *)
Fixpoint accepted (write_result : nat -> option error) (n : nat)
    (msgs : list string) : list string :=
  match msgs with
  | [] => []
  | msg :: rest =>
      match write_result n with
      | None => msg :: accepted write_result (S n) rest
      | Some _ => accepted write_result (S n) rest
      end
  end.

(** The file holds the lines handed to [Write] that it accepted, and the
    channel stays within its 1000 places. *)
Definition file_invariant (l : machine) : Prop :=
  file l = accepted (write_result l) 0%nat (handed l) /\
  Chan.within_cap (chan l) /\ Chan.cap (chan l) = 1000.

(** The stages of [Close] inside [closeOnce.Do]. *)
Definition in_once (c : closer) : bool :=
  match c with
  | CCloseChan | CWait | CWriterClose => true
  | _ => false
  end.

(** What holds in every state of the machine: the lines go through in
    their order; [wg] counts [run]; [run] returns only from the closed,
    empty channel; at most one goroutine is inside [closeOnce.Do], and
    where it stands says what has been done. *)
Record invariant (l : machine) : Prop := {
  inv_order : queued l = handed l ++ writing (runner l) ++ Chan.buf (chan l);
  inv_wg : wg l = match runner l with RReturned => 0 | _ => 1 end;
  inv_returned :
    runner l = RReturned -> Chan.closed (chan l) = true /\ Chan.buf (chan l) = [];
  inv_free :
    closeOnce l = OnceFree ->
    Chan.closed (chan l) = false /\ writer_closed l = 0%nat /\
    Forall (fun c => c = CDo) (closers l);
  inv_running :
    closeOnce l = OnceRunning ->
    writer_closed l = 0%nat /\
    exists i c, closers l !! i = Some c /\ in_once c = true /\
      (forall j c', closers l !! j = Some c' -> j <> i -> c' = CDo) /\
      (c <> CCloseChan -> Chan.closed (chan l) = true) /\
      (c = CCloseChan -> Chan.closed (chan l) = false) /\
      (c = CWriterClose -> runner l = RReturned);
  inv_done :
    closeOnce l = OnceDone ->
    writer_closed l = 1%nat /\ runner l = RReturned /\
    Forall (fun c => c = CDo \/ c = CReturned) (closers l);
  inv_closers :
    CReturned ∈ closers l -> closeOnce l = OnceDone
}.
End logger.

(** ** Goroutines that have not returned *)

Section Live.
Context {job backend : Type}.

(** A worker that has not returned yet. *)
Definition live (w : wstate job backend) : bool :=
  match w with
  | WReturned => false
  | _ => true
  end.

(** [db.wg] counts the workers that have not returned. *)
Definition wg_counts (s : system job backend) : Prop :=
  wg (db s) = Z.of_nat (length (List.filter live (workers s))).

(** A caller of [Close] that has passed [db.wg.Wait()]. *)
Definition past_wait (c : cstate job backend) : bool :=
  match c with
  | CRun (BackendClose _) => true
  | CRun (Return _) => true
  | CReturned _ => true
  | _ => false
  end.

(** Caller [i] is inside [Close], and past [db.wg.Wait()] only if [db.wg]
    is zero. *)
Definition waited_for_workers (i : nat) (s : system job backend) : Prop :=
  wg_counts s /\
  exists c b, callers s !! i = Some c /\ in_Close c b /\
              (past_wait c = true -> wg (db s) = 0).

(** [follows p q]: [q] is [p], or what is left of [p] after some of its
    operations. *)
Inductive follows {R : Type} : prog job backend R -> prog job backend R -> Prop :=
| follows_here p : follows p p
| follows_exec f k e q : follows (k e) q -> follows (Exec f k) q
| follows_new_timer w k t q : follows (k t) q -> follows (NewTimer w k) q
| follows_select t k c q : follows (k c) q -> follows (SelectDoneTimer t k) q
| follows_stop_timer k q : follows k q -> follows (StopTimer k) q
| follows_try_send j k q : follows k q -> follows (TrySend j k) q
| follows_send j k q : follows k q -> follows (Send j k) q
| follows_cancel k q : follows k q -> follows (Cancel k) q
| follows_close_jobs k q : follows k q -> follows (CloseJobs k) q
| follows_wg_wait k q : follows k q -> follows (WgWait k) q
| follows_backend_close k e q : follows (k e) q -> follows (BackendClose k) q.

(** A worker that runs a job is somewhere in [execWithRetry] of that
    job. *)
Definition in_execWithRetry
    (execWithRetry : job -> prog job backend (option error))
    (w : wstate job backend) : Prop :=
  match w with
  | WRun j p => follows (execWithRetry j) p
  | _ => True
  end.

(** A program whose next operation offers a job to [db.jobs], by a
    blocking or a non-blocking send. *)
Definition offers {R : Type} (p : prog job backend R) : bool :=
  match p with
  | Send _ _ | TrySend _ _ => true
  | _ => false
  end.
End Live.

(** ** Package xmysql *)

Module xmysql.

(** The handle is a [*sql.DB], as in xsqlite. *)
Record Config : Type := {
  DSN : string;
  Workers : Z;
  QueueSize : Z;
  MaxOpen : Z;
  MaxIdle : Z;
  MaxLife : Duration
}.

Record job : Type := {
  query : string;
  args : list xsqlite.any;
  tries : Z
}.

Definition execOnce (query : string) (args : list xsqlite.any)
  : prog job xsqlite.sqlDB (option error) :=
  call (xsqlite.ExecContext (Some (10 * Second)) query args).

Definition execWithRetry (j : job) : prog job xsqlite.sqlDB (option error) :=
  err ← execOnce (query j) (args j);
  match err with
  | Some e =>
      if tries j <? 5 then
        let wait :=
          wrap64 (wrap64 (pow2_duration (tries j) * 100) * Millisecond) in
        timer ← new_timer wait;
        c ← select_done_timer timer;
        match c with
        | CtxDone => stop_timer ;; mret (Some e)
        | TimerC =>
            let j := {| query := query j; args := args j;
                        tries := wrap64 (tries j + 1) |} in
            try_send j ;; mret (Some e)
        end
      else mret (Some e)
  | None => mret None
  end.

Definition Enqueue (query : string) (args : list xsqlite.any)
  : prog job xsqlite.sqlDB unit :=
  send {| query := query; args := args; tries := 0 |}.

Definition ExecSync (query : string) (args : list xsqlite.any)
  : prog job xsqlite.sqlDB (option error) :=
  call (xsqlite.ExecContext None query args).

Definition Close : prog job xsqlite.sqlDB (option error) := Close.

Definition worker := worker xsqlite.sqlClose execWithRetry.
Definition step := step xsqlite.sqlClose execWithRetry.
Definition run := run xsqlite.sqlClose execWithRetry.

(** The four [if] statements that fill in defaults, in their order:
    [MaxIdle] takes the worker count that is already filled in. *)
Definition defaults (cfg : Config) : Config :=
  let workers := if Workers cfg <=? 0 then 4 else Workers cfg in
  {| DSN := DSN cfg;
     Workers := workers;
     QueueSize := if QueueSize cfg <=? 0 then 1000 else QueueSize cfg;
     MaxOpen := if MaxOpen cfg <=? 0 then 20 else MaxOpen cfg;
     MaxIdle := if MaxIdle cfg <=? 0 then workers else MaxIdle cfg;
     MaxLife := MaxLife cfg |}.

(** The limits of the connection pool, as [database/sql] keeps them in
    [sql.DB]: [maxOpen] (0 is no limit), [maxIdleCount] (0 is the default
    of 2, a negative value is none) and [maxLifetime] (0 is no limit).
    [sql.Open] returns a pool with all three at 0. *)
Record pool : Type := {
  maxOpen : Z;
  maxIdleCount : Z;
  maxLifetime : Duration
}.

Definition new_pool : pool :=
  {| maxOpen := 0; maxIdleCount := 0; maxLifetime := 0 |}.

Definition defaultMaxIdleConns : Z := 2.

(** [maxIdleConnsLocked]: the number of idle connections kept. *)
Definition maxIdleConns (p : pool) : Z :=
  let n := maxIdleCount p in
  if n =? 0 then defaultMaxIdleConns
  else if n <? 0 then 0
  else n.

(** [SetMaxIdleConns(n)]: the limit is lowered to [maxOpen] when there is
    one and it is smaller. *)
Definition SetMaxIdleConns (n : Z) (p : pool) : pool :=
  let p := {| maxOpen := maxOpen p;
              maxIdleCount := if 0 <? n then n else -1;
              maxLifetime := maxLifetime p |} in
  if (0 <? maxOpen p) && (maxOpen p <? maxIdleConns p)
  then {| maxOpen := maxOpen p; maxIdleCount := maxOpen p;
          maxLifetime := maxLifetime p |}
  else p.

(** [SetMaxOpenConns(n)]: a negative [n] is no limit; the idle limit
    follows when it is above the new limit. *)
Definition SetMaxOpenConns (n : Z) (p : pool) : pool :=
  let p := {| maxOpen := if n <? 0 then 0 else n;
              maxIdleCount := maxIdleCount p;
              maxLifetime := maxLifetime p |} in
  let syncMaxIdle := (0 <? maxOpen p) && (maxOpen p <? maxIdleConns p) in
  if syncMaxIdle then SetMaxIdleConns n p else p.

(** [SetConnMaxLifetime(d)]: a negative [d] is no limit. *)
Definition SetConnMaxLifetime (d : Duration) (p : pool) : pool :=
  {| maxOpen := maxOpen p; maxIdleCount := maxIdleCount p;
     maxLifetime := if d <? 0 then 0 else d |}.

Inductive open_result : Type :=
| Opened (s : system job xsqlite.sqlDB) (p : pool)
| OpenError (e : error)
| OpenPanic (v : string).

(** [Open(parent, cfg, opts...)], with [migrations] what the options set
    and [opened] what [sql.Open] returned; the pool is the new one with
    the three setters applied in the order of the source.  The loop over
    the migrations is the one of xsqlite. *)
Definition Open (parent_done : bool) (cfg : Config)
    (migrations : list string) (opened : error + xsqlite.sqlDB) : open_result :=
  if decide (DSN cfg = "") then OpenError "DSN required" else
  let cfg := defaults cfg in
  match opened with
  | inl err => OpenError err
  | inr sqldb =>
      let p := SetMaxOpenConns (MaxOpen cfg) new_pool in
      let p := SetMaxIdleConns (MaxIdle cfg) p in
      let p := SetConnMaxLifetime (MaxLife cfg) p in
      match xsqlite.run_migrations migrations sqldb with
      | (Err err, _) => OpenError err
      | (Panic v, _) => OpenPanic v
      | (Nil, sqldb) =>
          Opened (start parent_done sqldb (QueueSize cfg) (Workers cfg)) p
      end
  end.

(** [BuildMySQLDSN]; [%d] prints the port in decimal. *)
Definition BuildMySQLDSN (user password host : string) (port : Z)
    (dbname charset : string) (parseTime : bool) (loc : string) : string :=
  let charset := if decide (charset = "") then "utf8mb4" else charset in
  let parseTimeStr := if parseTime then "True" else "False" in
  let loc := if decide (loc = "") then "Local" else loc in
  user +:+ ":" +:+ password +:+ "@tcp(" +:+ host +:+ ":" +:+ pretty port +:+ ")/"
    +:+ dbname +:+ "?charset=" +:+ charset +:+ "&parseTime=" +:+ parseTimeStr
    +:+ "&loc=" +:+ loc.
End xmysql.

(** ** Package config *)

Module config.

Record AppConfig : Type := {
  Name : string;
  Port : Z;
  Mode : string
}.

Record DatabaseConfig : Type := {
  Host : string;
  DatabasePort : Z;
  User : string;
  DatabasePassword : string;
  DBName : string
}.

Record RedisConfig : Type := {
  Addr : string;
  Password : string;
  DB : Z
}.

Record Config : Type := {
  App : AppConfig;
  Database : DatabaseConfig;
  Redis : RedisConfig
}.

(** [&Config{}]. *)
Definition zero : Config :=
  {| App := {| Name := ""; Port := 0; Mode := "" |};
     Database := {| Host := ""; DatabasePort := 0; User := "";
                    DatabasePassword := ""; DBName := "" |};
     Redis := {| Addr := ""; Password := ""; DB := 0 |} |}.

(** A path of the file system, as [LoadConfig] sees it: [os.Stat] says
    that it does not exist, or [toml.DecodeFile] is run on it, which
    writes into the configuration that it is given and returns an error or
    nil. *)
Inductive file : Type :=
| Missing
| Present (DecodeFile : Config -> option error * Config).

(** The package variables [cfg] (nil at first) and [once]. *)
Record package : Type := {
  cfg : option Config;
  once : bool
}.

Definition initial : package := {| cfg := None; once := false |}.

(** The loop over [files] in the function given to [once.Do]: the error
    that it leaves in [err], and what it has written to [cfg]. *)
Fixpoint load (fs : string -> file) (files : list string) (c : Config)
  : option error * Config :=
  match files with
  | [] => (None, c)
  | f :: rest =>
      match fs f with
      | Missing => (Some ("配置文件不存在: " +:+ f), c)
      | Present DecodeFile =>
          match DecodeFile c with
          | (Some err, c) => (Some ("解析配置文件失败 " +:+ f +:+ ": " +:+ err), c)
          | (None, c) => load fs rest c
          end
      end
  end.

(** [LoadConfig(files...)]: the pair that it returns, and the package
    variables after it. *)
Definition LoadConfig (fs : string -> file) (files : list string) (p : package)
  : (option Config * option error) * package :=
  if once p then ((cfg p, None), p)
  else
    let '(err, c) := load fs files zero in
    ((Some c, err), {| cfg := Some c; once := true |}).

(** [GetConfig()]: the configuration, or the panic. *)
Definition GetConfig (p : package) : string + Config :=
  match cfg p with
  | None => inl "配置尚未初始化，请先调用 LoadConfig()"
  | Some c => inr c
  end.

(** A program that calls [LoadConfig] a number of times, each time with
    a list of files and the file system of that moment: the package
    variables after it. *)
Definition loads (calls : list ((string -> file) * list string)) (p : package)
  : package :=
  fold_left (fun p call => snd (LoadConfig (fst call) (snd call) p)) calls p.
End config.

(** ** Package uuid *)

Module uuid.
Import Stdlib.Strings.Ascii.

(** A Go [byte], as an integer from 0 to 255. *)
Definition is_byte (b : Z) : Prop := 0 <= b < 256.

(** The digit that [%x] prints for a value from 0 to 15. *)
Definition hexdigit (n : Z) : ascii :=
  match n with
  | 0 => "0" | 1 => "1" | 2 => "2" | 3 => "3" | 4 => "4" | 5 => "5"
  | 6 => "6" | 7 => "7" | 8 => "8" | 9 => "9" | 10 => "a" | 11 => "b"
  | 12 => "c" | 13 => "d" | 14 => "e" | _ => "f"
  end%char.

(** [%x] on a byte slice: two lower-case digits for each byte.  Every
    slice that the functions below print fills the width of its verb
    ([%08x] gets four bytes, [%04x] two, [%012x] six), so the verbs never
    pad. *)
Fixpoint hex (bs : list Z) : string :=
  match bs with
  | [] => ""
  | b :: rest => String (hexdigit (b / 16)) (String (hexdigit (b mod 16)) (hex rest))
  end.

(** [u[lo:hi]]. *)
Definition slice (u : list Z) (lo hi : nat) : list Z := take (hi - lo) (drop lo u).

(** [NewV4].  [random] is what [rand.Read(u)] did: it failed, or it filled
    the 16 bytes of [u]. *)
Definition NewV4 (random : error + list Z) : error + string :=
  match random with
  | inl err => inl err
  | inr u =>
      let u := <[6%nat := Z.lor (Z.land (u !!! 6%nat) 15) 64]> u in
      let u := <[8%nat := Z.lor (Z.land (u !!! 8%nat) 63) 128]> u in
      inr (hex (slice u 0 4) +:+ "-" +:+ hex (slice u 4 6) +:+ "-" +:+
           hex (slice u 6 8) +:+ "-" +:+ hex (slice u 8 10) +:+ "-" +:+
           hex (slice u 10 12) +:+ hex (slice u 12 16))
  end.

(** [byte(x)] for an unsigned [x]. *)
Definition low_byte (x : Z) : Z := x mod 256.

(** [NewV1].  [unix_nano] is [time.Now().UTC().UnixNano()], an int64;
    [random] is what [rand.Read(node)] did for the 6 bytes of [node]. *)
Definition NewV1 (unix_nano : Z) (random : error + list Z) : error + string :=
  let u := replicate 16 0 in
  let ts := (Z.quot unix_nano 100 mod 2 ^ 64 + 122192928000000000) mod 2 ^ 64 in
  let u := <[0%nat := low_byte (Z.shiftr ts 24)]> u in
  let u := <[1%nat := low_byte (Z.shiftr ts 16)]> u in
  let u := <[2%nat := low_byte (Z.shiftr ts 8)]> u in
  let u := <[3%nat := low_byte ts]> u in
  let u := <[4%nat := low_byte (Z.shiftr ts 40)]> u in
  let u := <[5%nat := low_byte (Z.shiftr ts 32)]> u in
  let u := <[6%nat := Z.lor (Z.land (low_byte (Z.shiftr ts 56)) 15) 16]> u in
  match random with
  | inl err => inl err
  | inr node =>
      let u := <[10%nat := node !!! 0%nat]> u in
      let u := <[11%nat := node !!! 1%nat]> u in
      let u := <[12%nat := node !!! 2%nat]> u in
      let u := <[13%nat := node !!! 3%nat]> u in
      let u := <[14%nat := node !!! 4%nat]> u in
      let u := <[15%nat := node !!! 5%nat]> u in
      let u := <[8%nat := Z.lor (Z.land (u !!! 8%nat) 63) 128]> u in
      inr (hex (slice u 0 4) +:+ "-" +:+ hex (slice u 4 6) +:+ "-" +:+
           hex (slice u 6 8) +:+ "-" +:+ hex (slice u 8 10) +:+ "-" +:+
           hex (slice u 10 16))
  end.

(** [strings.ReplaceAll(s, "-", "")]. *)
Fixpoint remove_dashes (s : string) : string :=
  match s with
  | "" => ""
  | String c rest =>
      if Ascii.eqb c "-" then remove_dashes rest else String c (remove_dashes rest)
  end.

(** The value of a hexadecimal digit of either case, as [encoding/hex]
    reads it. *)
Definition unhex (c : ascii) : option Z :=
  let n := Z.of_N (N_of_ascii c) in
  if (48 <=? n) && (n <=? 57) then Some (n - 48)
  else if (97 <=? n) && (n <=? 102) then Some (n - 97 + 10)
  else if (65 <=? n) && (n <=? 70) then Some (n - 65 + 10)
  else None.

(** The errors of [encoding/hex]. *)
Inductive hex_error : Type :=
| ErrLength
| InvalidByteError (c : ascii).

(** [hex.DecodeString]: the bytes, or the first error from the left: a
    character that is no hexadecimal digit, or an odd length. *)
Fixpoint DecodeString (s : string) : hex_error + list Z :=
  match s with
  | "" => inr []
  | String p "" =>
      match unhex p with
      | Some _ => inl ErrLength
      | None => inl (InvalidByteError p)
      end
  | String p (String q rest) =>
      match unhex p, unhex q with
      | Some a, Some b =>
          match DecodeString rest with
          | inr bs => inr (Z.lor (Z.shiftl a 4) b :: bs)
          | inl err => inl err
          end
      | None, _ => inl (InvalidByteError p)
      | _, None => inl (InvalidByteError q)
      end
  end.

(** [NewV5], for any digest function in the place of MD5 ([digest bs] is
    [h.Sum(nil)] after [bs] has been written to [h]). *)
Definition NewV5 (digest : list Z -> list Z) (namespace name : string)
  : error + string :=
  let ns := remove_dashes namespace in
  match DecodeString ns with
  | inl _ => inl "invalid namespace UUID"
  | inr nsBytes =>
      if negb (length nsBytes =? 16)%nat then inl "invalid namespace UUID"
      else
        let sum := digest (nsBytes ++ (Z.of_N ∘ N_of_ascii <$> String.list_ascii_of_string name)) in
        let sum := <[6%nat := Z.lor (Z.land (sum !!! 6%nat) 15) 80]> sum in
        let sum := <[8%nat := Z.lor (Z.land (sum !!! 8%nat) 63) 128]> sum in
        inr (hex (slice sum 0 4) +:+ "-" +:+ hex (slice sum 4 6) +:+ "-" +:+
             hex (slice sum 6 8) +:+ "-" +:+ hex (slice sum 8 10) +:+ "-" +:+
             hex (slice sum 10 16))
  end.

(** [strings.ToLower] on the ASCII letters.  No other rune has a
    lower-case form among the characters that the pattern of [IsValidUUID]
    accepts, so the match comes out the same. *)
Definition to_lower_ascii (c : ascii) : ascii :=
  let n := N_of_ascii c in
  if ((65 <=? n) && (n <=? 90))%N then ascii_of_N (n + 32) else c.

Fixpoint ToLower (s : string) : string :=
  match s with
  | "" => ""
  | String c rest => String (to_lower_ascii c) (ToLower rest)
  end.

(** The character classes of the pattern in [IsValidUUID]. *)
Inductive class : Type :=
| HexDigit             (* [0-9a-f] *)
| Dash                 (* - *)
| Version              (* [1-5] *)
| Variant.             (* [89ab] *)

Definition in_class (k : class) (c : ascii) : bool :=
  let n := N_of_ascii c in
  match k with
  | HexDigit => ((48 <=? n) && (n <=? 57) || (97 <=? n) && (n <=? 102))%N
  | Dash => (n =? 45)%N
  | Version => ((49 <=? n) && (n <=? 53))%N
  | Variant => ((n =? 56) || (n =? 57) || (n =? 97) || (n =? 98))%N
  end.

(** The pattern, as its sequence of [class{count}] items between [^] and
    [$]:
    [^[0-9a-f]{8}-[0-9a-f]{4}-[1-5][0-9a-f]{3}-[89ab][0-9a-f]{3}-[0-9a-f]{12}$]. *)
Definition pattern : list (class * nat) :=
  [(HexDigit, 8); (Dash, 1); (HexDigit, 4); (Dash, 1);
   (Version, 1); (HexDigit, 3); (Dash, 1);
   (Variant, 1); (HexDigit, 3); (Dash, 1); (HexDigit, 12)]%nat.

(** The items written out: one class for each character. *)
Definition expand (p : list (class * nat)) : list class :=
  flat_map (fun item => replicate (snd item) (fst item)) p.

(** Whether the string is, from its first to its last character (the
    pattern is anchored at both ends, and [$] without the [m] flag is the
    end of the text), one character of each class in turn. *)
Fixpoint match_classes (ks : list class) (s : string) : bool :=
  match ks, s with
  | [], "" => true
  | k :: ks, String c rest => in_class k c && match_classes ks rest
  | _, _ => false
  end.

Definition MatchString (p : list (class * nat)) (s : string) : bool :=
  match_classes (expand p) s.

Definition IsValidUUID (u : string) : bool :=
  let u := ToLower u in
  MatchString pattern u.

(** The string that [NewV1] and [NewV5] print for the 16 bytes [u], and
    [NewV4] too, which prints the last twelve digits in two parts. *)
Definition layout (u : list Z) : string :=
  hex (slice u 0 4) +:+ "-" +:+ hex (slice u 4 6) +:+ "-" +:+
  hex (slice u 6 8) +:+ "-" +:+ hex (slice u 8 10) +:+ "-" +:+ hex (slice u 10 16).

(** Strings of hexadecimal digits of either case. *)
Fixpoint all_hex (s : string) : bool :=
  match s with
  | "" => true
  | String c rest => bool_decide (is_Some (unhex c)) && all_hex rest
  end.

(** The [Must] variants panic with the error. *)
Inductive must : Type :=
| Returns (u : string)
| Panics (err : error).

Definition must_of (r : error + string) : must :=
  match r with
  | inl err => Panics err
  | inr u => Returns u
  end.

Definition MustV4 (random : error + list Z) : must := must_of (NewV4 random).
Definition MustV1 (unix_nano : Z) (random : error + list Z) : must :=
  must_of (NewV1 unix_nano random).
Definition MustV5 (digest : list Z -> list Z) (namespace name : string) : must :=
  must_of (NewV5 digest namespace name).

(** [GetMAC].  [interfaces] is what [net.Interfaces()] returned, each
    interface by its [HardwareAddr]. *)
Fixpoint first_mac (interfaces : list (list Z)) : error + list Z :=
  match interfaces with
  | [] => inl "no MAC found"
  | addr :: rest => if (length addr =? 6)%nat then inr addr else first_mac rest
  end.

Definition GetMAC (interfaces : error + list (list Z)) : error + list Z :=
  match interfaces with
  | inl err => inl err
  | inr l => first_mac l
  end.
End uuid.

(** ** Concrete runs

    Backends, configurations, main programs and schedules for the runs
    that the properties below evaluate. *)

Module Runs.

Definition ok (_ : nat) (_ : option Duration) (_ : string)
    (_ : list xsqlite.any) : outcome := Nil.

Definition failing (_ : nat) (_ : option Duration) (_ : string)
    (_ : list xsqlite.any) : outcome := Err "disk I/O error".

(** The first [k] statements fail, the later ones succeed. *)
Definition failing_first (k : nat) (n : nat) (_ : option Duration)
    (_ : string) (_ : list xsqlite.any) : outcome :=
  if (n <? k)%nat then Err "database is locked" else Nil.

Definition sqldb drv : xsqlite.sqlDB :=
  {| xsqlite.driver := drv; xsqlite.calls := [];
     xsqlite.close_result := None; xsqlite.closes := 0 |}.

Definition config (workers queueSize : Z) : xsqlite.Config :=
  {| xsqlite.DBPath := "data/app.db"; xsqlite.Workers := workers;
     xsqlite.QueueSize := queueSize; xsqlite.BusyTimeout := 0;
     xsqlite.SyncMode := ""; xsqlite.ExtraPragma := [] |}.

Definition insert : string := "INSERT INTO logs(level,msg) VALUES(?,?)".

(** The pipeline that [xsqlite.Open] builds, with one goroutine for each
    main program. *)
Definition boot drv (workers queueSize : Z)
    (mains : list (prog xsqlite.job xsqlite.sqlDB (option error)))
  : option (system xsqlite.job xsqlite.sqlDB) :=
  match xsqlite.Open false (config workers queueSize) [] (inr (sqldb drv)) with
  | xsqlite.Opened s => Some (set_callers s (CRun <$> mains))
  | _ => None
  end.

Definition rdb : xredis.Client :=
  {| xredis.store := []; xredis.ping_result := None;
     xredis.close_result := None; xredis.closes := 0 |}.

Definition redis_config : xredis.Config :=
  {| xredis.Addr := "localhost:6379"; xredis.Password := "";
     xredis.DB := 0; xredis.Workers := 0; xredis.QueueSize := 0 |}.

Definition redis_small_config : xredis.Config :=
  {| xredis.Addr := "localhost:6379"; xredis.Password := "";
     xredis.DB := 0; xredis.Workers := 1; xredis.QueueSize := 1 |}.

Definition redis_boot_with (cfg : xredis.Config)
    (mains : list (prog xredis.job xredis.Client (option error)))
  : option (system xredis.job xredis.Client) :=
  match xredis.Open false cfg rdb with
  | inr s => Some (set_callers s (CRun <$> mains))
  | inl _ => None
  end.

Definition redis_boot
    (mains : list (prog xredis.job xredis.Client (option error)))
  : option (system xredis.job xredis.Client) :=
  match xredis.Open false redis_config rdb with
  | inr s => Some (set_callers s (CRun <$> mains))
  | inl _ => None
  end.

(** [c.Set(ctx, key, val, exp).Err()] on a healthy connection. *)
Definition set_key (key val : string) (c : xredis.Client)
  : outcome * xredis.Client :=
  (Nil, {| xredis.store := (key, val) :: xredis.store c;
           xredis.ping_result := xredis.ping_result c;
           xredis.close_result := xredis.close_result c;
           xredis.closes := xredis.closes c |}).

(** A write refused by a read-only replica. *)
Definition read_only (c : xredis.Client) : outcome * xredis.Client :=
  (Err "READONLY", c).

(** A closure that dereferences a nil pointer. *)
Definition nil_deref (c : xredis.Client) : outcome * xredis.Client :=
  (Panic "runtime error: invalid memory address or nil pointer dereference", c).

(** Main programs. *)
Definition close_twice : prog xsqlite.job xsqlite.sqlDB (option error) :=
  xsqlite.Close ;; xsqlite.Close.

Definition redis_close_twice : prog xredis.job xredis.Client (option error) :=
  xredis.Close ;; xredis.Close.

Definition burst_then_close : prog xsqlite.job xsqlite.sqlDB (option error) :=
  xsqlite.Enqueue insert [xsqlite.Str "INFO"; xsqlite.Int 1] ;;
  xsqlite.Enqueue insert [xsqlite.Str "INFO"; xsqlite.Int 2] ;;
  xsqlite.Enqueue insert [xsqlite.Str "INFO"; xsqlite.Int 3] ;;
  xsqlite.Close.

Definition enqueue_one : prog xsqlite.job xsqlite.sqlDB (option error) :=
  xsqlite.Enqueue insert [xsqlite.Str "INFO"; xsqlite.Str "hello"] ;;
  mret None.

Definition enqueue_three : prog xsqlite.job xsqlite.sqlDB (option error) :=
  xsqlite.Enqueue insert [xsqlite.Int 1] ;;
  xsqlite.Enqueue insert [xsqlite.Int 2] ;;
  xsqlite.Enqueue insert [xsqlite.Int 3] ;;
  mret None.

Definition two_then_close : prog xsqlite.job xsqlite.sqlDB (option error) :=
  xsqlite.Enqueue insert [xsqlite.Str "A"] ;;
  xsqlite.Enqueue insert [xsqlite.Str "B"] ;;
  xsqlite.Close.

Definition close_then_enqueue : prog xsqlite.job xsqlite.sqlDB (option error) :=
  xsqlite.Close ;;
  xsqlite.Enqueue insert [xsqlite.Str "INFO"; xsqlite.Str "late"] ;;
  mret None.

Definition redis_enqueue_panicking
  : prog xredis.job xredis.Client (option error) :=
  xredis.Enqueue nil_deref ;; mret None.

Definition redis_two_then_close
  : prog xredis.job xredis.Client (option error) :=
  xredis.Enqueue read_only ;;
  xredis.Enqueue (set_key "foo" "bar") ;;
  xredis.Close.

(** Schedules.  The caller moves with [ACaller 0 _], worker [i] with
    [AWorker i _]. *)

(** A first [Close] runs to its end while the only worker (or both
    workers) leave through [<-db.ctx.Done()]; then the second [Close]
    begins. *)
Definition sequential_close (nworkers : nat) : list action :=
  [ACaller 0 PickOther; ACaller 0 PickOther] ++
  ((fun i => AWorker i PickDone) <$> seq 0 nworkers) ++
  [ACaller 0 PickOther; ACaller 0 PickOther;
   ACaller 0 PickOther; ACaller 0 PickOther].

(** Two goroutines call [Close] at the same time. *)
Definition concurrent_close : list action :=
  [ACaller 0 PickOther; ACaller 1 PickOther;
   ACaller 0 PickOther; ACaller 1 PickOther].

(** Three sends, then [Close] from cancel to return, with every worker
    taking [<-db.ctx.Done()] when it is scheduled. *)
Definition close_wins (nworkers : nat) : list action :=
  [ACaller 0 PickOther; ACaller 0 PickOther; ACaller 0 PickOther;
   ACaller 0 PickOther; ACaller 0 PickOther] ++
  ((fun i => AWorker i PickDone) <$> seq 0 nworkers) ++
  [ACaller 0 PickOther; ACaller 0 PickOther; ACaller 0 PickOther].

(** Worker 0 receives a job, runs it, arms the timer, the wait for
    counter [n] passes, the worker takes [<-timer.C], offers the job
    again and returns to its loop. *)
Definition failed_attempt (n : Z) : list action :=
  [AWorker 0 PickOther; AWorker 0 PickOther; AWorker 0 PickOther;
   ATick (backoffBase * 2 ^ n);
   AWorker 0 PickOther; AWorker 0 PickOther; AWorker 0 PickOther].

(** Worker 0 receives a job, runs it and returns to its loop. *)
Definition last_attempt : list action :=
  [AWorker 0 PickOther; AWorker 0 PickOther; AWorker 0 PickOther].

(** Job A fails and waits for its retry; job B fills the queue; the
    timer fires while [Close] cancels the context and closes the
    channel; the worker's [select] takes [<-timer.C]. *)
Definition retry_meets_close : list action :=
  [ACaller 0 PickOther;
   AWorker 0 PickOther; AWorker 0 PickOther; AWorker 0 PickOther;
   ACaller 0 PickOther;
   ATick backoffBase;
   ACaller 0 PickOther; ACaller 0 PickOther;
   AWorker 0 PickOther].
End Runs.

(** * Properties *)

(** ** Channels *)

Section ChanFacts.
Context {A : Type}.
Implicit Types (c : Chan.chan A) (v : A).

Lemma send_sent c v c' :
  Chan.send c v = Chan.Sent c' ->
  Chan.closed c = false /\ Chan.full c = false /\
  Chan.buf c' = Chan.buf c ++ [v] /\
  Chan.cap c' = Chan.cap c /\ Chan.closed c' = false.
Proof.
  unfold Chan.send. destruct (Chan.closed c) eqn:Hc; [discriminate|].
  destruct (Chan.full c) eqn:Hf; [discriminate|].
  intros [= <-]. simpl. auto.
Qed.

Lemma send_within_cap c v c' :
  Chan.send c v = Chan.Sent c' -> Chan.within_cap c'.
Proof.
  intros H. destruct (send_sent _ _ _ H) as (_ & Hf & Hb & Hcap & _).
  unfold Chan.within_cap, Chan.len, Chan.full in *.
  rewrite Hb, Hcap, length_app. simpl.
  apply Z.leb_gt in Hf. unfold Chan.len in Hf. lia.
Qed.

Lemma send_closed_panics c v :
  Chan.closed c = true -> Chan.send c v = Chan.SendPanics.
Proof. unfold Chan.send. now intros ->. Qed.

Lemma send_full_blocks c v :
  Chan.closed c = false -> Chan.full c = true ->
  Chan.send c v = Chan.SendBlocks.
Proof. unfold Chan.send. now intros -> ->. Qed.

Lemma recv_received c v c' :
  Chan.recv c = Chan.Received v c' ->
  Chan.buf c = v :: Chan.buf c' /\
  Chan.cap c' = Chan.cap c /\ Chan.closed c' = Chan.closed c.
Proof.
  unfold Chan.recv. destruct (Chan.buf c) eqn:Hb.
  - destruct (Chan.closed c); discriminate.
  - intros [= <- <-]. simpl. auto.
Qed.

Lemma recv_within_cap c v c' :
  Chan.recv c = Chan.Received v c' -> Chan.within_cap c -> Chan.within_cap c'.
Proof.
  intros H. destruct (recv_received _ _ _ H) as (Hb & Hcap & _).
  unfold Chan.within_cap, Chan.len. rewrite Hb, Hcap. simpl. lia.
Qed.

Lemma close_closed c c' :
  Chan.close c = Chan.Closed c' ->
  Chan.closed c = false /\ Chan.buf c' = Chan.buf c /\
  Chan.cap c' = Chan.cap c /\ Chan.closed c' = true.
Proof.
  unfold Chan.close. destruct (Chan.closed c); [discriminate|].
  intros [= <-]. simpl. auto.
Qed.

Lemma close_closed_panics c :
  Chan.closed c = true -> Chan.close c = Chan.ClosePanics.
Proof. unfold Chan.close. now intros ->. Qed.
End ChanFacts.

(** ** Facts that hold for both packages *)

(** The machine's functions by their names, for the sections below that
    rebind these names to one package. *)
Ltac unfold_step := unfold step.
Ltac unfold_step_everywhere := unfold step in *.
Ltac unfold_worker := unfold worker.
Ltac unfold_caller := unfold caller.
Ltac unfold_run := unfold run.

Section PipelineFacts.
Context {job backend : Type}.
Variable release : backend -> option error * backend.
Variable execWithRetry : job -> prog job backend (option error).

Local Abbreviation op_step := (op_step release).
Local Abbreviation worker := (worker release execWithRetry).
Local Abbreviation caller := (caller release).
Local Abbreviation step := (step release execWithRetry).
Local Abbreviation run := (run release execWithRetry).

Implicit Types (d : DB job backend) (s : system job backend).

Lemma jobs_evolve_refl d : jobs_evolve d d.
Proof. unfold jobs_evolve. auto. Qed.

Lemma jobs_evolve_same d d' : jobs d' = jobs d -> jobs_evolve d d'.
Proof. unfold jobs_evolve. intros ->. auto. Qed.

Lemma jobs_evolve_send d (j : job) c :
  Chan.send (jobs d) j = Chan.Sent c -> jobs_evolve d (set_jobs d c).
Proof.
  intros H. pose proof (send_within_cap _ _ _ H) as Hw.
  destruct (send_sent _ _ _ H) as (Hc & _ & _ & Hcap & _).
  unfold jobs_evolve. simpl. repeat split; auto. congruence.
Qed.

Lemma jobs_evolve_recv d (j : job) c :
  Chan.recv (jobs d) = Chan.Received j c -> jobs_evolve d (set_jobs d c).
Proof.
  intros H. destruct (recv_received _ _ _ H) as (_ & Hcap & Hc).
  unfold jobs_evolve. simpl. repeat split; auto.
  - eapply recv_within_cap; eauto.
  - congruence.
Qed.

Lemma jobs_evolve_close d c :
  Chan.close (jobs d) = Chan.Closed c -> jobs_evolve d (set_jobs d c).
Proof.
  intros H. destruct (close_closed _ _ H) as (_ & Hb & Hcap & Hc).
  unfold jobs_evolve, Chan.within_cap, Chan.len. simpl.
  rewrite Hb, Hcap. auto.
Qed.

Lemma op_step_jobs {R} (p p' : prog job backend R) pk t d d' :
  op_step p pk t d = Next p' d' -> jobs_evolve d d'.
Proof.
  destruct p; simpl.
  - discriminate.
  - destruct (f (handle d)) as [[ | e | v] h]; intros [= <- <-] || discriminate;
      now apply jobs_evolve_same.
  - intros [= <- <-]. apply jobs_evolve_refl.
  - destruct pk.
    + destruct (ctx_done d); intros [= <- <-] || discriminate.
      apply jobs_evolve_refl.
    + destruct (deadline <=? t); intros [= <- <-] || discriminate.
      apply jobs_evolve_refl.
  - intros [= <- <-]. apply jobs_evolve_refl.
  - destruct (Chan.send (jobs d) j) eqn:Hs; intros [= <- <-] || discriminate.
    + eapply jobs_evolve_send; eauto.
    + apply jobs_evolve_refl.
  - destruct (Chan.send (jobs d) j) eqn:Hs; intros [= <- <-] || discriminate.
    eapply jobs_evolve_send; eauto.
  - intros [= <- <-]. now apply jobs_evolve_same.
  - destruct (Chan.close (jobs d)) eqn:Hs; intros [= <- <-] || discriminate.
    eapply jobs_evolve_close; eauto.
  - destruct (wg d =? 0); intros [= <- <-] || discriminate.
    apply jobs_evolve_refl.
  - destruct (release (handle d)) as [e h]. intros [= <- <-].
    now apply jobs_evolve_same.
Qed.

(** A running worker or caller moves by the operation at the head of its
    program, unless the program has returned. *)
Lemma worker_run_next j p pk t d w' d' :
  worker (WRun j p) pk t d = Next w' d' ->
  (exists r, p = Return r /\ w' = WSelect /\ d' = d) \/
  (exists p', op_step p pk t d = Next p' d' /\ w' = WRun j p').
Proof.
  destruct p; unfold_worker; lazy iota beta;
    try (intros [= <- <-]; left; eauto; fail);
    match goal with
    | |- context [op_step ?q pk t d] =>
        destruct (op_step q pk t d) eqn:Hp
    end; intros [= <- <-] || discriminate; right; eauto.
Qed.

Lemma worker_run_panicked j p pk t d v :
  worker (WRun j p) pk t d = Panicked v -> op_step p pk t d = Panicked v.
Proof.
  destruct p; unfold_worker; lazy iota beta; try discriminate;
    match goal with
    | |- context [op_step ?q pk t d] =>
        destruct (op_step q pk t d) eqn:Hp
    end; intros [= <-] || discriminate; reflexivity.
Qed.

Lemma caller_run_next p pk t d c' d' :
  caller (CRun p) pk t d = Next c' d' ->
  (exists r, p = Return r /\ c' = CReturned r /\ d' = d) \/
  (exists p', op_step p pk t d = Next p' d' /\ c' = CRun p').
Proof.
  destruct p; unfold_caller; lazy iota beta;
    try (intros [= <- <-]; left; eauto; fail);
    match goal with
    | |- context [op_step ?q pk t d] =>
        destruct (op_step q pk t d) eqn:Hp
    end; intros [= <- <-] || discriminate; right; eauto.
Qed.

Lemma caller_run_panicked p pk t d v :
  caller (CRun p) pk t d = Panicked v -> op_step p pk t d = Panicked v.
Proof.
  destruct p; unfold_caller; lazy iota beta; try discriminate;
    match goal with
    | |- context [op_step ?q pk t d] =>
        destruct (op_step q pk t d) eqn:Hp
    end; intros [= <-] || discriminate; reflexivity.
Qed.

Lemma worker_jobs w w' pk t d d' :
  worker w pk t d = Next w' d' -> jobs_evolve d d'.
Proof.
  destruct w as [ | j p | ].
  - simpl. destruct pk.
    + destruct (ctx_done d); intros [= <- <-] || discriminate.
      now apply jobs_evolve_same.
    + destruct (Chan.recv (jobs d)) eqn:Hr; intros [= <- <-] || discriminate.
      * eapply jobs_evolve_recv; eauto.
      * now apply jobs_evolve_same.
  - intros H. apply worker_run_next in H as [(r & _ & _ & ->) | (p' & Hp & _)].
    + apply jobs_evolve_refl.
    + eapply op_step_jobs; eauto.
  - discriminate.
Qed.

Lemma caller_jobs c c' pk t d d' :
  caller c pk t d = Next c' d' -> jobs_evolve d d'.
Proof.
  destruct c as [p | r]; [|discriminate].
  intros H. apply caller_run_next in H as [(r & _ & _ & ->) | (p' & Hp & _)].
  - apply jobs_evolve_refl.
  - eapply op_step_jobs; eauto.
Qed.

Lemma step_jobs a s : jobs_evolve (db s) (db (step a s)).
Proof.
  unfold_step. destruct (panicked s); [apply jobs_evolve_refl|].
  destruct a as [i pk | i pk | dt | ].
  - destruct (workers s !! i) as [w|]; [|apply jobs_evolve_refl].
    destruct (worker w pk (now s) (db s)) eqn:Hw; simpl;
      try apply jobs_evolve_refl.
    eapply worker_jobs; eauto.
  - destruct (callers s !! i) as [c|]; [|apply jobs_evolve_refl].
    destruct (caller c pk (now s) (db s)) eqn:Hc; simpl;
      try apply jobs_evolve_refl.
    eapply caller_jobs; eauto.
  - destruct (0 <=? dt); apply jobs_evolve_refl.
  - now apply jobs_evolve_same.
Qed.

Lemma step_workers_length a s :
  length (workers (step a s)) = length (workers s).
Proof.
  unfold_step. destruct (panicked s); [reflexivity|].
  destruct a as [i pk | i pk | dt | ]; simpl; auto.
  - destruct (workers s !! i) as [w|]; [|reflexivity].
    destruct (worker w pk (now s) (db s)); simpl; auto.
    apply length_insert.
  - destruct (callers s !! i) as [c|]; [|reflexivity].
    destruct (caller c pk (now s) (db s)); reflexivity.
  - destruct (0 <=? dt); reflexivity.
Qed.

Lemma run_app acts acts' s : run (acts ++ acts') s = run acts' (run acts s).
Proof. unfold_run. apply fold_left_app. Qed.

Lemma run_cons a acts s : run (a :: acts) s = run acts (step a s).
Proof. reflexivity. Qed.

Lemma run_jobs acts s : jobs_evolve (db s) (db (run acts s)).
Proof.
  revert s. induction acts as [|a acts IH]; intros s.
  - apply jobs_evolve_refl.
  - rewrite run_cons.
    destruct (step_jobs a s) as (H1 & H2 & H3).
    destruct (IH (step a s)) as (H4 & H5 & H6).
    unfold jobs_evolve. repeat split; auto. congruence.
Qed.

Lemma run_workers_length acts s :
  length (workers (run acts s)) = length (workers s).
Proof.
  revert s. induction acts as [|a acts IH]; intros s; [reflexivity|].
  rewrite run_cons, IH. apply step_workers_length.
Qed.

(** A worker holds at most one job. *)
Lemma held_length (ws : list (wstate job backend)) :
  (length (concat (map held ws)) <= length ws)%nat.
Proof.
  induction ws as [|w ws IH]; simpl; [lia|].
  rewrite length_app. destruct w; simpl; lia.
Qed.

(** The in-flight bound, for any pipeline started by [Open]'s tail: the
    queue holds at most [queueSize] jobs, the workers hold at most one job
    each. *)
Lemma in_flight_bound parent_done h queueSize nworkers cs acts :
  0 <= queueSize -> 0 <= nworkers ->
  let s := run acts (set_callers (start parent_done h queueSize nworkers) cs) in
  Chan.len (jobs (db s)) <= queueSize /\
  Z.of_nat (length (concat (map held (workers s)))) <= nworkers /\
  Z.of_nat (length (in_flight s)) <= queueSize + nworkers.
Proof.
  intros Hq Hn s. unfold in_flight. rewrite length_app.
  pose proof (run_jobs acts (set_callers (start parent_done h queueSize nworkers) cs))
    as (Hcap & Hw & _).
  pose proof (run_workers_length acts
                (set_callers (start parent_done h queueSize nworkers) cs)) as Hl.
  fold s in Hcap, Hw, Hl. simpl in Hcap, Hw, Hl.
  rewrite length_replicate in Hl.
  pose proof (held_length (workers s)) as Hh.
  assert (Chan.within_cap (jobs (db s))) as Hin.
  { apply Hw. unfold Chan.within_cap, Chan.len. simpl. lia. }
  unfold Chan.within_cap in Hin. rewrite Hcap in Hin.
  unfold Chan.len in *. lia.
Qed.

(** One move of a thread that exists, in a process that is alive. *)
Lemma step_worker s i w pk :
  panicked s = None -> workers s !! i = Some w ->
  step (AWorker i pk) s =
    match worker w pk (now s) (db s) with
    | Next w' d' => set_db (set_workers s (<[i:=w']> (workers s))) d'
    | Blocked => s
    | Panicked v => set_panicked s v
    end.
Proof. intros Hp Hw. unfold_step. now rewrite Hp, Hw. Qed.

Lemma step_caller s i c pk :
  panicked s = None -> callers s !! i = Some c ->
  step (ACaller i pk) s =
    match caller c pk (now s) (db s) with
    | Next c' d' => set_db (set_callers s (<[i:=c']> (callers s))) d'
    | Blocked => s
    | Panicked v => set_panicked s v
    end.
Proof. intros Hp Hc. unfold_step. now rewrite Hp, Hc. Qed.

Lemma step_panicked a s v : panicked s = Some v -> step a s = s.
Proof. intros Hp. unfold_step. now rewrite Hp. Qed.

(** Once closed, [db.jobs] stays closed. *)
Lemma closed_stable acts s :
  Chan.closed (jobs (db s)) = true ->
  Chan.closed (jobs (db (run acts s))) = true.
Proof. intros H. now apply (run_jobs acts s). Qed.

(** A caller inside [Close] stays inside [Close], and is past
    [close(db.jobs)] only if the channel is closed. *)
Lemma caller_in_Close c b pk t d c' d' :
  in_Close c b -> caller c pk t d = Next c' d' ->
  (b = true -> Chan.closed (jobs d) = true) ->
  exists b', in_Close c' b' /\ (b' = true -> Chan.closed (jobs d') = true).
Proof.
  intros Hin Hc Hb. inversion Hin; subst; simpl in Hc.
  - injection Hc as <- <-. exists false. split; [constructor|discriminate].
  - destruct (Chan.close (jobs d)) as [c1|] eqn:Hcl; [|discriminate].
    injection Hc as <- <-. exists true. split; [constructor|].
    intros _. simpl. now apply close_closed in Hcl.
  - destruct (wg d =? 0); [|discriminate].
    injection Hc as <- <-. exists true. split; [constructor|auto].
  - destruct (release (handle d)) as [e h].
    injection Hc as <- <-. exists true. split; [constructor|auto].
  - injection Hc as <- <-. exists true. split; [constructor|auto].
  - discriminate.
Qed.

Lemma step_closing i a s : closing i s -> closing i (step a s).
Proof.
  intros (c & b & Hc & Hin & Hb).
  destruct (panicked s) as [v|] eqn:Hp.
  { rewrite (step_panicked _ _ _ Hp). exists c, b. auto. }
  pose proof (step_jobs a s) as (_ & _ & Hst).
  destruct a as [k pk | k pk | dt | ].
  - exists c, b. repeat split; auto.
    destruct (workers s !! k) as [w|] eqn:Hw.
    + rewrite (step_worker _ _ _ _ Hp Hw).
      destruct (worker w pk (now s) (db s)); auto.
    + unfold_step. now rewrite Hp, Hw.
  - destruct (callers s !! k) as [ck|] eqn:Hk.
    2:{ exists c, b. unfold_step_everywhere. rewrite Hp, Hk in *. auto. }
    rewrite (step_caller _ _ _ _ Hp Hk) in *.
    destruct (caller ck pk (now s) (db s)) as [c' d'| |v] eqn:Hstep;
      try (exists c, b; auto; fail).
    destruct (decide (k = i)) as [->|Hne].
    + assert (ck = c) as -> by congruence.
      destruct (caller_in_Close _ _ _ _ _ _ _ Hin Hstep Hb) as (b' & Hin' & Hb').
      exists c', b'. simpl. split; [|auto].
      apply list_lookup_insert_eq. eapply lookup_lt_Some; eauto.
    + exists c, b. simpl in *. split; [|auto].
      now rewrite list_lookup_insert_ne.
  - exists c, b. unfold_step_everywhere. rewrite Hp in *.
    destruct (0 <=? dt); auto.
  - exists c, b. unfold_step_everywhere. rewrite Hp in *. auto.
Qed.

Lemma run_closing i acts s : closing i s -> closing i (run acts s).
Proof.
  revert s. induction acts as [|a acts IH]; intros s H; [exact H|].
  rewrite run_cons. apply IH. now apply step_closing.
Qed.

(** When a call of [Close] has returned, [db.jobs] is closed. *)
Lemma Close_returned_closed i acts s r :
  callers s !! i = Some (CRun Close) ->
  callers (run acts s) !! i = Some (CReturned r) ->
  Chan.closed (jobs (db (run acts s))) = true.
Proof.
  intros H0 H1.
  assert (closing i s) as Hc.
  { exists (CRun Close), false. split; [exact H0|]. split; [constructor|discriminate]. }
  apply (run_closing i acts) in Hc as (c & b & Hc & Hin & Hb).
  rewrite H1 in Hc. injection Hc as <-. inversion Hin; subst. now apply Hb.
Qed.

(** A blocking send on a closed channel ends the process. *)
Lemma send_closed_step s i j k pk :
  panicked s = None -> callers s !! i = Some (CRun (Send j k)) ->
  Chan.closed (jobs (db s)) = true ->
  step (ACaller i pk) s = set_panicked s "send on closed channel".
Proof.
  intros Hp Hc Hcl. rewrite (step_caller _ _ _ _ Hp Hc). simpl.
  now rewrite (send_closed_panics _ _ Hcl).
Qed.

(** A blocking send on a full, open channel leaves everything as it is:
    the sender keeps the value and stays at the send. *)
Lemma send_full_step s i j k pk :
  panicked s = None -> callers s !! i = Some (CRun (Send j k)) ->
  Chan.closed (jobs (db s)) = false -> Chan.full (jobs (db s)) = true ->
  step (ACaller i pk) s = s.
Proof.
  intros Hp Hc Hcl Hf. rewrite (step_caller _ _ _ _ Hp Hc). simpl.
  now rewrite (send_full_blocks _ _ Hcl Hf).
Qed.

(** A blocking send on an open channel with room appends the value. *)
Lemma send_room_step s i j k pk :
  panicked s = None -> callers s !! i = Some (CRun (Send j k)) ->
  Chan.closed (jobs (db s)) = false -> Chan.full (jobs (db s)) = false ->
  step (ACaller i pk) s =
    set_db (set_callers s (<[i:=CRun k]> (callers s)))
           (set_jobs (db s)
              {| Chan.buf := Chan.buf (jobs (db s)) ++ [j];
                 Chan.cap := Chan.cap (jobs (db s));
                 Chan.closed := Chan.closed (jobs (db s)) |}).
Proof.
  intros Hp Hc Hcl Hf. rewrite (step_caller _ _ _ _ Hp Hc). simpl.
  unfold Chan.send. now rewrite Hcl, Hf.
Qed.

(** The non-blocking send of a worker on a full, open channel: the
    worker goes on, nothing else changes. *)
Lemma try_send_full_step s i j0 j k pk :
  panicked s = None -> workers s !! i = Some (WRun j0 (TrySend j k)) ->
  Chan.closed (jobs (db s)) = false -> Chan.full (jobs (db s)) = true ->
  step (AWorker i pk) s =
    set_db (set_workers s (<[i:=WRun j0 k]> (workers s))) (db s).
Proof.
  intros Hp Hw Hcl Hf. rewrite (step_worker _ _ _ _ Hp Hw). simpl.
  now rewrite (send_full_blocks _ _ Hcl Hf).
Qed.

(** The same send on a closed channel ends the process. *)
Lemma try_send_closed_step s i j0 j k pk :
  panicked s = None -> workers s !! i = Some (WRun j0 (TrySend j k)) ->
  Chan.closed (jobs (db s)) = true ->
  step (AWorker i pk) s = set_panicked s "send on closed channel".
Proof.
  intros Hp Hw Hcl. rewrite (step_worker _ _ _ _ Hp Hw). simpl.
  now rewrite (send_closed_panics _ _ Hcl).
Qed.

(** A non-blocking send never leaves the worker where it was. *)
Lemma try_send_never_blocks j0 j k pk t d :
  worker (WRun j0 (TrySend j k)) pk t d <> Blocked.
Proof. simpl. destruct (Chan.send (jobs d) j); discriminate. Qed.

(** [Close] on a pipeline whose channel is already closed: [db.cancel()]
    goes through, [close(db.jobs)] panics, and the backend is not
    touched. *)
Lemma Close_closed_steps s i pk pk' :
  panicked s = None -> callers s !! i = Some (CRun Close) ->
  Chan.closed (jobs (db s)) = true ->
  let s' := step (ACaller i pk') (step (ACaller i pk) s) in
  panicked s' = Some "close of closed channel" /\
  handle (db s') = handle (db s).
Proof.
  intros Hp Hc Hcl. simpl.
  rewrite (step_caller _ _ _ _ Hp Hc). simpl.
  erewrite step_caller; [|exact Hp|].
  2:{ simpl. apply list_lookup_insert_eq. eapply lookup_lt_Some; eauto. }
  simpl. now rewrite (close_closed_panics _ Hcl).
Qed.

(** [submits] is what the machine does: a step of a program adds to the
    buffer at most one job, one that the program [submits], and the rest
    of the program submits nothing new. *)
Lemma op_step_submits {R} (p p' : prog job backend R) pk t d d' j :
  op_step p pk t d = Next p' d' -> submits p' j -> submits p j.
Proof.
  destruct p; simpl.
  - discriminate.
  - destruct (f (handle d)) as [[ | e | v] h]; intros [= <- <-] || discriminate;
      intros Hs; econstructor; eauto.
  - intros [= <- <-] Hs. econstructor; eauto.
  - destruct pk.
    + destruct (ctx_done d); intros [= <- <-] || discriminate.
      intros Hs; econstructor; eauto.
    + destruct (deadline <=? t); intros [= <- <-] || discriminate.
      intros Hs; econstructor; eauto.
  - intros [= <- <-] Hs. now constructor.
  - destruct (Chan.send (jobs d) j0); intros [= <- <-] || discriminate;
      intros Hs; now apply submits_after_try_send.
  - destruct (Chan.send (jobs d) j0); intros [= <- <-] || discriminate;
      intros Hs; now apply submits_after_send.
  - intros [= <- <-] Hs. now constructor.
  - destruct (Chan.close (jobs d)); intros [= <- <-] || discriminate.
    intros Hs. now constructor.
  - destruct (wg d =? 0); intros [= <- <-] || discriminate.
    intros Hs. now constructor.
  - destruct (release (handle d)) as [e h]. intros [= <- <-] Hs.
    econstructor; eauto.
Qed.

Lemma op_step_buf {R} (p p' : prog job backend R) pk t d d' :
  op_step p pk t d = Next p' d' ->
  Chan.buf (jobs d') = Chan.buf (jobs d) \/
  exists j, submits p j /\ Chan.buf (jobs d') = Chan.buf (jobs d) ++ [j].
Proof.
  destruct p; simpl.
  - discriminate.
  - destruct (f (handle d)) as [[ | e | v] h]; intros [= <- <-] || discriminate;
      now left.
  - intros [= <- <-]. now left.
  - destruct pk.
    + destruct (ctx_done d); intros [= <- <-] || discriminate. now left.
    + destruct (deadline <=? t); intros [= <- <-] || discriminate. now left.
  - intros [= <- <-]. now left.
  - destruct (Chan.send (jobs d) j) eqn:Hs; intros [= <- <-] || discriminate.
    + right. exists j. split; [constructor|].
      now apply send_sent in Hs.
    + now left.
  - destruct (Chan.send (jobs d) j) eqn:Hs; intros [= <- <-] || discriminate.
    right. exists j. split; [constructor|].
    now apply send_sent in Hs.
  - intros [= <- <-]. now left.
  - destruct (Chan.close (jobs d)) eqn:Hs; intros [= <- <-] || discriminate.
    left. simpl. now apply close_closed in Hs.
  - destruct (wg d =? 0); intros [= <- <-] || discriminate. now left.
  - destruct (release (handle d)) as [e h]. intros [= <- <-]. now left.
Qed.

Section JobsIn.
Variable P : job -> Prop.
Hypothesis retry_in : forall j j', P j -> submits (execWithRetry j) j' -> P j'.

Lemma op_step_jobs_in {R} (p p' : prog job backend R) pk t d d' :
  op_step p pk t d = Next p' d' ->
  (forall j, submits p j -> P j) ->
  Forall P (Chan.buf (jobs d)) ->
  Forall P (Chan.buf (jobs d')) /\ (forall j, submits p' j -> P j).
Proof.
  intros Hstep Hp Hb. split.
  - destruct (op_step_buf _ _ _ _ _ _ Hstep) as [-> | (j & Hj & ->)]; auto.
    apply Forall_app. split; auto.
  - intros j Hj. apply Hp. eapply op_step_submits; eauto.
Qed.

Lemma step_jobs_in a s : jobs_in P s -> jobs_in P (step a s).
Proof.
  intros (Hb & Hw & Hc).
  destruct (panicked s) as [v|] eqn:Hp.
  { rewrite (step_panicked _ _ _ Hp). now repeat split. }
  destruct a as [i pk | i pk | dt | ].
  - destruct (workers s !! i) as [w|] eqn:Hi.
    2:{ unfold_step. rewrite Hp, Hi. now repeat split. }
    rewrite (step_worker _ _ _ _ Hp Hi).
    pose proof (proj1 (Forall_lookup _ _) Hw _ _ Hi) as Hwi.
    destruct (worker w pk (now s) (db s)) as [w' d'| |v] eqn:Hstep;
      [|now repeat split..].
    assert (Forall P (Chan.buf (jobs d')) /\ worker_jobs_in P w') as [Hb' Hw'].
    { destruct w as [ | j p | ].
      - simpl in Hstep. destruct pk.
        + destruct (ctx_done (db s)); [|discriminate].
          injection Hstep as <- <-. now split.
        + destruct (Chan.recv (jobs (db s))) as [j c| |] eqn:Hr;
            [| |discriminate]; injection Hstep as <- <-.
          * apply recv_received in Hr as (Hbuf & _).
            rewrite Hbuf in Hb. apply Forall_cons in Hb as [Hj Hrest].
            simpl. repeat split; eauto.
          * now split.
      - destruct Hwi as [Hj Hsub].
        apply worker_run_next in Hstep
          as [(r & _ & -> & ->) | (p' & Hstep & ->)]; [now split|].
        destruct (op_step_jobs_in _ _ _ _ _ _ Hstep Hsub Hb). now repeat split.
      - discriminate. }
    repeat split; simpl; auto. now apply Forall_insert.
  - destruct (callers s !! i) as [c|] eqn:Hi.
    2:{ unfold_step. rewrite Hp, Hi. now repeat split. }
    rewrite (step_caller _ _ _ _ Hp Hi).
    pose proof (proj1 (Forall_lookup _ _) Hc _ _ Hi) as Hci.
    destruct (caller c pk (now s) (db s)) as [c' d'| |v] eqn:Hstep;
      [|now repeat split..].
    assert (Forall P (Chan.buf (jobs d')) /\ caller_jobs_in P c') as [Hb' Hc'].
    { destruct c as [p | r]; [|discriminate].
      apply caller_run_next in Hstep
        as [(r & _ & -> & ->) | (p' & Hstep & ->)]; [now split|].
      destruct (op_step_jobs_in _ _ _ _ _ _ Hstep Hci Hb). now split. }
    repeat split; simpl; auto. now apply Forall_insert.
  - unfold_step. rewrite Hp. destruct (0 <=? dt); now repeat split.
  - unfold_step. rewrite Hp. now repeat split.
Qed.

Lemma run_jobs_in acts s : jobs_in P s -> jobs_in P (run acts s).
Proof.
  revert s. induction acts as [|a acts IH]; intros s H; [exact H|].
  rewrite run_cons. apply IH. now apply step_jobs_in.
Qed.

Lemma jobs_in_in_flight s : jobs_in P s -> Forall P (in_flight s).
Proof.
  intros (Hb & Hw & _). unfold in_flight. apply Forall_app. split; auto.
  apply Forall_concat, Forall_fmap. eapply Forall_impl; eauto.
  intros [ | j p | ]; simpl; auto. intros [Hj _]. now constructor.
Qed.

Lemma start_jobs_in parent_done h queueSize nworkers
    (cs : list (cstate job backend)) :
  Forall (caller_jobs_in P) cs ->
  jobs_in P (set_callers (start parent_done h queueSize nworkers) cs).
Proof.
  intros Hc. repeat split; simpl; auto.
  apply Forall_replicate. exact I.
Qed.
End JobsIn.
(** A worker at its [select] may leave as soon as the context is done,
    whatever is in the queue. *)
Lemma worker_leaves_when_done s i :
  panicked s = None -> workers s !! i = Some WSelect ->
  ctx_done (db s) = true ->
  let s' := step (AWorker i PickDone) s in
  workers s' !! i = Some WReturned /\ jobs (db s') = jobs (db s).
Proof.
  intros Hp Hw Hd. simpl. rewrite (step_worker _ _ _ _ Hp Hw). simpl.
  rewrite Hd. simpl. split; [|reflexivity].
  apply list_lookup_insert_eq. eapply lookup_lt_Some; eauto.
Qed.

(** A process that has panicked does nothing more. *)
Lemma run_panicked acts s v : panicked s = Some v -> run acts s = s.
Proof.
  intros Hp. induction acts as [|a acts IH]; [reflexivity|].
  rewrite run_cons, (step_panicked _ _ _ Hp). exact IH.
Qed.
End PipelineFacts.

(** ** The retry step of both packages *)

Lemma wrap64_id z : int64 z -> wrap64 z = z.
Proof.
  unfold int64, wrap64. intros H.
  rewrite Z.mod_small; lia.
Qed.

Lemma tries_incr z : int64 z -> z < 5 -> wrap64 (z + 1) = z + 1.
Proof. unfold int64. intros H1 H2. apply wrap64_id. unfold int64. lia. Qed.

(** The wait that [execWithRetry] computes, for the counters it can see. *)
Lemma wait_value n :
  0 <= n < 5 ->
  wrap64 (wrap64 (pow2_duration n * 100) * Millisecond) = backoffBase * 2 ^ n.
Proof.
  intros H. unfold pow2_duration.
  destruct (Z.ltb_spec n 0) as [Hn|Hn]; [lia|].
  assert (n = 0 \/ n = 1 \/ n = 2 \/ n = 3 \/ n = 4) as Hc by lia.
  destruct Hc as [-> | [-> | [-> | [-> | ->]]]]; reflexivity.
Qed.

Section RetryFacts.
Import xsqlite.

Lemma xsqlite_submits_inv (j j' : job) :
  submits (execWithRetry j) j' ->
  tries j < 5 /\
  j' = {| query := query j; args := args j; tries := wrap64 (tries j + 1) |}.
Proof.
  unfold execWithRetry, execOnce. intros H.
  inversion H as [ | | f k e j0 He | | | | | | | | | ]; subst; clear H.
  simpl in He. destruct e as [e|]; [|inversion He].
  destruct (tries j <? 5) eqn:Hlt; [|inversion He].
  apply Z.ltb_lt in Hlt. split; [exact Hlt|].
  inversion He as [ | | | w k t j0 Ht | | | | | | | | ]; subst; clear He.
  inversion Ht as [ | | | | t0 k c j0 Hc | | | | | | | ]; subst; clear Ht.
  destruct c; simpl in Hc.
  - inversion Hc as [ | | | | | k j0 Hk | | | | | | ]; subst. inversion Hk.
  - inversion Hc as [ | | | | | | j1 k j0 Hk | | | | | ]; subst;
      [reflexivity|inversion Hk].
Qed.
End RetryFacts.

Section RedisRetryFacts.
Import xredis.

Lemma xredis_submits_inv (j j' : job) :
  submits (execWithRetry j) j' ->
  tries j < 5 /\ j' = {| fn := fn j; tries := wrap64 (tries j + 1) |}.
Proof.
  unfold execWithRetry. intros H.
  inversion H as [ | | f k e j0 He | | | | | | | | | ]; subst; clear H.
  simpl in He. destruct e as [e|]; [|inversion He].
  destruct (tries j <? 5) eqn:Hlt; [|inversion He].
  apply Z.ltb_lt in Hlt. split; [exact Hlt|].
  inversion He as [ | | | w k t j0 Ht | | | | | | | | ]; subst; clear He.
  inversion Ht as [ | | | | t0 k c j0 Hc | | | | | | | ]; subst; clear Ht.
  destruct c; simpl in Hc.
  - inversion Hc as [ | | | | | k j0 Hk | | | | | | ]; subst. inversion Hk.
  - inversion Hc as [ | | | | | | j1 k j0 Hk | | | | | ]; subst;
      [reflexivity|inversion Hk].
Qed.
End RedisRetryFacts.

(** ** The timer of xsqlite's retry *)

Section BackoffFacts.
Import xsqlite.
Implicit Types (s : system job sqlDB) (j : job).

Lemma after_failure j e :
  tries j < 5 -> after_exec (execWithRetry j) (Some e) = on_failure j e.
Proof.
  intros H. simpl. destruct (Z.ltb_spec (tries j) 5); [reflexivity|lia].
Qed.

Lemma after_last_failure j e :
  5 <= tries j -> after_exec (execWithRetry j) (Some e) = Return (Some e).
Proof.
  intros H. simpl. destruct (Z.ltb_spec (tries j) 5); [lia|reflexivity].
Qed.

Lemma waited_later t0 t t' w : t <= t' -> waited t0 t w -> waited t0 t' w.
Proof.
  intros Ht H. destruct H; try (constructor; lia); constructor; assumption.
Qed.

Lemma worker_waited_step t0 t w w' pk d d' :
  t0 <= t -> waited t0 t w ->
  worker w pk t d = Next w' d' -> waited t0 t w'.
Proof.
  intros Ht Hw. destruct Hw as [ | | j | j e | j e dl Hdl | j e Hfired | j e | j r ];
    unfold worker; simpl.
  - destruct pk.
    + destruct (ctx_done d); intros [= <- <-] || discriminate. constructor.
    + destruct (Chan.recv (jobs d)); intros [= <- <-] || discriminate;
        constructor.
  - discriminate.
  - destruct (driver (handle d) _ _ _ _) as [ | e | v];
      intros [= <- <-] || discriminate.
    + apply waited_done.
    + destruct (Z.ltb_spec (tries j) 5).
      * apply (waited_failed t0 t j e).
      * apply waited_done.
  - intros [= <- <-]. apply (waited_armed t0 t j e). lia.
  - destruct pk.
    + destruct (ctx_done d); intros [= <- <-] || discriminate.
      apply (waited_cancelled t0 t j e).
    + destruct (Z.leb_spec dl t); intros [= <- <-] || discriminate.
      apply (waited_fired t0 t j e). lia.
  - destruct (Chan.send (jobs d) (retried j));
      intros [= <- <-] || discriminate; apply waited_done.
  - intros [= <- <-]. apply waited_done.
  - intros [= <- <-]. constructor.
Qed.

Lemma step_worker_waited i t0 a s :
  worker_waited i t0 s -> worker_waited i t0 (step a s).
Proof.
  intros (Ht & w & Hi & Hw).
  destruct (panicked s) as [v|] eqn:Hp.
  { unfold step. rewrite (step_panicked _ _ _ _ _ Hp). split; eauto. }
  destruct a as [k pk | k pk | dt | ].
  - destruct (workers s !! k) as [wk|] eqn:Hk.
    2:{ unfold step; unfold_step. rewrite Hp, Hk. split; eauto. }
    unfold step. rewrite (step_worker _ _ _ _ _ _ Hp Hk).
    match goal with
    | |- context [match ?x with Next _ _ => _ | _ => _ end] =>
        destruct x as [w' d'| |v] eqn:Hstep
    end; try (split; eauto; fail).
    split; [exact Ht|]. simpl.
    destruct (decide (k = i)) as [->|Hne].
    + assert (wk = w) as -> by congruence.
      exists w'. split.
      * apply list_lookup_insert_eq. eapply lookup_lt_Some; eauto.
      * eapply worker_waited_step; eauto.
    + exists w. split; [|exact Hw]. now rewrite list_lookup_insert_ne.
  - destruct (callers s !! k) as [ck|] eqn:Hk.
    2:{ unfold step; unfold_step. rewrite Hp, Hk. split; eauto. }
    unfold step. rewrite (step_caller _ _ _ _ _ _ Hp Hk).
    destruct (caller sqlClose ck pk (now s) (db s)); split; eauto.
  - unfold step; unfold_step. rewrite Hp.
    destruct (Z.leb_spec 0 dt); [|split; eauto].
    split; simpl; [lia|]. exists w. split; [exact Hi|].
    eapply waited_later; [|exact Hw]. lia.
  - unfold step; unfold_step. rewrite Hp. split; eauto.
Qed.

Lemma run_worker_waited i t0 acts s :
  worker_waited i t0 s -> worker_waited i t0 (run acts s).
Proof.
  revert s. induction acts as [|a acts IH]; intros s H; [exact H|].
  unfold run in *. rewrite run_cons. apply IH. now apply step_worker_waited.
Qed.

(** From the moment a worker is about to run a job to the moment it is
    about to offer that job again, at least the wait computed from the
    job's counter passes. *)
Lemma resubmission_waits s acts i j j' k :
  workers s !! i = Some (WRun j (execWithRetry j)) ->
  workers (run acts s) !! i = Some (WRun j (TrySend j' k)) ->
  now s + retry_wait j <= now (run acts s).
Proof.
  intros H0 H1.
  assert (worker_waited i (now s) s) as Hinv.
  { split; [lia|]. exists (WRun j (execWithRetry j)). split; [exact H0|].
    constructor. }
  apply (run_worker_waited i (now s) acts) in Hinv as (_ & w & Hw & Hwaited).
  rewrite H1 in Hw. injection Hw as <-.
  inversion Hwaited; subst; try discriminate.
  assumption.
Qed.
(** *** No attempt before its time *)

Lemma backoff_before_next n :
  0 <= n -> backoff_before (n + 1) = backoff_before n + backoffBase * 2 ^ n.
Proof.
  intros Hn. unfold backoff_before. rewrite Z.pow_add_r by lia. lia.
Qed.

Lemma retry_wait_value j :
  0 <= tries j < 5 -> retry_wait j = backoffBase * 2 ^ tries j.
Proof. apply wait_value. Qed.

Lemma paced_job_later t0 t t' j : t <= t' -> paced_job t0 t j -> paced_job t0 t' j.
Proof. unfold paced_job. lia. Qed.

Lemma paced_worker_later t0 t t' w :
  t <= t' -> paced_worker t0 t w -> paced_worker t0 t' w.
Proof.
  intros Ht. destruct w as [ | j p | ]; simpl; auto.
  intros [Hj Hp]. split; [eapply paced_job_later; eauto|].
  destruct Hp; try (constructor; lia); constructor; assumption.
Qed.

Lemma paced_job_retried t0 t j :
  paced_job t0 t j -> tries j < 5 ->
  t0 + backoff_before (tries j + 1) <= t ->
  paced_job t0 t (retried j).
Proof.
  intros [Hr _] Hlt Ht. unfold paced_job, retried. simpl.
  rewrite tries_incr; unfold int64; lia.
Qed.

(** One move of a worker that runs a paced job. *)
Lemma paced_worker_step t0 t j p pk d w' d' :
  t0 <= t -> paced_job t0 t j -> paced_stage t0 t j p ->
  Forall (paced_job t0 t) (Chan.buf (jobs d)) ->
  worker (WRun j p) pk t d = Next w' d' ->
  paced_worker t0 t w' /\ Forall (paced_job t0 t) (Chan.buf (jobs d')).
Proof.
  intros Ht Hj Hp Hb.
  destruct Hp as [ | e Hlt | e dl Hlt Hdl | e Hlt Hfired | e | r ];
    unfold worker; simpl.
  - destruct (driver (handle d) _ _ _ _) as [ | e | v];
      intros [= <- <-] || discriminate; simpl; (split; [split; [exact Hj|]|exact Hb]).
    + apply paced_done.
    + destruct (Z.ltb_spec (tries j) 5).
      * now apply (paced_failed t0 t j e).
      * apply paced_done.
  - intros [= <- <-]. split; [|exact Hb]. split; [exact Hj|].
    apply (paced_armed t0 t j e); [exact Hlt|].
    destruct Hj as [Hr Hj]. rewrite backoff_before_next by lia.
    rewrite retry_wait_value by lia. lia.
  - destruct pk.
    + destruct (ctx_done d); intros [= <- <-] || discriminate.
      split; [|exact Hb]. split; [exact Hj|]. apply (paced_cancelled t0 t j e).
    + destruct (Z.leb_spec dl t); intros [= <- <-] || discriminate.
      split; [|exact Hb]. split; [exact Hj|].
      apply (paced_fired t0 t j e); [exact Hlt|lia].
  - destruct (Chan.send (jobs d) (retried j)) as [c| |] eqn:Hs;
      intros [= <- <-] || discriminate; simpl.
    + split; [split; [exact Hj|apply paced_done]|].
      apply send_sent in Hs as (_ & _ & -> & _).
      apply Forall_app. split; [exact Hb|].
      constructor; [|constructor]. now apply paced_job_retried.
    + split; [split; [exact Hj|apply paced_done]|exact Hb].
  - intros [= <- <-]. split; [split; [exact Hj|apply paced_done]|exact Hb].
  - intros [= <- <-]. split; [exact I|exact Hb].
Qed.

Lemma step_paced t0 a s : paced t0 s -> paced t0 (step a s).
Proof.
  intros (Ht & Hb & Hw & Hc).
  destruct (panicked s) as [v|] eqn:Hp.
  { unfold step. rewrite (step_panicked _ _ _ _ _ Hp). now repeat split. }
  destruct a as [i pk | i pk | dt | ].
  - destruct (workers s !! i) as [w|] eqn:Hi.
    2:{ unfold step; unfold_step. rewrite Hp, Hi. now repeat split. }
    unfold step. rewrite (step_worker _ _ _ _ _ _ Hp Hi).
    pose proof (proj1 (Forall_lookup _ _) Hw _ _ Hi) as Hwi.
    match goal with
    | |- context [match ?x with Next _ _ => _ | _ => _ end] =>
        destruct x as [w' d'| |v] eqn:Hstep
    end; [|now repeat split..].
    assert (paced_worker t0 (now s) w' /\
            Forall (paced_job t0 (now s)) (Chan.buf (jobs d'))) as [Hw' Hb'].
    { destruct w as [ | j p | ].
      - simpl in Hstep. destruct pk.
        + destruct (ctx_done (db s)); [|discriminate].
          injection Hstep as <- <-. now split.
        + destruct (Chan.recv (jobs (db s))) as [j c| |] eqn:Hr;
            [| |discriminate]; injection Hstep as <- <-.
          * apply recv_received in Hr as (Hbuf & _).
            rewrite Hbuf in Hb. apply Forall_cons in Hb as [Hj Hrest].
            simpl. repeat split; try apply Hj; auto. apply paced_start.
          * now split.
      - destruct Hwi as [Hj Hstage].
        eapply paced_worker_step; eauto.
      - discriminate. }
    repeat split; simpl; auto. now apply Forall_insert.
  - destruct (callers s !! i) as [c|] eqn:Hi.
    2:{ unfold step; unfold_step. rewrite Hp, Hi. now repeat split. }
    unfold step. rewrite (step_caller _ _ _ _ _ _ Hp Hi).
    pose proof (proj1 (Forall_lookup _ _) Hc _ _ Hi) as Hci.
    match goal with
    | |- context [match ?x with Next _ _ => _ | _ => _ end] =>
        destruct x as [c' d'| |v] eqn:Hstep
    end; [|now repeat split..].
    assert (Forall (paced_job t0 (now s)) (Chan.buf (jobs d')) /\
            caller_jobs_in (fun j => tries j = 0) c') as [Hb' Hc'].
    { destruct c as [p | r]; [|discriminate].
      apply caller_run_next in Hstep
        as [(r & _ & -> & ->) | (p' & Hstep & ->)]; [now split|].
      split.
      - destruct (op_step_buf _ _ _ _ _ _ _ Hstep) as [-> | (j & Hj & ->)]; auto.
        apply Forall_app. split; auto. constructor; [|constructor].
        unfold paced_job, backoff_before. rewrite (Hci j Hj). simpl. lia.
      - intros j Hj. apply Hci. eapply op_step_submits; eauto. }
    repeat split; simpl; auto. now apply Forall_insert.
  - unfold step; unfold_step. rewrite Hp.
    destruct (Z.leb_spec 0 dt); [|now repeat split].
    repeat split; simpl; auto; [lia| |].
    + eapply Forall_impl; [exact Hb|]. intros j. apply paced_job_later. lia.
    + eapply Forall_impl; [exact Hw|]. intros w. apply paced_worker_later. lia.
  - unfold step; unfold_step. rewrite Hp. now repeat split.
Qed.

Lemma run_paced t0 acts s : paced t0 s -> paced t0 (run acts s).
Proof.
  revert s. induction acts as [|a acts IH]; intros s H; [exact H|].
  unfold run in *. rewrite run_cons. apply IH. now apply step_paced.
Qed.

(** In a pipeline of xsqlite that starts at time 0 and whose callers only
    offer jobs with counter 0, a job with counter [n] is never in the queue
    or in the hands of a worker before the waits of attempts 0 to [n-1]
    have passed. *)
Lemma attempt_not_before parent_done h queueSize nworkers
    (cs : list (cstate job sqlDB)) acts :
  Forall (caller_jobs_in (fun j => tries j = 0)) cs ->
  let s := run acts (set_callers (start parent_done h queueSize nworkers) cs) in
  Forall (fun j => 0 <= tries j <= 5 /\ backoff_before (tries j) <= now s)
    (in_flight s).
Proof.
  intros Hcs s.
  assert (paced 0 s) as (_ & Hb & Hw & _).
  { apply run_paced. repeat split; simpl; auto; [lia|].
    apply Forall_replicate. exact I. }
  unfold in_flight. apply Forall_app. split.
  - eapply Forall_impl; [exact Hb|]. unfold paced_job. intros j. lia.
  - apply Forall_concat, Forall_fmap. eapply Forall_impl; [exact Hw|].
    intros [ | j p | ]; simpl; auto. intros [Hj _]. constructor; [|constructor].
    unfold paced_job in Hj. lia.
Qed.
End BackoffFacts.

(** ** Shutdown *)

(** The one-shot gate of [logger.Close]: a second call changes nothing and
    the writer is closed once. *)
Lemma logger_Close_twice (l l' : logger.Logger) :
  logger.Close l = Some l' ->
  logger.Close l' = Some l' /\
  (logger.done l = false ->
   logger.writer_closes l' = S (logger.writer_closes l)).
Proof.
  unfold logger.Close. destruct (logger.done l) eqn:Hd.
  - intros [= <-]. rewrite Hd. split; [reflexivity|discriminate].
  - destruct (Chan.close (logger.logChan l)); [|discriminate].
    intros [= <-]. simpl. auto.
Qed.

(** C1 (fails on the code).  [Close] is not idempotent in xsqlite and
    xredis: once a first [Close] has closed [db.jobs], a second call
    panics at [close(db.jobs)] with "close of closed channel".  Called one
    after the other, the first call returns and releases the backend, the
    second one ends the process; called at the same time, the process ends
    before either call returns or releases the backend. *)
Theorem Close_twice_panics :
  (exists s, Runs.boot Runs.ok 1 2 [Runs.close_twice] = Some s /\
     let s' := xsqlite.run (Runs.sequential_close 1) s in
     panicked s' = Some "close of closed channel" /\
     xsqlite.closes (handle (db s')) = 1%nat) /\
  (exists s, Runs.boot Runs.ok 1 2 [xsqlite.Close; xsqlite.Close] = Some s /\
     let s' := xsqlite.run Runs.concurrent_close s in
     panicked s' = Some "close of closed channel" /\
     xsqlite.closes (handle (db s')) = 0%nat) /\
  (exists s, Runs.redis_boot [Runs.redis_close_twice] = Some s /\
     let s' := xredis.run (Runs.sequential_close 2) s in
     panicked s' = Some "close of closed channel" /\
     xredis.closes (handle (db s')) = 1%nat) /\
  (exists s, Runs.redis_boot [xredis.Close; xredis.Close] = Some s /\
     let s' := xredis.run Runs.concurrent_close s in
     panicked s' = Some "close of closed channel" /\
     xredis.closes (handle (db s')) = 0%nat).
Proof.
  repeat split; eexists; (split; [reflexivity|]); vm_compute; auto.
Qed.

(** C2.  Once a call of [Close] has returned, whatever happens next, a
    goroutine that calls [Enqueue] does not get its job into the queue: the
    send panics with "send on closed channel" and the queue is as it
    was. *)
Theorem Enqueue_after_Close_panics
    (s : system xsqlite.job xsqlite.sqlDB) (closer : nat) (r : option error)
    (acts acts' : list action) (i : nat) (query : string)
    (args : list xsqlite.any)
    (rest : prog xsqlite.job xsqlite.sqlDB (option error)) (pk : pick) :
  callers s !! closer = Some (CRun xsqlite.Close) ->
  callers (xsqlite.run acts s) !! closer = Some (CReturned r) ->
  let s1 := xsqlite.run acts' (xsqlite.run acts s) in
  panicked s1 = None ->
  callers s1 !! i = Some (CRun (xsqlite.Enqueue query args ;; rest)) ->
  let s2 := xsqlite.step (ACaller i pk) s1 in
  panicked s2 = Some "send on closed channel" /\
  jobs (db s2) = jobs (db s1) /\
  callers s2 !! i = Some (CRun (xsqlite.Enqueue query args ;; rest)).
Proof.
  intros H0 Hret s1 Hp Hi s2.
  assert (Chan.closed (jobs (db s1)) = true) as Hcl.
  { apply closed_stable. eapply Close_returned_closed; eauto. }
  unfold s2, xsqlite.step.
  rewrite (send_closed_step _ _ s1 i _ rest pk Hp Hi Hcl).
  simpl. auto.
Qed.

Lemma Enqueue_after_Close_panics_witness :
  let s := set_callers (start false (Runs.sqldb Runs.ok) 2 1)
             [CRun xsqlite.Close; CRun Runs.enqueue_one] in
  let acts := [ACaller 0 PickOther; ACaller 0 PickOther; AWorker 0 PickDone;
               ACaller 0 PickOther; ACaller 0 PickOther; ACaller 0 PickOther] in
  let s1 := xsqlite.run [] (xsqlite.run acts s) in
  let s2 := xsqlite.step (ACaller 1 PickOther) s1 in
  Runs.boot Runs.ok 1 2 [xsqlite.Close; Runs.enqueue_one] = Some s /\
  callers (xsqlite.run acts s) !! 0%nat = Some (CReturned None) /\
  panicked s2 = Some "send on closed channel" /\
  jobs (db s2) = jobs (db s1) /\
  callers s2 !! 1%nat = Some (CRun Runs.enqueue_one).
Proof.
  intros s acts s1 s2.
  split; [reflexivity|]. split; [reflexivity|].
  exact (Enqueue_after_Close_panics s 0 None acts [] 1 Runs.insert
           [xsqlite.Str "INFO"; xsqlite.Str "hello"] (mret None) PickOther
           eq_refl eq_refl eq_refl eq_refl).
Defined.

(** The same for the goroutine that called [Close] itself. *)
Example Enqueue_after_own_Close :
  exists s, Runs.boot Runs.ok 1 2 [Runs.close_then_enqueue] = Some s /\
    let closed := xsqlite.run
                    [ACaller 0 PickOther; ACaller 0 PickOther; AWorker 0 PickDone;
                     ACaller 0 PickOther; ACaller 0 PickOther] s in
    let s' := xsqlite.step (ACaller 0 PickOther) closed in
    xsqlite.closes (handle (db closed)) = 1%nat /\
    panicked closed = None /\
    panicked s' = Some "send on closed channel" /\
    Chan.buf (jobs (db s')) = [].
Proof.
  eexists. split; [reflexivity|]. vm_compute. repeat split; reflexivity.
Qed.

(** C3 (fails on the code).  [Close] does not wait for the queued jobs:
    it cancels the context before it closes the channel, and a worker
    whose [select] finds [<-db.ctx.Done()] ready returns without looking at
    the queue.  Here four workers and a queue of ten hold three jobs that
    would all succeed; [Close] returns nil, every worker has returned, no
    statement has reached the database and the three jobs are still in the
    closed channel. *)
Theorem Close_abandons_queued_jobs :
  exists s, Runs.boot Runs.ok 4 10 [Runs.burst_then_close] = Some s /\
    let s' := xsqlite.run (Runs.close_wins 4) s in
    callers s' = [CReturned None] /\
    workers s' = [WReturned; WReturned; WReturned; WReturned] /\
    xsqlite.calls (handle (db s')) = [] /\
    length (Chan.buf (jobs (db s'))) = 3%nat /\
    xsqlite.closes (handle (db s')) = 1%nat /\
    panicked s' = None.
Proof.
  eexists. split; [reflexivity|]. vm_compute. repeat split; reflexivity.
Qed.

(** ** Panics *)

(** A panic of the closure leaves [execWithRetry] and [worker], which
    recover nothing, and ends the process. *)
Lemma xredis_panic_escapes (s : system xredis.job xredis.Client) i j pk v h :
  panicked s = None ->
  workers s !! i = Some (WRun j (xredis.execWithRetry j)) ->
  xredis.fn j (handle (db s)) = (Panic v, h) ->
  xredis.step (AWorker i pk) s = set_panicked s v.
Proof.
  intros Hp Hw Hf. unfold xredis.step.
  rewrite (step_worker _ _ _ _ _ _ Hp Hw). simpl. now rewrite Hf.
Qed.

(** [SafeGo] lets no panic out of the goroutine it starts, and writes one
    log line for the panic it recovers. *)
Lemma SafeGo_recovers (fn : concurrency.thunk) wg logs :
  snd (concurrency.SafeGo fn wg logs) = None /\
  forall v, fn tt = Some v ->
    fst (fst (concurrency.SafeGo fn wg logs))
      = logs ++ ["[SafeGo] panic recovered: " +:+ v] /\
    concurrency.Go fn = Some v.
Proof.
  unfold concurrency.SafeGo, concurrency.Go, concurrency.recover.
  split; [reflexivity|]. intros v ->. simpl. auto.
Qed.

(** C4 (fails on the code).  The workers of xredis are started with a
    bare [go] and neither [worker] nor [execWithRetry] recovers: a job whose
    closure panics is not retried, and the panic ends the process, after
    which no worker moves again. *)
Theorem panic_in_job_ends_process :
  exists s, Runs.redis_boot [Runs.redis_enqueue_panicking] = Some s /\
    let s' := xredis.run
                [ACaller 0 PickOther; AWorker 0 PickOther; AWorker 0 PickOther] s in
    panicked s' =
      Some "runtime error: invalid memory address or nil pointer dereference" /\
    Chan.buf (jobs (db s')) = [] /\
    forall acts, xredis.run acts s' = s'.
Proof.
  eexists. split; [reflexivity|]. cbv zeta.
  split; [reflexivity|]. split; [reflexivity|].
  intros acts. eapply run_panicked. reflexivity.
Qed.

(** ** Retries *)

(** C5.  In both packages a job that [execWithRetry] offers to the queue
    again carries the counter of the job it ran plus one, and this happens
    only while that counter is below [maxAttempts], so the new counter
    never exceeds it; when a job whose counter has reached [maxAttempts]
    fails, [execWithRetry] returns the error at once, with no timer and no
    send. *)
Theorem retry_counter :
  (forall j j' : xsqlite.job,
     int64 (xsqlite.tries j) -> submits (xsqlite.execWithRetry j) j' ->
     xsqlite.tries j' = xsqlite.tries j + 1 /\
     xsqlite.tries j' <= maxAttempts) /\
  (forall (j : xsqlite.job) (e : error),
     maxAttempts <= xsqlite.tries j ->
     after_exec (xsqlite.execWithRetry j) (Some e) = Return (Some e)) /\
  (forall j j' : xredis.job,
     int64 (xredis.tries j) -> submits (xredis.execWithRetry j) j' ->
     xredis.tries j' = xredis.tries j + 1 /\
     xredis.tries j' <= maxAttempts) /\
  (forall (j : xredis.job) (e : error),
     maxAttempts <= xredis.tries j ->
     after_exec (xredis.execWithRetry j) (Some e) = Return (Some e)).
Proof.
  unfold maxAttempts.
  split; [|split; [|split]].
  - intros j j' Hint Hs. apply xsqlite_submits_inv in Hs as [Hlt ->]. simpl.
    rewrite tries_incr by assumption. lia.
  - intros j e Hge. now apply after_last_failure.
  - intros j j' Hint Hs. apply xredis_submits_inv in Hs as [Hlt ->]. simpl.
    rewrite tries_incr by assumption. lia.
  - intros j e Hge. simpl.
    destruct (Z.ltb_spec (xredis.tries j) 5); [lia|reflexivity].
Qed.

Lemma retry_counter_witness :
  let j := {| xsqlite.query := Runs.insert; xsqlite.args := [];
              xsqlite.tries := 4 |} in
  let j' := {| xsqlite.query := Runs.insert; xsqlite.args := [];
               xsqlite.tries := 5 |} in
  let f := {| xredis.fn := Runs.read_only; xredis.tries := 0 |} in
  let f' := {| xredis.fn := Runs.read_only; xredis.tries := 1 |} in
  let last := {| xredis.fn := Runs.nil_deref; xredis.tries := 5 |} in
  (xsqlite.tries j' = xsqlite.tries j + 1 /\ xsqlite.tries j' <= maxAttempts) /\
  after_exec (xsqlite.execWithRetry j') (Some "disk I/O error")
    = Return (Some "disk I/O error") /\
  (xredis.tries f' = xredis.tries f + 1 /\ xredis.tries f' <= maxAttempts) /\
  after_exec (xredis.execWithRetry last) (Some "READONLY")
    = Return (Some "READONLY").
Proof.
  intros j j' f f' last.
  destruct retry_counter as (Hsql & Hsql_last & Hredis & Hredis_last).
  split; [|split; [|split]].
  - apply (Hsql j j').
    + unfold int64. simpl. lia.
    + apply submits_exec with (e := Some "disk I/O error"). simpl.
      apply submits_new_timer with (t := 0).
      apply submits_select with (c := TimerC).
      apply submits_try_send.
  - apply (Hsql_last j' "disk I/O error"). unfold maxAttempts. simpl. lia.
  - apply (Hredis f f').
    + unfold int64. simpl. lia.
    + apply submits_exec with (e := Some "READONLY"). simpl.
      apply submits_new_timer with (t := 0).
      apply submits_select with (c := TimerC).
      apply submits_try_send.
  - apply (Hredis_last last "READONLY"). unfold maxAttempts. simpl. lia.
Defined.

(** In every state that the pipeline of xsqlite can reach when its callers
    only offer jobs with counter 0 (as [Enqueue] does), every job in the
    queue or in the hands of a worker has a counter from 0 to
    [maxAttempts]. *)
Lemma tries_bounded_in_flight parent_done h queueSize nworkers
    (cs : list (cstate xsqlite.job xsqlite.sqlDB)) acts :
  Forall (caller_jobs_in (fun j => xsqlite.tries j = 0)) cs ->
  Forall (fun j => 0 <= xsqlite.tries j <= maxAttempts)
    (in_flight (xsqlite.run acts
                  (set_callers (start parent_done h queueSize nworkers) cs))).
Proof.
  intros Hcs. apply jobs_in_in_flight. apply run_jobs_in.
  - intros j j' Hj Hs. apply xsqlite_submits_inv in Hs as [Hlt ->]. simpl.
    unfold maxAttempts in *. rewrite tries_incr; unfold int64; lia.
  - apply start_jobs_in. eapply Forall_impl; [exact Hcs|].
    intros [p|r]; simpl; auto. intros Hp j Hj. rewrite (Hp j Hj).
    unfold maxAttempts. lia.
Qed.

(** A job whose statement always fails is run six times, with counters 0
    to 5, and is then gone: the queue is empty and the worker is back at
    its [select]. *)
Example six_attempts_then_discarded :
  exists s, Runs.boot Runs.failing 1 10 [Runs.enqueue_one] = Some s /\
    let before_last :=
      xsqlite.run
        (ACaller 0 PickOther ::
         Runs.failed_attempt 0 ++ Runs.failed_attempt 1 ++
         Runs.failed_attempt 2 ++ Runs.failed_attempt 3 ++
         Runs.failed_attempt 4) s in
    let s' := xsqlite.run Runs.last_attempt before_last in
    xsqlite.tries <$> Chan.buf (jobs (db before_last)) = [5] /\
    length (xsqlite.calls (handle (db before_last))) = 5%nat /\
    Chan.buf (jobs (db s')) = [] /\
    workers s' = [WSelect] /\
    length (xsqlite.calls (handle (db s'))) = 6%nat /\
    panicked s' = None.
Proof.
  eexists. split; [reflexivity|]. vm_compute. repeat split; reflexivity.
Qed.

(** C10.  The job that [execWithRetry] offers to the queue again is the job
    it ran with only the counter replaced: the same query and arguments in
    xsqlite, the same closure in xredis. *)
Theorem retry_keeps_payload :
  (forall j j' : xsqlite.job,
     submits (xsqlite.execWithRetry j) j' ->
     xsqlite.query j' = xsqlite.query j /\
     xsqlite.args j' = xsqlite.args j /\
     j' = {| xsqlite.query := xsqlite.query j; xsqlite.args := xsqlite.args j;
             xsqlite.tries := xsqlite.tries j' |}) /\
  (forall j j' : xredis.job,
     submits (xredis.execWithRetry j) j' ->
     xredis.fn j' = xredis.fn j /\
     j' = {| xredis.fn := xredis.fn j; xredis.tries := xredis.tries j' |}).
Proof.
  split; intros j j' H.
  - apply xsqlite_submits_inv in H as [_ ->]. simpl. auto.
  - apply xredis_submits_inv in H as [_ ->]. simpl. auto.
Qed.

Lemma retry_keeps_payload_witness :
  let j := {| xsqlite.query := Runs.insert;
              xsqlite.args := [xsqlite.Str "INFO"; xsqlite.Int 7];
              xsqlite.tries := 2 |} in
  let j' := {| xsqlite.query := Runs.insert;
               xsqlite.args := [xsqlite.Str "INFO"; xsqlite.Int 7];
               xsqlite.tries := 3 |} in
  let f := {| xredis.fn := Runs.read_only; xredis.tries := 0 |} in
  let f' := {| xredis.fn := Runs.read_only; xredis.tries := 1 |} in
  (xsqlite.query j' = xsqlite.query j /\
   xsqlite.args j' = xsqlite.args j /\
   j' = {| xsqlite.query := xsqlite.query j; xsqlite.args := xsqlite.args j;
           xsqlite.tries := xsqlite.tries j' |}) /\
  (xredis.fn f' = xredis.fn f /\
   f' = {| xredis.fn := xredis.fn f; xredis.tries := xredis.tries f' |}).
Proof.
  intros j j' f f'. split.
  - apply (proj1 retry_keeps_payload j j').
    apply submits_exec with (e := Some "database is locked"). simpl.
    apply submits_new_timer with (t := 0).
    apply submits_select with (c := TimerC).
    apply submits_try_send.
  - apply (proj2 retry_keeps_payload f f').
    apply submits_exec with (e := Some "READONLY"). simpl.
    apply submits_new_timer with (t := 0).
    apply submits_select with (c := TimerC).
    apply submits_try_send.
Defined.

(** So in every state that the pipeline of xsqlite can reach, each job in
    the queue or in the hands of a worker carries a query and arguments
    that a caller has passed to a send. *)
Lemma payloads_come_from_callers parent_done h queueSize nworkers
    (cs : list (cstate xsqlite.job xsqlite.sqlDB)) acts
    (payloads : list (string * list xsqlite.any)) :
  Forall (caller_jobs_in
            (fun j => (xsqlite.query j, xsqlite.args j) ∈ payloads)) cs ->
  Forall (fun j => (xsqlite.query j, xsqlite.args j) ∈ payloads)
    (in_flight (xsqlite.run acts
                  (set_callers (start parent_done h queueSize nworkers) cs))).
Proof.
  intros Hcs. apply jobs_in_in_flight. apply run_jobs_in.
  - intros j j' Hj Hs. apply xsqlite_submits_inv in Hs as [_ ->]. exact Hj.
  - now apply start_jobs_in.
Qed.

(** ** Backoff *)

(** C6.  When an attempt with counter [n] from 0 to 4 fails, the timer
    that [execWithRetry] arms runs for [backoffBase * 2 ^ n] in both
    packages, and the job is not offered to the queue again before that
    much time has passed since the worker took up the attempt.  The first
    wait is [backoffBase], 100ms; the waits for counters 0, 1 and 2 add up
    to 700ms, and in a pipeline of xsqlite that starts at time 0 no job
    with counter 3 is in the queue or in the hands of a worker before
    700ms. *)
Theorem backoff_delay :
  (forall (j : xsqlite.job) (e : error),
     0 <= xsqlite.tries j < maxAttempts ->
     armed_wait (after_exec (xsqlite.execWithRetry j) (Some e))
       = Some (backoffBase * 2 ^ xsqlite.tries j)) /\
  (forall (j : xredis.job) (e : error),
     0 <= xredis.tries j < maxAttempts ->
     armed_wait (after_exec (xredis.execWithRetry j) (Some e))
       = Some (backoffBase * 2 ^ xredis.tries j)) /\
  (forall (s : system xsqlite.job xsqlite.sqlDB) acts i j j' k,
     0 <= xsqlite.tries j < maxAttempts ->
     workers s !! i = Some (WRun j (xsqlite.execWithRetry j)) ->
     workers (xsqlite.run acts s) !! i = Some (WRun j (TrySend j' k)) ->
     now s + backoffBase * 2 ^ xsqlite.tries j <= now (xsqlite.run acts s)) /\
  (forall parent_done h queueSize nworkers
          (cs : list (cstate xsqlite.job xsqlite.sqlDB)) acts j,
     Forall (caller_jobs_in (fun j => xsqlite.tries j = 0)) cs ->
     let s := xsqlite.run acts
                (set_callers (start parent_done h queueSize nworkers) cs) in
     j ∈ in_flight s -> xsqlite.tries j = 3 -> 700 * Millisecond <= now s) /\
  backoffBase * 2 ^ 0 = 100 * Millisecond /\
  backoffBase * 2 ^ 0 + backoffBase * 2 ^ 1 + backoffBase * 2 ^ 2
    = 700 * Millisecond.
Proof.
  unfold maxAttempts.
  split; [|split; [|split; [|split; [|split; reflexivity]]]].
  - intros j e H. rewrite after_failure by lia. simpl.
    unfold xsqlite.retry_wait. now rewrite wait_value.
  - intros j e H. simpl.
    destruct (Z.ltb_spec (xredis.tries j) 5); [|lia]. simpl.
    now rewrite wait_value.
  - intros s acts i j j' k H H0 H1.
    pose proof (resubmission_waits s acts i j j' k H0 H1) as Hw.
    unfold xsqlite.retry_wait in Hw. now rewrite wait_value in Hw.
  - cbv zeta. intros parent_done h queueSize nworkers cs acts j Hcs Hj H3.
    pose proof (attempt_not_before parent_done h queueSize nworkers cs acts Hcs)
      as Hall.
    destruct (proj1 (Forall_forall _ _) Hall j Hj) as [_ Hnow].
    rewrite H3 in Hnow. exact Hnow.
Qed.

Lemma backoff_delay_witness :
  let j := {| xsqlite.query := Runs.insert;
              xsqlite.args := [xsqlite.Str "INFO"; xsqlite.Str "hello"];
              xsqlite.tries := 0 |} in
  let f := {| xredis.fn := Runs.read_only; xredis.tries := 2 |} in
  let s := xsqlite.run [ACaller 0 PickOther; AWorker 0 PickOther]
             (set_callers (start false (Runs.sqldb Runs.failing) 10 1)
                          [CRun Runs.enqueue_one]) in
  let acts := [AWorker 0 PickOther; AWorker 0 PickOther;
               ATick (100 * Millisecond); AWorker 0 PickOther] in
  let third := {| xsqlite.query := Runs.insert;
                  xsqlite.args := [xsqlite.Str "INFO"; xsqlite.Str "hello"];
                  xsqlite.tries := 3 |} in
  let s3 := xsqlite.run
              (ACaller 0 PickOther ::
               Runs.failed_attempt 0 ++ Runs.failed_attempt 1 ++
               Runs.failed_attempt 2)
              (set_callers (start false (Runs.sqldb Runs.failing) 10 1)
                           [CRun Runs.enqueue_one]) in
  armed_wait (after_exec (xsqlite.execWithRetry j) (Some "disk I/O error"))
    = Some (backoffBase * 2 ^ xsqlite.tries j) /\
  armed_wait (after_exec (xredis.execWithRetry f) (Some "READONLY"))
    = Some (backoffBase * 2 ^ xredis.tries f) /\
  now s + backoffBase * 2 ^ xsqlite.tries j <= now (xsqlite.run acts s) /\
  700 * Millisecond <= now s3.
Proof.
  intros j f s acts third s3.
  destruct backoff_delay as (Hsql & Hredis & Hwait & Hpaced & _).
  split; [|split; [|split]].
  - apply (Hsql j "disk I/O error"). unfold maxAttempts. simpl. lia.
  - apply (Hredis f "READONLY"). unfold maxAttempts. simpl. lia.
  - apply (Hwait s acts 0%nat j (xsqlite.retried j)
             (Return (Some "disk I/O error"))).
    + unfold maxAttempts. simpl. lia.
    + reflexivity.
    + reflexivity.
  - apply (Hpaced false (Runs.sqldb Runs.failing) 10 1 [CRun Runs.enqueue_one]
             (ACaller 0 PickOther ::
              Runs.failed_attempt 0 ++ Runs.failed_attempt 1 ++
              Runs.failed_attempt 2) third).
    + constructor; [|constructor]. simpl. intros j' Hj'.
      inversion Hj' as [ | j0 k0 | | | | | | j0 k0 j1 Hk | | | | ]; subst;
        [reflexivity|inversion Hk].
    + vm_compute. apply list_elem_of_here.
    + reflexivity.
Defined.

(** A job whose statement fails on attempts 0, 1 and 2 and succeeds on
    attempt 3: when the clock moves by exactly the three waits, the fourth
    statement runs at 700ms. *)
Example three_failures_then_success :
  exists s, Runs.boot (Runs.failing_first 3) 1 10 [Runs.enqueue_one] = Some s /\
    let s' := xsqlite.run
                (ACaller 0 PickOther ::
                 Runs.failed_attempt 0 ++ Runs.failed_attempt 1 ++
                 Runs.failed_attempt 2 ++ Runs.last_attempt) s in
    now s' = 700 * Millisecond /\
    length (xsqlite.calls (handle (db s'))) = 4%nat /\
    Chan.buf (jobs (db s')) = [] /\
    workers s' = [WSelect].
Proof.
  eexists. split; [reflexivity|]. vm_compute. repeat split; reflexivity.
Qed.

(** ** Overflow *)

(** C7 as stated fails on a closed channel.  The retry's send is
    non-blocking, but a send on a closed channel panics whether or not the
    [select] has a [default].  Here the queue of capacity 1 is full, and
    [Close] has cancelled the context and closed the channel while the
    worker waited on its timer; the worker's [select] takes [<-timer.C], and
    the send of the retry ends the process instead of dropping the job. *)
Lemma retry_on_closed_queue_panics :
  (exists s, Runs.boot Runs.failing 1 1 [Runs.two_then_close] = Some s /\
     let before := xsqlite.run Runs.retry_meets_close s in
     let after := xsqlite.step (AWorker 0 PickOther) before in
     (exists j0 j k,
        workers before = [WRun j0 (TrySend j k)] /\ xsqlite.tries j = 1) /\
     Chan.full (jobs (db before)) = true /\
     Chan.closed (jobs (db before)) = true /\
     panicked before = None /\
     panicked after = Some "send on closed channel") /\
  (exists s, Runs.redis_boot_with Runs.redis_small_config
               [Runs.redis_two_then_close] = Some s /\
     let before := xredis.run Runs.retry_meets_close s in
     let after := xredis.step (AWorker 0 PickOther) before in
     (exists j0 j k,
        workers before = [WRun j0 (TrySend j k)] /\ xredis.tries j = 1) /\
     Chan.full (jobs (db before)) = true /\
     Chan.closed (jobs (db before)) = true /\
     panicked before = None /\
     panicked after = Some "send on closed channel").
Proof.
  split; eexists; (split; [reflexivity|]); cbv zeta;
    (split; [do 3 eexists; split; vm_compute; reflexivity|]);
    vm_compute; auto.
Qed.

(** C8.  In every state that a pipeline opened by [xsqlite.Open] reaches,
    whatever its callers do and however the goroutines are scheduled, the
    queue holds at most capacity jobs, the workers hold at most
    workerCount jobs (one each), and so the jobs in flight number at most
    capacity + workerCount, where the two are [QueueSize] and [Workers]
    after [Open] has applied its defaults. *)
Theorem in_flight_never_exceeds
    (parent_done : bool) (cfg : xsqlite.Config) (migrations : list string)
    (opened : error + xsqlite.sqlDB) (s : system xsqlite.job xsqlite.sqlDB)
    (cs : list (cstate xsqlite.job xsqlite.sqlDB)) (acts : list action) :
  xsqlite.Open parent_done cfg migrations opened = xsqlite.Opened s ->
  let capacity := xsqlite.QueueSize (xsqlite.defaults cfg) in
  let workerCount := xsqlite.Workers (xsqlite.defaults cfg) in
  let s' := xsqlite.run acts (set_callers s cs) in
  Chan.len (jobs (db s')) <= capacity /\
  Z.of_nat (length (concat (map held (workers s')))) <= workerCount /\
  Z.of_nat (length (in_flight s')) <= capacity + workerCount.
Proof.
  unfold xsqlite.Open. destruct (decide (xsqlite.DBPath cfg = "")); [discriminate|].
  destruct opened as [err|sqldb]; [discriminate|].
  destruct (xsqlite.apply_pragmas _ sqldb) as [[ | e | v] h1]; try discriminate.
  destruct (xsqlite.run_migrations _ h1) as [[ | e | v] h2]; try discriminate.
  intros [= <-]. cbv zeta. unfold xsqlite.run.
  apply in_flight_bound; simpl.
  - destruct (Z.leb_spec (xsqlite.QueueSize cfg) 0); lia.
  - destruct (Z.leb_spec (xsqlite.Workers cfg) 0); lia.
Qed.

Lemma in_flight_never_exceeds_witness :
  let s := start false (Runs.sqldb Runs.ok) 2 1 in
  let s' := xsqlite.run [ACaller 0 PickOther; AWorker 0 PickOther;
                         ACaller 0 PickOther; ACaller 0 PickOther]
              (set_callers s [CRun Runs.enqueue_three]) in
  Chan.len (jobs (db s')) <= 2 /\
  Z.of_nat (length (concat (map held (workers s')))) <= 1 /\
  Z.of_nat (length (in_flight s')) <= 2 + 1.
Proof.
  intros s s'.
  exact (in_flight_never_exceeds false (Runs.config 1 2) [] (inr (Runs.sqldb Runs.ok))
           s [CRun Runs.enqueue_three]
           [ACaller 0 PickOther; AWorker 0 PickOther;
            ACaller 0 PickOther; ACaller 0 PickOther] eq_refl).
Defined.

(** The same bound for a pipeline opened by [xredis.Open]. *)
Lemma xredis_in_flight_never_exceeds
    (parent_done : bool) (cfg : xredis.Config) (rdb : xredis.Client)
    (s : system xredis.job xredis.Client)
    (cs : list (cstate xredis.job xredis.Client)) (acts : list action) :
  xredis.Open parent_done cfg rdb = inr s ->
  Z.of_nat (length (in_flight (xredis.run acts (set_callers s cs))))
    <= xredis.QueueSize (xredis.defaults cfg)
       + xredis.Workers (xredis.defaults cfg).
Proof.
  unfold xredis.Open. destruct (xredis.ping_result rdb); [discriminate|].
  intros [= <-]. unfold xredis.run. refine (proj2 (proj2 (in_flight_bound _ _ _ _ _ _ _ _ _ _))); simpl.
  - destruct (Z.leb_spec (xredis.QueueSize cfg) 0); lia.
  - destruct (Z.leb_spec (xredis.Workers cfg) 0); lia.
Qed.

(** C9.  [Enqueue] on an open queue: while the queue is full the caller
    stays at its send and nothing changes (no error, no panic, the job is
    neither queued nor lost); as soon as there is room the job, with
    counter 0, goes to the back of the queue and the caller goes on. *)
Theorem Enqueue_blocks_while_full
    (s : system xsqlite.job xsqlite.sqlDB) (i : nat) (query : string)
    (args : list xsqlite.any)
    (rest : prog xsqlite.job xsqlite.sqlDB (option error)) (pk : pick) :
  panicked s = None ->
  callers s !! i = Some (CRun (xsqlite.Enqueue query args ;; rest)) ->
  Chan.closed (jobs (db s)) = false ->
  let s' := xsqlite.step (ACaller i pk) s in
  if Chan.full (jobs (db s)) then s' = s
  else
    Chan.buf (jobs (db s')) =
      Chan.buf (jobs (db s)) ++
        [{| xsqlite.query := query; xsqlite.args := args; xsqlite.tries := 0 |}] /\
    callers s' !! i = Some (CRun rest) /\
    panicked s' = None.
Proof.
  intros Hp Hi Hcl s'. unfold s', xsqlite.step.
  destruct (Chan.full (jobs (db s))) eqn:Hf.
  - exact (send_full_step _ _ s i _ rest pk Hp Hi Hcl Hf).
  - rewrite (send_room_step _ _ s i _ rest pk Hp Hi Hcl Hf). simpl.
    repeat split; auto.
    apply list_lookup_insert_eq. eapply lookup_lt_Some; eauto.
Qed.

Lemma Enqueue_blocks_while_full_witness :
  let s := xsqlite.run [ACaller 0 PickOther; ACaller 0 PickOther]
             (set_callers (start false (Runs.sqldb Runs.failing) 2 1)
                          [CRun Runs.enqueue_three]) in
  Chan.full (jobs (db s)) = true /\
  xsqlite.step (ACaller 0 PickOther) s = s.
Proof.
  intros s. split; [reflexivity|].
  exact (Enqueue_blocks_while_full s 0 Runs.insert [xsqlite.Int 3] (mret None)
           PickOther eq_refl eq_refl eq_refl).
Defined.

(** Capacity 2 and one worker: the first two calls of [Enqueue] go through
    at once, the third leaves the caller where it is until the worker has
    taken a job out of the queue. *)
Example third_Enqueue_waits_for_worker :
  exists s, Runs.boot Runs.failing 1 2 [Runs.enqueue_three] = Some s /\
    let two := xsqlite.run [ACaller 0 PickOther; ACaller 0 PickOther] s in
    let blocked := xsqlite.step (ACaller 0 PickOther) two in
    let taken := xsqlite.step (AWorker 0 PickOther) blocked in
    let three := xsqlite.step (ACaller 0 PickOther) taken in
    xsqlite.args <$> Chan.buf (jobs (db two))
      = [[xsqlite.Int 1]; [xsqlite.Int 2]] /\
    blocked = two /\
    xsqlite.args <$> Chan.buf (jobs (db taken)) = [[xsqlite.Int 2]] /\
    xsqlite.args <$> Chan.buf (jobs (db three))
      = [[xsqlite.Int 2]; [xsqlite.Int 3]] /\
    panicked three = None.
Proof.
  eexists. split; [reflexivity|]. cbv zeta.
  split; [reflexivity|]. split; [reflexivity|].
  split; [reflexivity|]. split; reflexivity.
Qed.

(** ** Overflow: the send of the retry *)

Section FollowsFacts.
Context {job backend : Type}.
Variable release : backend -> option error * backend.
Variable execWithRetry : job -> prog job backend (option error).

Local Abbreviation op_step := (op_step release).
Local Abbreviation worker := (worker release execWithRetry).
Local Abbreviation step := (step release execWithRetry).
Local Abbreviation run := (run release execWithRetry).

Implicit Types (d : DB job backend) (s : system job backend).

Lemma follows_trans {R} (p q r : prog job backend R) :
  follows p q -> follows q r -> follows p r.
Proof.
  induction 1; intros Hr; [exact Hr|..]; econstructor; eauto.
Qed.

(** One operation leads from a program to what follows it. *)
Lemma op_step_follows {R} (p p' : prog job backend R) pk t d d' :
  op_step p pk t d = Next p' d' -> follows p p'.
Proof.
  destruct p; simpl; intros H;
    repeat match type of H with
           | context [match ?x with _ => _ end] => destruct x
           | context [if ?x then _ else _] => destruct x
           end;
    try discriminate; injection H as <- _; econstructor; apply follows_here.
Qed.

Lemma worker_in_execWithRetry w w' pk t d d' :
  in_execWithRetry execWithRetry w -> worker w pk t d = Next w' d' ->
  in_execWithRetry execWithRetry w'.
Proof.
  intros Hw Hstep. destruct w as [|j p|]; [| |discriminate].
  - destruct pk; cbn in Hstep.
    + destruct (ctx_done d); [|discriminate]. injection Hstep as <- _. exact I.
    + destruct (Chan.recv (jobs d)); [| |discriminate]; injection Hstep as <- _.
      * cbn. apply follows_here.
      * exact I.
  - apply worker_run_next in Hstep as [(r & _ & -> & _)|(p' & Hstep & ->)];
      [exact I|].
    cbn in Hw |- *. eapply follows_trans; [exact Hw|].
    eapply op_step_follows; exact Hstep.
Qed.

Lemma step_in_execWithRetry a s :
  Forall (in_execWithRetry execWithRetry) (workers s) ->
  Forall (in_execWithRetry execWithRetry) (workers (step a s)).
Proof.
  intros Hs.
  destruct (panicked s) as [v|] eqn:Hp; [rewrite (step_panicked _ _ _ _ _ Hp); exact Hs|].
  destruct a as [i pk | i pk | dt | ].
  - destruct (workers s !! i) as [w|] eqn:Hw.
    + rewrite (step_worker _ _ _ _ _ _ Hp Hw).
      destruct (worker w pk (now s) (db s)) as [w' d'| |v] eqn:Hstep; try exact Hs.
      cbn. apply Forall_insert; [exact Hs|].
      eapply worker_in_execWithRetry; [|exact Hstep].
      exact (proj1 (Forall_lookup _ _) Hs _ _ Hw).
    + unfold_step. rewrite Hp, Hw. exact Hs.
  - destruct (callers s !! i) as [c|] eqn:Hc.
    + rewrite (step_caller _ _ _ _ _ _ Hp Hc).
      destruct (caller release c pk (now s) (db s)); exact Hs.
    + unfold_step. rewrite Hp, Hc. exact Hs.
  - unfold_step. rewrite Hp. destruct (0 <=? dt); exact Hs.
  - unfold_step. rewrite Hp. exact Hs.
Qed.

Lemma run_workers_in_execWithRetry acts s :
  Forall (in_execWithRetry execWithRetry) (workers s) ->
  Forall (in_execWithRetry execWithRetry) (workers (run acts s)).
Proof.
  revert s. induction acts as [|a acts IH]; intros s Hs; [exact Hs|].
  rewrite run_cons. apply IH, step_in_execWithRetry, Hs.
Qed.

(** In a pipeline that [Open] has started, whatever its callers do, a
    worker that runs a job is somewhere in [execWithRetry] of that job. *)
Lemma run_in_execWithRetry parent_done h queueSize nworkers
    (cs : list (cstate job backend)) acts i j p :
  workers (run acts (set_callers (start parent_done h queueSize nworkers) cs)) !! i
    = Some (WRun j p) ->
  follows (execWithRetry j) p.
Proof.
  intros Hi.
  pose proof (run_workers_in_execWithRetry acts
                (set_callers (start parent_done h queueSize nworkers) cs)) as Hrun.
  assert (Forall (in_execWithRetry execWithRetry)
            (workers (set_callers (start parent_done h queueSize nworkers) cs)))
    as Hstart by (cbn; apply Forall_replicate; exact I).
  specialize (Hrun Hstart). rewrite Forall_lookup in Hrun.
  exact (Hrun _ _ Hi).
Qed.

(** The non-blocking send of a worker: the worker is past it, or the
    channel was closed; on a full, open channel nothing but the worker
    changes. *)
Lemma try_send_step s i j0 j k pk :
  panicked s = None -> workers s !! i = Some (WRun j0 (TrySend j k)) ->
  let s' := step (AWorker i pk) s in
  (workers s' !! i = Some (WRun j0 k) \/
   panicked s' = Some "send on closed channel") /\
  (Chan.closed (jobs (db s)) = false -> Chan.full (jobs (db s)) = true ->
   s' = set_workers s (<[i:=WRun j0 k]> (workers s))).
Proof.
  intros Hp Hw. cbv zeta. rewrite (step_worker _ _ _ _ _ _ Hp Hw). simpl. split.
  - destruct (Chan.send (jobs (db s)) j); simpl; auto; left;
      apply list_lookup_insert_eq; eapply lookup_lt_Some; eauto.
  - intros Hcl Hf. rewrite (send_full_blocks _ _ Hcl Hf).
    destruct s as [d ws cs t p]. reflexivity.
Qed.
End FollowsFacts.

(** The only send in [execWithRetry], in either package, is the
    non-blocking send of the job with its counter raised by one, after
    which [execWithRetry] returns the error of the attempt. *)
Lemma xsqlite_sends (j : xsqlite.job) (p : prog xsqlite.job xsqlite.sqlDB (option error)) :
  follows (xsqlite.execWithRetry j) p -> offers p = true ->
  xsqlite.tries j < 5 /\
  exists e, p = TrySend (xsqlite.retried j) (Return (Some e)).
Proof.
  unfold xsqlite.execWithRetry, xsqlite.execOnce. intros H Ho.
  inversion H as [ | f k e q He | | | | | | | | | ]; subst; clear H;
    [discriminate Ho|].
  cbn in He. destruct e as [e|]; [|inversion He; subst; discriminate Ho].
  destruct (xsqlite.tries j <? 5) eqn:Hlt; [|inversion He; subst; discriminate Ho].
  apply Z.ltb_lt in Hlt. split; [exact Hlt|].
  inversion He as [ | | w k t q Ht | | | | | | | | ]; subst; clear He;
    [discriminate Ho|].
  inversion Ht as [ | | | t0 k c q Hc | | | | | | | ]; subst; clear Ht;
    [discriminate Ho|].
  destruct c; cbn in Hc.
  - inversion Hc as [ | | | | k q Hk | | | | | | ]; subst; [discriminate Ho|].
    inversion Hk; subst. discriminate Ho.
  - inversion Hc as [ | | | | | j1 k q Hk | | | | | ]; subst.
    + exists e. reflexivity.
    + inversion Hk; subst. discriminate Ho.
Qed.

Lemma xredis_sends (j : xredis.job) (p : prog xredis.job xredis.Client (option error)) :
  follows (xredis.execWithRetry j) p -> offers p = true ->
  xredis.tries j < 5 /\
  exists e, p = TrySend {| xredis.fn := xredis.fn j;
                           xredis.tries := wrap64 (xredis.tries j + 1) |}
                (Return (Some e)).
Proof.
  unfold xredis.execWithRetry. intros H Ho.
  inversion H as [ | f k e q He | | | | | | | | | ]; subst; clear H;
    [discriminate Ho|].
  cbn in He. destruct e as [e|]; [|inversion He; subst; discriminate Ho].
  destruct (xredis.tries j <? 5) eqn:Hlt; [|inversion He; subst; discriminate Ho].
  apply Z.ltb_lt in Hlt. split; [exact Hlt|].
  inversion He as [ | | w k t q Ht | | | | | | | | ]; subst; clear He;
    [discriminate Ho|].
  inversion Ht as [ | | | t0 k c q Hc | | | | | | | ]; subst; clear Ht;
    [discriminate Ho|].
  destruct c; cbn in Hc.
  - inversion Hc as [ | | | | k q Hk | | | | | | ]; subst; [discriminate Ho|].
    inversion Hk; subst. discriminate Ho.
  - inversion Hc as [ | | | | | j1 k q Hk | | | | | ]; subst.
    + exists e. reflexivity.
    + inversion Hk; subst. discriminate Ho.
Qed.

(** C7, amended.  In both packages, in every state that a pipeline
    started by [Open] reaches, whatever its callers do: a worker whose
    next operation offers a job to [db.jobs] is at the send of
    [execWithRetry] for the job [j0] that it runs, and that send is the
    non-blocking one, of [j0] with its counter raised by one, after which
    [execWithRetry] only returns the error of the attempt (so a blocking
    send in [execWithRetry] would refute the statement).  The send
    never blocks the worker: after the worker's move it is past the send,
    or the process has panicked because the channel was closed.  If the
    queue is full and the channel is open at that moment, the retry is
    dropped silently: the worker goes on, and the queue, the backend, the
    callers and the other workers are as they were. *)
Theorem retry_dropped_when_full
    (parent_done : bool) (h : xsqlite.sqlDB) (queueSize nworkers : Z)
    (cs : list (cstate xsqlite.job xsqlite.sqlDB)) (acts : list action)
    (parent_done' : bool) (h' : xredis.Client) (queueSize' nworkers' : Z)
    (cs' : list (cstate xredis.job xredis.Client)) (acts' : list action)
    (i i' : nat) (pk pk' : pick)
    (j0 : xsqlite.job) (p : prog xsqlite.job xsqlite.sqlDB (option error))
    (f0 : xredis.job) (p' : prog xredis.job xredis.Client (option error)) :
  let s := xsqlite.run acts
             (set_callers (start parent_done h queueSize nworkers) cs) in
  let r := xredis.run acts'
             (set_callers (start parent_done' h' queueSize' nworkers') cs') in
  let s' := xsqlite.step (AWorker i pk) s in
  let r' := xredis.step (AWorker i' pk') r in
  (panicked s = None -> workers s !! i = Some (WRun j0 p) -> offers p = true ->
   exists e,
     follows (xsqlite.execWithRetry j0) p /\ xsqlite.tries j0 < 5 /\
     p = TrySend {| xsqlite.query := xsqlite.query j0; xsqlite.args := xsqlite.args j0;
                    xsqlite.tries := wrap64 (xsqlite.tries j0 + 1) |}
           (Return (Some e)) /\
     (workers s' !! i = Some (WRun j0 (Return (Some e))) \/
      panicked s' = Some "send on closed channel") /\
     (Chan.closed (jobs (db s)) = false -> Chan.full (jobs (db s)) = true ->
      s' = set_workers s (<[i:=WRun j0 (Return (Some e))]> (workers s)))) /\
  (panicked r = None -> workers r !! i' = Some (WRun f0 p') -> offers p' = true ->
   exists e,
     follows (xredis.execWithRetry f0) p' /\ xredis.tries f0 < 5 /\
     p' = TrySend {| xredis.fn := xredis.fn f0;
                     xredis.tries := wrap64 (xredis.tries f0 + 1) |}
            (Return (Some e)) /\
     (workers r' !! i' = Some (WRun f0 (Return (Some e))) \/
      panicked r' = Some "send on closed channel") /\
     (Chan.closed (jobs (db r)) = false -> Chan.full (jobs (db r)) = true ->
      r' = set_workers r (<[i':=WRun f0 (Return (Some e))]> (workers r)))).
Proof.
  intros s r s' r'. split.
  - intros Hps Hws Hos.
    pose proof (run_in_execWithRetry xsqlite.sqlClose xsqlite.execWithRetry
                  _ _ _ _ _ _ _ _ _ Hws) as Hfs.
    destruct (xsqlite_sends j0 p Hfs Hos) as (Hlts & es & Heqs).
    exists es. split; [exact Hfs|]. split; [exact Hlts|]. split; [exact Heqs|].
    rewrite Heqs in Hws.
    exact (try_send_step xsqlite.sqlClose xsqlite.execWithRetry s i j0 _ _ pk Hps Hws).
  - intros Hpr Hwr Hor.
    pose proof (run_in_execWithRetry xredis.rdbClose xredis.execWithRetry
                  _ _ _ _ _ _ _ _ _ Hwr) as Hfr.
    destruct (xredis_sends f0 p' Hfr Hor) as (Hltr & er & Heqr).
    exists er. split; [exact Hfr|]. split; [exact Hltr|]. split; [exact Heqr|].
    rewrite Heqr in Hwr.
    exact (try_send_step xredis.rdbClose xredis.execWithRetry r i' f0 _ _ pk' Hpr Hwr).
Qed.

Lemma retry_dropped_when_full_witness :
  let s := xsqlite.run
             [ACaller 0 PickOther; AWorker 0 PickOther; AWorker 0 PickOther;
              AWorker 0 PickOther; ACaller 0 PickOther; ATick backoffBase;
              AWorker 0 PickOther]
             (set_callers (start false (Runs.sqldb Runs.failing) 1 1)
                          [CRun Runs.two_then_close]) in
  let r := xredis.run
             [ACaller 0 PickOther; AWorker 0 PickOther; AWorker 0 PickOther;
              AWorker 0 PickOther; ACaller 0 PickOther; ATick backoffBase;
              AWorker 0 PickOther]
             (set_callers (start false Runs.rdb 1 1)
                          [CRun Runs.redis_two_then_close]) in
  (Chan.closed (jobs (db s)) = false /\ Chan.full (jobs (db s)) = true) /\
  (Chan.closed (jobs (db r)) = false /\ Chan.full (jobs (db r)) = true) /\
  (length (Chan.buf (jobs (db (xsqlite.step (AWorker 0 PickOther) s)))) = 1%nat /\
   panicked (xsqlite.step (AWorker 0 PickOther) s) = None) /\
  (length (Chan.buf (jobs (db (xredis.step (AWorker 0 PickOther) r)))) = 1%nat /\
   panicked (xredis.step (AWorker 0 PickOther) r) = None).
Proof.
  intros s r.
  split; [split; reflexivity|]. split; [split; reflexivity|].
  destruct (retry_dropped_when_full
              false (Runs.sqldb Runs.failing) 1 1 [CRun Runs.two_then_close]
              [ACaller 0 PickOther; AWorker 0 PickOther; AWorker 0 PickOther;
               AWorker 0 PickOther; ACaller 0 PickOther; ATick backoffBase;
               AWorker 0 PickOther]
              false Runs.rdb 1 1 [CRun Runs.redis_two_then_close]
              [ACaller 0 PickOther; AWorker 0 PickOther; AWorker 0 PickOther;
               AWorker 0 PickOther; ACaller 0 PickOther; ATick backoffBase;
               AWorker 0 PickOther]
              0%nat 0%nat PickOther PickOther
              {| xsqlite.query := Runs.insert; xsqlite.args := [xsqlite.Str "A"];
                 xsqlite.tries := 0 |}
              (TrySend {| xsqlite.query := Runs.insert;
                          xsqlite.args := [xsqlite.Str "A"]; xsqlite.tries := 1 |}
                 (Return (Some "disk I/O error")))
              {| xredis.fn := Runs.read_only; xredis.tries := 0 |}
              (TrySend {| xredis.fn := Runs.read_only; xredis.tries := 1 |}
                 (Return (Some "READONLY"))))
    as (Hsql & Hredis).
  destruct (Hsql eq_refl eq_refl eq_refl) as (es & _ & _ & _ & _ & Hs).
  destruct (Hredis eq_refl eq_refl eq_refl) as (er & _ & _ & _ & _ & Hr).
  fold s in Hs. fold r in Hr.
  rewrite (Hs eq_refl eq_refl), (Hr eq_refl eq_refl).
  split; split; reflexivity.
Defined.

(** * What [xsqlite.Open] does before it starts the workers *)

Section OpenFacts.
Import xsqlite.

(** A statement without arguments, as the two loops of [Open] run them. *)
Local Abbreviation stmt := (fun q : string => (q, @nil any)).

Lemma apply_pragmas_done (pragmas : list string) (h h' : sqlDB) :
  apply_pragmas pragmas h = (Nil, h') ->
  calls h' = calls h ++ (stmt <$> ((fun p => "PRAGMA " +:+ p) <$> pragmas)) /\
  closes h' = closes h /\ driver h' = driver h /\ close_result h' = close_result h.
Proof.
  revert h. induction pragmas as [|p rest IH]; intros h; cbn [apply_pragmas].
  - intros [= <-]. rewrite app_nil_r. auto.
  - unfold ExecContext.
    destruct (driver h (length (calls h)) None ("PRAGMA " +:+ p) []);
      [|discriminate|discriminate].
    intros H. apply IH in H as (Hc & Hcl & Hd & Hr). cbn in Hc, Hcl, Hd, Hr.
    rewrite Hc, <- app_assoc. auto.
Qed.

Lemma run_migrations_done (migrations : list string) (h h' : sqlDB) :
  run_migrations migrations h = (Nil, h') ->
  calls h' = calls h ++ (stmt <$> migrations) /\
  closes h' = closes h /\ driver h' = driver h /\ close_result h' = close_result h.
Proof.
  revert h. induction migrations as [|m rest IH]; intros h; cbn [run_migrations].
  - intros [= <-]. rewrite app_nil_r. auto.
  - unfold ExecContext.
    destruct (driver h (length (calls h)) None m []); [|discriminate|discriminate].
    intros H. apply IH in H as (Hc & Hcl & Hd & Hr). cbn in Hc, Hcl, Hd, Hr.
    rewrite Hc, <- app_assoc. auto.
Qed.

(** X1 (src/db/xsqlite/xsqlite.go, Open).  When [Open] returns a
    pipeline, the path was not empty, the worker count and the queue size
    in use are positive, the queue is empty and open with that size, that
    many workers stand at their [select] and are counted in [wg], and the
    handle has run the pragmas as [PRAGMA] statements in their order and
    then the migrations in theirs, and has not been closed. *)
Theorem Open_opened
    (parent_done : bool) (cfg : Config) (migrations : list string)
    (sqldb : sqlDB) (s : system job sqlDB) :
  Open parent_done cfg migrations (inr sqldb) = Opened s ->
  DBPath cfg <> "" /\
  0 < Workers (defaults cfg) /\ 0 < QueueSize (defaults cfg) /\
  workers s = replicate (Z.to_nat (Workers (defaults cfg))) WSelect /\
  wg (db s) = Workers (defaults cfg) /\
  jobs (db s) = Chan.make (QueueSize (defaults cfg)) /\
  ctx_done (db s) = parent_done /\ callers s = [] /\ panicked s = None /\
  calls (handle (db s)) =
    calls sqldb ++ (stmt <$> ((fun p => "PRAGMA " +:+ p) <$> ExtraPragma cfg))
                ++ (stmt <$> migrations) /\
  closes (handle (db s)) = closes sqldb.
Proof.
  unfold Open. destruct (decide (DBPath cfg = "")) as [|Hpath]; [discriminate|].
  destruct (apply_pragmas _ sqldb) as [[ | e | v] h1] eqn:Hp; try discriminate.
  destruct (run_migrations _ h1) as [[ | e | v] h2] eqn:Hm; try discriminate.
  intros [= <-].
  apply apply_pragmas_done in Hp as (Hc1 & Hcl1 & _).
  apply run_migrations_done in Hm as (Hc2 & Hcl2 & _).
  assert (0 < Workers (defaults cfg)) as Hw
    by (cbn; destruct (Z.leb_spec (Workers cfg) 0); lia).
  assert (0 < QueueSize (defaults cfg)) as Hq
    by (cbn; destruct (Z.leb_spec (QueueSize cfg) 0); lia).
  cbn [start db workers callers panicked wg jobs ctx_done handle].
  repeat split; try assumption; try reflexivity.
  - cbn in Hw. cbn. lia.
  - rewrite Hc2, Hc1, <- app_assoc. reflexivity.
  - congruence.
Qed.

Lemma Open_opened_witness :
  let cfg := {| DBPath := "data/app.db"; Workers := 0; QueueSize := 0;
                BusyTimeout := 0; SyncMode := ""; ExtraPragma := ["cache_size=2000"] |} in
  let s : system job sqlDB := start false
             {| driver := Runs.ok;
                calls := [("PRAGMA cache_size=2000", []);
                          ("CREATE TABLE logs(level,msg)", [])];
                close_result := None; closes := 0 |} 1000 2 in
  DBPath cfg <> "" /\
  0 < Workers (defaults cfg) /\ 0 < QueueSize (defaults cfg) /\
  workers s = replicate (Z.to_nat (Workers (defaults cfg))) WSelect /\
  wg (db s) = Workers (defaults cfg) /\
  jobs (db s) = Chan.make (QueueSize (defaults cfg)) /\
  ctx_done (db s) = false /\ callers s = [] /\ panicked s = None /\
  calls (handle (db s)) =
    calls (Runs.sqldb Runs.ok)
      ++ (stmt <$> ((fun p => "PRAGMA " +:+ p) <$> ExtraPragma cfg))
      ++ (stmt <$> ["CREATE TABLE logs(level,msg)"]) /\
  closes (handle (db s)) = closes (Runs.sqldb Runs.ok).
Proof.
  intros cfg s.
  exact (Open_opened false cfg ["CREATE TABLE logs(level,msg)"]
           (Runs.sqldb Runs.ok) s eq_refl).
Defined.

(** X2 (src/db/xsqlite/xsqlite.go, Open).  When a pragma or a migration
    fails, the loop stops there: the statements after it are not run, the
    handle is closed once, and the error is the driver's, wrapped with
    "apply pragma", the pragma and a colon, or with "migration failed".
    For a pragma of ASCII characters the error names it as [%q] prints
    it: between double quotes, with its double quotes, backslashes and
    control characters escaped. *)
Theorem Open_stops_at_first_failure
    (before : list string) (failing : string) (after : list string)
    (h : sqlDB) (err : error) :
  (forall i q, (i < length before)%nat ->
     driver h (length (calls h) + i) None q [] = Nil) ->
  (forall q, driver h (length (calls h) + length before) None q [] = Err err) ->
  let pragmas := apply_pragmas (before ++ failing :: after) h in
  let migrations := run_migrations (before ++ failing :: after) h in
  (exists name, fst pragmas = Err ("apply pragma " +:+ name +:+ ": " +:+ err) /\
     (ascii_only failing = true -> name = quoted failing)) /\
  calls (snd pragmas) =
    calls h ++ (stmt <$> ((fun p => "PRAGMA " +:+ p) <$> before ++ [failing])) /\
  closes (snd pragmas) = S (closes h) /\
  fst migrations = Err ("migration failed: " +:+ err) /\
  calls (snd migrations) = calls h ++ (stmt <$> before ++ [failing]) /\
  closes (snd migrations) = S (closes h).
Proof.
  revert h. induction before as [|q before IH]; intros h Hok Hfail.
  - cbn [app apply_pragmas run_migrations ExecContext length].
    cbn [length] in Hfail. rewrite Nat.add_0_r in Hfail.
    rewrite !Hfail. cbn [fst snd sqlClose calls closes].
    split; [exists (quoted failing); split; [reflexivity|intros _; reflexivity]|].
    cbn. repeat split.
  - cbn [app apply_pragmas run_migrations ExecContext].
    pose proof (Hok 0%nat) as H0. rewrite Nat.add_0_r in H0.
    rewrite !H0 by (cbn; lia).
    set (hp := {| driver := driver h;
                  calls := calls h ++ [("PRAGMA " +:+ q, [])];
                  close_result := close_result h; closes := closes h |}).
    set (hm := {| driver := driver h; calls := calls h ++ [(q, [])];
                  close_result := close_result h; closes := closes h |}).
    assert (forall h' : sqlDB,
              driver h' = driver h -> length (calls h') = S (length (calls h)) ->
              (forall i q, (i < length before)%nat ->
                 driver h' (length (calls h') + i) None q [] = Nil) /\
              (forall q, driver h' (length (calls h') + length before) None q []
                         = Err err)) as Hnext.
    { intros h' Hd Hl. rewrite Hd, Hl. split.
      - intros i q' Hi. replace (S (length (calls h)) + i)%nat
          with (length (calls h) + S i)%nat by lia. apply Hok. cbn. lia.
      - intros q'. replace (S (length (calls h)) + length before)%nat
          with (length (calls h) + length (q :: before))%nat by (cbn; lia).
        apply Hfail. }
    destruct (Hnext hp eq_refl) as [Hokp Hfailp];
      [cbn; rewrite length_app; cbn; lia|].
    destruct (Hnext hm eq_refl) as [Hokm Hfailm];
      [cbn; rewrite length_app; cbn; lia|].
    destruct (IH hp Hokp Hfailp) as (Hp1 & Hp2 & Hp3 & _).
    destruct (IH hm Hokm Hfailm) as (_ & _ & _ & Hm1 & Hm2 & Hm3).
    cbv zeta in *. split; [exact Hp1|].
    rewrite Hp2, Hp3, Hm1, Hm2, Hm3. cbn.
    rewrite <- !app_assoc. repeat split.
Qed.

Lemma Open_stops_at_first_failure_witness :
  let quote := String (Ascii.ascii_of_nat 34) EmptyString in
  let backslash := String (Ascii.ascii_of_nat 92) EmptyString in
  let failing := "x" +:+ quote +:+ "y" in
  let h := Runs.sqldb (Runs.failing_first 1) in
  let h := snd (ExecContext None "SELECT 1" [] h) in
  let h := {| driver := fun n t q a => if (n =? 2)%nat then Err "syntax error" else Nil;
              calls := calls h; close_result := None; closes := 0 |} in
  let pragmas := apply_pragmas (["a"] ++ failing :: ["c"]) h in
  let migrations := run_migrations (["a"] ++ failing :: ["c"]) h in
  ascii_only failing = true /\
  quoted failing = quote +:+ "x" +:+ backslash +:+ quote +:+ "y" +:+ quote /\
  fst pragmas =
    Err ("apply pragma " +:+ quote +:+ "x" +:+ backslash +:+ quote +:+ "y" +:+ quote
           +:+ ": syntax error") /\
  calls (snd pragmas) =
    calls h ++ (stmt <$> ((fun p => "PRAGMA " +:+ p) <$> ["a"] ++ [failing])) /\
  closes (snd pragmas) = S (closes h) /\
  fst migrations = Err ("migration failed: " +:+ "syntax error") /\
  calls (snd migrations) = calls h ++ (stmt <$> ["a"] ++ [failing]) /\
  closes (snd migrations) = S (closes h).
Proof.
  intros quote backslash failing h0 h1 h.
  split; [reflexivity|]. split; [reflexivity|].
  destruct (Open_stops_at_first_failure ["a"] failing ["c"] h "syntax error")
    as ((name & Htext & Hname) & Hrest).
  - intros [|i] q Hi; [reflexivity|cbn in Hi; lia].
  - intros q. reflexivity.
  - split; [|exact Hrest].
    rewrite Htext, (Hname eq_refl). reflexivity.
Defined.
End OpenFacts.

(** * [xsqlite.WithTx] and the connection pool *)

Section WithTxFacts.
Import xsqlite.

(** X3 (src/db/xsqlite/xsqlite.go, WithTx).  A transaction that has
    begun is ended exactly once, by [Commit] when [fn] returned nil and by
    [Rollback] when it returned an error or panicked, and [fn] runs once;
    [WithTx] returns nil only after a commit that returned nil; the error
    of [fn] comes back as it is, whatever [Rollback] returns, and so does
    its panic. *)
Theorem WithTx_ends_transaction_once (tx : Tx) :
  let '(r, calls) := WithTx (inr tx) in
  (length (List.filter (fun c => match c with Commit | Rollback => true | _ => false end)
             calls) = 1)%nat /\
  (length (List.filter (fun c => match c with Fn => true | _ => false end) calls)
   = 1)%nat /\
  (Commit ∈ calls <-> fn_result tx = Nil) /\
  (r = Nil <-> fn_result tx = Nil /\ commit_result tx = None) /\
  (forall err, fn_result tx = Err err -> r = Err err) /\
  (forall p, fn_result tx = Panic p -> r = Panic p).
Proof.
  unfold WithTx. destruct (fn_result tx) as [|err|p] eqn:Hfn.
  - destruct (commit_result tx) as [err|] eqn:Hc; cbn.
    + repeat split; try discriminate; try (intros; reflexivity).
      * intros _. apply list_elem_of_lookup. exists 2%nat. reflexivity.
      * intros [_ [=]].
    + repeat split; try discriminate; try (intros; reflexivity).
      intros _. apply list_elem_of_lookup. exists 2%nat. reflexivity.
  - cbn. repeat split; try discriminate; try (intros; congruence).
    + intros Hin. apply list_elem_of_lookup in Hin as [[|[|[|k]]] Hk]; discriminate.
    + intros [[=] _].
  - cbn. repeat split; try discriminate; try (intros; congruence).
    + intros Hin. apply list_elem_of_lookup in Hin as [[|[|[|k]]] Hk]; discriminate.
    + intros [[=] _].
Qed.


(** X5 (src/db/xsqlite/xsqlite.go, Config and Open).  [SyncMode] is
    given a default and then never read: the data source name, the
    settings of the pool, the statements that [Open] runs and the pipeline
    that it returns are the same for every [SyncMode]. *)
Theorem SyncMode_is_ignored
    (cfg : Config) (mode : string) (parent_done : bool)
    (migrations : list string) (opened : error + sqlDB) :
  dsn (with_SyncMode cfg mode) = dsn cfg /\
  pool_settings (with_SyncMode cfg mode) = pool_settings cfg /\
  Open parent_done (with_SyncMode cfg mode) migrations opened
  = Open parent_done cfg migrations opened.
Proof.
  split; [reflexivity|]. split; [reflexivity|].
  unfold Open. cbn [with_SyncMode DBPath defaults ExtraPragma QueueSize Workers].
  reflexivity.
Qed.

(** X6 (src/db/xsqlite/xsqlite.go, Open).  The busy timeout goes into the
    data source name in whole milliseconds: a positive [BusyTimeout] below
    one millisecond is sent as [busy_timeout(0)], not as the default of
    5000 that a [BusyTimeout] of zero gets. *)
Theorem busy_timeout_below_a_millisecond (cfg : Config) :
  0 < BusyTimeout cfg < Millisecond ->
  dsn cfg =
    "file:" +:+ DBPath cfg +:+
    "?_pragma=busy_timeout(0)&_pragma=journal_mode(WAL)&_pragma=foreign_keys(1)" /\
  dsn {| DBPath := DBPath cfg; Workers := Workers cfg; QueueSize := QueueSize cfg;
         BusyTimeout := 0; SyncMode := SyncMode cfg; ExtraPragma := ExtraPragma cfg |} =
    "file:" +:+ DBPath cfg +:+
    "?_pragma=busy_timeout(5000)&_pragma=journal_mode(WAL)&_pragma=foreign_keys(1)".
Proof.
  intros Hb. unfold dsn, Millisecond in *. cbn [defaults DBPath BusyTimeout].
  destruct (Z.leb_spec (BusyTimeout cfg) 0) as [Hle|_]; [lia|].
  rewrite Z.quot_small by (unfold Nanosecond in Hb; lia).
  split; reflexivity.
Qed.

Lemma busy_timeout_below_a_millisecond_witness :
  let cfg := {| DBPath := "data/app.db"; Workers := 2; QueueSize := 10;
                BusyTimeout := 500 * 1000; SyncMode := ""; ExtraPragma := [] |} in
  dsn cfg =
    "file:" +:+ DBPath cfg +:+
    "?_pragma=busy_timeout(0)&_pragma=journal_mode(WAL)&_pragma=foreign_keys(1)" /\
  dsn {| DBPath := DBPath cfg; Workers := Workers cfg; QueueSize := QueueSize cfg;
         BusyTimeout := 0; SyncMode := SyncMode cfg; ExtraPragma := ExtraPragma cfg |} =
    "file:" +:+ DBPath cfg +:+
    "?_pragma=busy_timeout(5000)&_pragma=journal_mode(WAL)&_pragma=foreign_keys(1)".
Proof.
  intros cfg.
  exact (busy_timeout_below_a_millisecond cfg (conj eq_refl eq_refl)).
Defined.
End WithTxFacts.

(** * Shutdown: no worker outlives [Close] *)

Section LiveFacts.
Context {job backend : Type}.
Variable release : backend -> option error * backend.
Variable execWithRetry : job -> prog job backend (option error).

Local Abbreviation op_step := (op_step release).
Local Abbreviation worker := (worker release execWithRetry).
Local Abbreviation caller := (caller release).
Local Abbreviation step := (step release execWithRetry).
Local Abbreviation run := (run release execWithRetry).

Implicit Types (d : DB job backend) (s : system job backend).

(** No operation of a method body touches [db.wg]. *)
Lemma op_step_wg {R} (p p' : prog job backend R) pk t d d' :
  op_step p pk t d = Next p' d' -> wg d' = wg d.
Proof.
  destruct p; simpl; intros H;
    repeat match type of H with
           | context [match ?x with _ => _ end] => destruct x
           | context [if ?x then _ else _] => destruct x
           end;
    try discriminate; injection H as <- <-; reflexivity.
Qed.

Lemma live_insert (ws : list (wstate job backend)) i w w' :
  ws !! i = Some w ->
  (length (List.filter live (<[i:=w']> ws)) + (if live w then 1 else 0)
   = length (List.filter live ws) + (if live w' then 1 else 0))%nat.
Proof.
  revert i. induction ws as [|w0 ws IH]; intros [|i] H; try discriminate.
  - injection H as ->. destruct w, w'; cbn; lia.
  - cbn in H. apply IH in H.
    change (<[S i:=w']> (w0 :: ws)) with (w0 :: <[i:=w']> ws).
    cbn [List.filter]. destruct (live w0); cbn [length]; lia.
Qed.

(** A move of a worker keeps the count: it leaves the count and [db.wg]
    alone, or it is the worker's return, which lowers both by one. *)
Lemma worker_wg w w' pk t d d' :
  worker w pk t d = Next w' d' ->
  wg d' + (if live w then 1 else 0) = wg d + (if live w' then 1 else 0).
Proof.
  destruct w as [|j p|]; [| |discriminate].
  - destruct pk; cbn.
    + destruct (ctx_done d); [|discriminate]. intros [= <- <-]. cbn. lia.
    + destruct (Chan.recv (jobs d)); [| |discriminate]; intros [= <- <-]; cbn; lia.
  - intros H. apply worker_run_next in H as [(r & -> & -> & ->)|(p' & H & ->)].
    + cbn. lia.
    + apply op_step_wg in H. cbn. lia.
Qed.

Lemma caller_wg c c' pk t d d' :
  caller c pk t d = Next c' d' -> wg d' = wg d.
Proof.
  destruct c as [p|r]; [|discriminate]. intros H.
  apply caller_run_next in H as [(r & -> & -> & ->)|(p' & H & ->)];
    [reflexivity|]. exact (op_step_wg _ _ _ _ _ _ H).
Qed.

Lemma step_wg_counts a s : wg_counts s -> wg_counts (step a s).
Proof.
  unfold wg_counts. intros Hs.
  destruct (panicked s) as [v|] eqn:Hp; [rewrite (step_panicked _ _ _ _ _ Hp); exact Hs|].
  destruct a as [k pk | k pk | dt | ].
  - destruct (workers s !! k) as [w|] eqn:Hw.
    + rewrite (step_worker _ _ _ _ _ _ Hp Hw).
      destruct (worker w pk (now s) (db s)) as [w' d'| |v] eqn:Hstep; try exact Hs.
      apply worker_wg in Hstep. pose proof (live_insert _ _ _ w' Hw) as Hl.
      cbn. destruct (live w), (live w'); lia.
    + unfold_step. rewrite Hp, Hw. exact Hs.
  - destruct (callers s !! k) as [c|] eqn:Hc.
    + rewrite (step_caller _ _ _ _ _ _ Hp Hc).
      destruct (caller c pk (now s) (db s)) as [c' d'| |v] eqn:Hstep; try exact Hs.
      apply caller_wg in Hstep. cbn. lia.
    + unfold_step. rewrite Hp, Hc. exact Hs.
  - unfold_step. rewrite Hp. destruct (0 <=? dt); exact Hs.
  - unfold_step. rewrite Hp. exact Hs.
Qed.

Lemma run_wg_counts acts s : wg_counts s -> wg_counts (run acts s).
Proof.
  revert s. induction acts as [|a acts IH]; intros s H; [exact H|].
  rewrite run_cons. apply IH. now apply step_wg_counts.
Qed.

(** With the count right, [db.wg] is zero exactly when every worker has
    returned, and then it stays zero. *)
Lemma wg_zero_returned s :
  wg_counts s -> wg (db s) = 0 -> Forall (fun w => w = WReturned) (workers s).
Proof.
  unfold wg_counts. intros Hs H0. rewrite H0 in Hs.
  induction (workers s) as [|w ws IH]; [constructor|].
  cbn in Hs. destruct w; cbn in Hs; try lia.
  constructor; [reflexivity|]. apply IH. exact Hs.
Qed.

Lemma step_wg_zero a s : wg_counts s -> wg (db s) = 0 -> wg (db (step a s)) = 0.
Proof.
  intros Hs H0. pose proof (wg_zero_returned s Hs H0) as Hall.
  destruct (panicked s) as [v|] eqn:Hp; [rewrite (step_panicked _ _ _ _ _ Hp); exact H0|].
  destruct a as [k pk | k pk | dt | ].
  - destruct (workers s !! k) as [w|] eqn:Hw.
    + rewrite (step_worker _ _ _ _ _ _ Hp Hw).
      rewrite Forall_forall in Hall.
      rewrite (Hall w) by (eapply list_elem_of_lookup_2; exact Hw). exact H0.
    + unfold_step. rewrite Hp, Hw. exact H0.
  - destruct (callers s !! k) as [c|] eqn:Hc.
    + rewrite (step_caller _ _ _ _ _ _ Hp Hc).
      destruct (caller c pk (now s) (db s)) as [c' d'| |v] eqn:Hstep; try exact H0.
      apply caller_wg in Hstep. cbn. lia.
    + unfold_step. rewrite Hp, Hc. exact H0.
  - unfold_step. rewrite Hp. destruct (0 <=? dt); exact H0.
  - unfold_step. rewrite Hp. exact H0.
Qed.

Lemma step_waited_for_workers i a s :
  waited_for_workers i s -> waited_for_workers i (step a s).
Proof.
  intros (Hs & c & b & Hc & Hin & Hpast).
  split; [apply step_wg_counts; exact Hs|].
  pose proof (step_wg_zero a s Hs) as Hzero.
  destruct (panicked s) as [v|] eqn:Hp.
  { rewrite (step_panicked _ _ _ _ _ Hp). exists c, b. auto. }
  destruct a as [k pk | k pk | dt | ].
  - exists c, b. repeat split; auto.
    destruct (workers s !! k) as [w|] eqn:Hw.
    + rewrite (step_worker _ _ _ _ _ _ Hp Hw).
      destruct (worker w pk (now s) (db s)); auto.
    + unfold_step. now rewrite Hp, Hw.
  - destruct (callers s !! k) as [ck|] eqn:Hk.
    2:{ exists c, b. unfold_step_everywhere. rewrite Hp, Hk in *. auto. }
    rewrite (step_caller _ _ _ _ _ _ Hp Hk) in *.
    destruct (caller ck pk (now s) (db s)) as [c' d'| |v] eqn:Hstep;
      try (exists c, b; auto; fail).
    destruct (decide (k = i)) as [->|Hne].
    + assert (ck = c) as -> by congruence.
      inversion Hin; subst; cbn in Hstep.
      * injection Hstep as <- <-. exists (CRun (CloseJobs (WgWait (BackendClose Return)))), false.
        cbn. split; [apply list_lookup_insert_eq; eapply lookup_lt_Some; eauto|].
        split; [constructor|discriminate].
      * destruct (Chan.close (jobs (db s))); [|discriminate].
        injection Hstep as <- <-. exists (CRun (WgWait (BackendClose Return))), true.
        cbn. split; [apply list_lookup_insert_eq; eapply lookup_lt_Some; eauto|].
        split; [constructor|discriminate].
      * destruct (Z.eqb_spec (wg (db s)) 0) as [H0|H0]; [|discriminate].
        injection Hstep as <- <-. exists (CRun (BackendClose Return)), true.
        cbn. split; [apply list_lookup_insert_eq; eapply lookup_lt_Some; eauto|].
        split; [constructor|]. intros _. exact H0.
      * destruct (release (handle (db s))) as [e h].
        injection Hstep as <- <-. exists (CRun (Return e)), true.
        cbn. split; [apply list_lookup_insert_eq; eapply lookup_lt_Some; eauto|].
        split; [constructor|]. intros _. apply Hpast. reflexivity.
      * injection Hstep as <- <-. exists (CReturned r), true.
        cbn. split; [apply list_lookup_insert_eq; eapply lookup_lt_Some; eauto|].
        split; [constructor|]. intros _. apply Hpast. reflexivity.
      * discriminate.
    + exists c, b. cbn. split; [now rewrite list_lookup_insert_ne|].
      split; [exact Hin|]. intros Hc'. specialize (Hpast Hc').
      pose proof (caller_wg _ _ _ _ _ _ Hstep) as Hwg. cbn in *. lia.
  - exists c, b. unfold_step_everywhere. rewrite Hp in *.
    destruct (0 <=? dt); auto.
  - exists c, b. unfold_step_everywhere. rewrite Hp in *. auto.
Qed.

Lemma run_waited_for_workers i acts s :
  waited_for_workers i s -> waited_for_workers i (run acts s).
Proof.
  revert s. induction acts as [|a acts IH]; intros s H; [exact H|].
  rewrite run_cons. apply IH. now apply step_waited_for_workers.
Qed.

Lemma start_wg_counts parent_done h queueSize nworkers
    (cs : list (cstate job backend)) :
  wg_counts (set_callers (start parent_done h queueSize nworkers) cs).
Proof.
  unfold wg_counts. cbn.
  assert (forall n, length (List.filter live (replicate n (@WSelect job backend))) = n)
    as Hn by (induction n as [|n IH]; cbn; [reflexivity|now rewrite IH]).
  rewrite Hn. lia.
Qed.
End LiveFacts.

(** X7 (src/db/xsqlite/xsqlite.go and src/db/xredis/redis.go, Close and
    worker).  In a pipeline that [Open] has started, whatever its callers
    do and however the goroutines are scheduled: when a call of [Close]
    has returned, every worker has returned, [db.wg] is zero and [db.jobs]
    is closed. *)
Theorem Close_returned_no_worker_left
    {job backend : Type} (release : backend -> option error * backend)
    (execWithRetry : job -> prog job backend (option error))
    (parent_done : bool) (h : backend) (queueSize nworkers : Z)
    (cs : list (cstate job backend)) (before acts : list action) (i : nat)
    (r : option error) :
  let s0 := run release execWithRetry before
              (set_callers (start parent_done h queueSize nworkers) cs) in
  let s := run release execWithRetry acts s0 in
  callers s0 !! i = Some (CRun Close) ->
  callers s !! i = Some (CReturned r) ->
  Forall (fun w => w = WReturned) (workers s) /\
  wg (db s) = 0 /\ Chan.closed (jobs (db s)) = true.
Proof.
  intros s0 s Hi Hr.
  assert (waited_for_workers i s0) as Hw.
  { split.
    - apply run_wg_counts, start_wg_counts.
    - exists (CRun Close), false.
      split; [exact Hi|]. split; [constructor|discriminate]. }
  apply (run_waited_for_workers release execWithRetry i acts) in Hw
    as (Hcount & c & b & Hc & _ & Hpast).
  fold s in Hcount, Hc, Hpast. rewrite Hr in Hc. injection Hc as <-.
  specialize (Hpast eq_refl).
  split; [apply wg_zero_returned; assumption|]. split; [exact Hpast|].
  exact (Close_returned_closed release execWithRetry i acts _ r Hi Hr).
Qed.

Lemma Close_returned_no_worker_left_witness :
  let s0 := xsqlite.run [ACaller 0 PickOther; ACaller 0 PickOther; ACaller 0 PickOther]
              (set_callers (start false (Runs.sqldb Runs.ok) 4 2)
                 [CRun Runs.burst_then_close]) in
  let s := xsqlite.run
             ([ACaller 0 PickOther; ACaller 0 PickOther;
               AWorker 0 PickDone; AWorker 1 PickDone;
               ACaller 0 PickOther; ACaller 0 PickOther; ACaller 0 PickOther]) s0 in
  Forall (fun w => w = WReturned) (workers s) /\
  wg (db s) = 0 /\ Chan.closed (jobs (db s)) = true.
Proof.
  intros s0 s.
  exact (Close_returned_no_worker_left xsqlite.sqlClose xsqlite.execWithRetry
           false (Runs.sqldb Runs.ok) 4 2 [CRun Runs.burst_then_close]
           [ACaller 0 PickOther; ACaller 0 PickOther; ACaller 0 PickOther]
           [ACaller 0 PickOther; ACaller 0 PickOther;
            AWorker 0 PickDone; AWorker 1 PickDone;
            ACaller 0 PickOther; ACaller 0 PickOther; ACaller 0 PickOther]
           0 None eq_refl eq_refl).
Defined.

(** * [EnqueueMany] and the bound for xredis *)

(** X8 (src/db/xsqlite/xsqlite.go, EnqueueMany).  While the queue is open
    and has room for all of them, [EnqueueMany] takes one step for each
    argument list and appends one job for each to the queue, in the order
    of the call, each with the query and a counter of 0; nothing else
    changes. *)
Theorem EnqueueMany_in_order
    (s : system xsqlite.job xsqlite.sqlDB) (i : nat) (query : string)
    (arglist : list (list xsqlite.any))
    (rest : prog xsqlite.job xsqlite.sqlDB (option error)) (pk : pick) :
  panicked s = None ->
  callers s !! i = Some (CRun (xsqlite.EnqueueMany query arglist ;; rest)) ->
  Chan.closed (jobs (db s)) = false ->
  Chan.len (jobs (db s)) + Z.of_nat (length arglist) <= Chan.cap (jobs (db s)) ->
  let s' := xsqlite.run (replicate (length arglist) (ACaller i pk)) s in
  callers s' = <[i := CRun rest]> (callers s) /\
  Chan.buf (jobs (db s')) =
    Chan.buf (jobs (db s)) ++
    ((fun a => {| xsqlite.query := query; xsqlite.args := a; xsqlite.tries := 0 |})
       <$> arglist) /\
  Chan.closed (jobs (db s')) = false /\
  workers s' = workers s /\ panicked s' = None /\
  handle (db s') = handle (db s).
Proof.
  revert s. induction arglist as [|a arglist IH]; intros s Hp Hc Hcl Hroom; cbv zeta.
  - cbn [length replicate]. unfold xsqlite.run, run. cbn [fold_left fmap list_fmap].
    rewrite app_nil_r. repeat split; try assumption.
    symmetry. apply list_insert_id. exact Hc.
  - cbn [length replicate]. unfold xsqlite.run. rewrite run_cons.
    change (xsqlite.EnqueueMany query (a :: arglist) ;; rest)
      with (Send {| xsqlite.query := query; xsqlite.args := a; xsqlite.tries := 0 |}
              (xsqlite.EnqueueMany query arglist ;; rest)) in Hc.
    assert (Chan.full (jobs (db s)) = false) as Hfull.
    { unfold Chan.full. apply Z.leb_gt. cbn [length] in Hroom. lia. }
    rewrite (send_room_step _ _ _ _ _ _ _ Hp Hc Hcl Hfull).
    set (s1 := set_db _ _).
    destruct (IH s1) as (H1 & H2 & H3 & H4 & H5 & H6).
    + exact Hp.
    + cbn. apply list_lookup_insert_eq. eapply lookup_lt_Some; exact Hc.
    + exact Hcl.
    + cbn -[Z.of_nat]. unfold Chan.len in *. cbn -[Z.of_nat] in *.
      rewrite length_app. cbn [length] in *. lia.
    + fold (xsqlite.run (replicate (length arglist) (ACaller i pk)) s1).
      rewrite H1, H2, H3, H4, H5, H6. cbn. rewrite list_insert_insert_eq, <- app_assoc.
      repeat split.
Qed.

Lemma EnqueueMany_in_order_witness :
  let s : system xsqlite.job xsqlite.sqlDB :=
    set_callers (start false (Runs.sqldb Runs.ok) 3 1)
      [CRun (xsqlite.EnqueueMany Runs.insert [[xsqlite.Int 1]; [xsqlite.Int 2]] ;;
             xsqlite.Close)] in
  let s' := xsqlite.run (replicate 2 (ACaller 0 PickOther)) s in
  callers s' = <[0%nat := CRun xsqlite.Close]> (callers s) /\
  Chan.buf (jobs (db s')) =
    Chan.buf (jobs (db s)) ++
    ((fun a => {| xsqlite.query := Runs.insert; xsqlite.args := a; xsqlite.tries := 0 |})
       <$> [[xsqlite.Int 1]; [xsqlite.Int 2]]) /\
  Chan.closed (jobs (db s')) = false /\
  workers s' = workers s /\ panicked s' = None /\
  handle (db s') = handle (db s).
Proof.
  intros s.
  exact (EnqueueMany_in_order s 0 Runs.insert [[xsqlite.Int 1]; [xsqlite.Int 2]]
           xsqlite.Close PickOther eq_refl eq_refl eq_refl ltac:(vm_compute; discriminate)).
Defined.



(** * Package xmysql *)

Section MysqlFacts.
Import xmysql.

Lemma xmysql_submits_inv (j j' : job) :
  submits (execWithRetry j) j' ->
  tries j < 5 /\
  j' = {| query := query j; args := args j; tries := wrap64 (tries j + 1) |}.
Proof.
  unfold execWithRetry, execOnce. intros H.
  inversion H as [ | | f k e j0 He | | | | | | | | | ]; subst; clear H.
  simpl in He. destruct e as [e|]; [|inversion He].
  destruct (tries j <? 5) eqn:Hlt; [|inversion He].
  apply Z.ltb_lt in Hlt. split; [exact Hlt|].
  inversion He as [ | | | w k t j0 Ht | | | | | | | | ]; subst; clear He.
  inversion Ht as [ | | | | t0 k c j0 Hc | | | | | | | ]; subst; clear Ht.
  destruct c; simpl in Hc.
  - inversion Hc as [ | | | | | k j0 Hk | | | | | | ]; subst. inversion Hk.
  - inversion Hc as [ | | | | | | j1 k j0 Hk | | | | | ]; subst;
      [reflexivity|inversion Hk].
Qed.

(** An error of the migration loop says so. *)
Lemma run_migrations_error (migrations : list string) (h h' : xsqlite.sqlDB) e :
  xsqlite.run_migrations migrations h = (Err e, h') ->
  exists err, e = "migration failed: " +:+ err.
Proof.
  revert h. induction migrations as [|m rest IH]; intros h; cbn [xsqlite.run_migrations].
  - discriminate.
  - destruct (xsqlite.ExecContext None m [] h) as [[ | err | v] h1].
    + apply IH.
    + intros [= <- _]. eexists. reflexivity.
    + discriminate.
Qed.

(** [SetMaxIdleConns] with a positive argument on a limited pool: the
    smaller of the argument and the limit. *)
Lemma SetMaxIdleConns_limited (n : Z) (p : pool) :
  0 < n -> 0 < maxOpen p ->
  maxOpen (SetMaxIdleConns n p) = maxOpen p /\
  maxIdleConns (SetMaxIdleConns n p) = Z.min n (maxOpen p) /\
  maxLifetime (SetMaxIdleConns n p) = maxLifetime p.
Proof.
  intros Hn Ho. unfold SetMaxIdleConns, maxIdleConns.
  cbn [maxOpen maxIdleCount maxLifetime].
  replace (0 <? n) with true by (symmetry; apply Z.ltb_lt; lia).
  replace (n =? 0) with false by (symmetry; apply Z.eqb_neq; lia).
  replace (n <? 0) with false by (symmetry; apply Z.ltb_ge; lia).
  replace (0 <? maxOpen p) with true by (symmetry; apply Z.ltb_lt; lia).
  cbn [andb].
  destruct (Z.ltb_spec (maxOpen p) n); cbn [maxOpen maxIdleCount maxLifetime].
  - replace (maxOpen p =? 0) with false by (symmetry; apply Z.eqb_neq; lia).
    replace (maxOpen p <? 0) with false by (symmetry; apply Z.ltb_ge; lia).
    repeat split; lia.
  - replace (0 <? n) with true by (symmetry; apply Z.ltb_lt; lia).
    replace (n =? 0) with false by (symmetry; apply Z.eqb_neq; lia).
    replace (n <? 0) with false by (symmetry; apply Z.ltb_ge; lia).
    repeat split; lia.
Qed.

Lemma SetMaxOpenConns_new (n : Z) :
  0 < n ->
  maxOpen (SetMaxOpenConns n new_pool) = n /\
  maxLifetime (SetMaxOpenConns n new_pool) = 0.
Proof.
  intros Hn. unfold SetMaxOpenConns, new_pool.
  cbn [maxOpen maxIdleCount maxLifetime].
  destruct (Z.ltb_spec n 0) as [|_]; [lia|].
  match goal with |- context [if ?c then _ else _] => destruct c end.
  - destruct (SetMaxIdleConns_limited n
                {| maxOpen := n; maxIdleCount := 0; maxLifetime := 0 |} Hn Hn)
      as (-> & _ & ->). split; reflexivity.
  - split; reflexivity.
Qed.

(** The three setters of [Open] on a new pool, for positive limits. *)
Lemma pool_limits (open idle : Z) (life : Duration) :
  0 < open -> 0 < idle ->
  let p := SetConnMaxLifetime life
             (SetMaxIdleConns idle (SetMaxOpenConns open new_pool)) in
  maxOpen p = open /\ maxIdleConns p = Z.min idle open /\
  maxLifetime p = Z.max 0 life.
Proof.
  intros Ho Hi.
  destruct (SetMaxOpenConns_new open Ho) as (Hopen & _).
  destruct (SetMaxIdleConns_limited idle (SetMaxOpenConns open new_pool) Hi)
    as (Ho' & Hi' & _); [lia|].
  rewrite Hopen in Ho', Hi'.
  unfold SetConnMaxLifetime, maxIdleConns in *.
  cbn [maxOpen maxIdleCount maxLifetime].
  split; [exact Ho'|]. split; [exact Hi'|].
  destruct (Z.ltb_spec life 0); lia.
Qed.

(** X10 (src/uuid/uuid.go lines 190-242, xmysql.Open).  When [Open]
    returns a pipeline, the DSN was not empty and the worker count and the
    queue size are positive.  The pool is limited to [MaxOpen] open
    connections (20 when the configuration gives none), and it keeps the
    smaller of [MaxIdle] and [MaxOpen] idle connections, [MaxIdle] being
    the worker count in use when the configuration gives none: both limits
    are positive, so the pool is never unlimited, and the idle limit is the
    worker count only when that does not exceed [MaxOpen].  The lifetime of
    a connection is [MaxLife], unlimited when that is negative.  The
    handle has run the migrations in their order; and in every state that
    the pipeline reaches the queue holds at most its size in jobs and the
    workers at most one each. *)
Theorem xmysql_Open_opened
    (parent_done : bool) (cfg : Config) (migrations : list string)
    (sqldb : xsqlite.sqlDB) (s : system job xsqlite.sqlDB) (p : pool)
    (cs : list (cstate job xsqlite.sqlDB)) (acts : list action) :
  Open parent_done cfg migrations (inr sqldb) = Opened s p ->
  let s' := run acts (set_callers s cs) in
  DSN cfg <> "" /\
  0 < Workers (defaults cfg) /\ 0 < QueueSize (defaults cfg) /\
  maxOpen p = MaxOpen (defaults cfg) /\ 0 < maxOpen p /\
  maxIdleConns p = Z.min (MaxIdle (defaults cfg)) (MaxOpen (defaults cfg)) /\
  0 < maxIdleConns p <= maxOpen p /\
  (MaxIdle cfg <= 0 ->
   maxIdleConns p = Z.min (Workers (defaults cfg)) (maxOpen p)) /\
  maxLifetime p = Z.max 0 (MaxLife cfg) /\
  xsqlite.calls (handle (db s)) =
    xsqlite.calls sqldb ++ ((fun m => (m, [])) <$> migrations) /\
  xsqlite.closes (handle (db s)) = xsqlite.closes sqldb /\
  Z.of_nat (length (workers s')) = Workers (defaults cfg) /\
  Chan.len (jobs (db s')) <= QueueSize (defaults cfg) /\
  Z.of_nat (length (concat (map held (workers s')))) <= Workers (defaults cfg).
Proof.
  unfold Open. destruct (decide (DSN cfg = "")) as [|Hdsn]; [discriminate|].
  destruct (xsqlite.run_migrations _ sqldb) as [[ | e | v] h1] eqn:Hm; try discriminate.
  intros [= <- <-]. cbv zeta.
  apply run_migrations_done in Hm as (Hc & Hcl & _).
  assert (0 < Workers (defaults cfg)) as Hw
    by (cbn; destruct (Z.leb_spec (Workers cfg) 0); lia).
  assert (0 < QueueSize (defaults cfg)) as Hq
    by (cbn; destruct (Z.leb_spec (QueueSize cfg) 0); lia).
  assert (0 < MaxOpen (defaults cfg)) as Ho
    by (cbn; destruct (Z.leb_spec (MaxOpen cfg) 0); lia).
  assert (0 < MaxIdle (defaults cfg)) as Hi
    by (cbn in Hw |- *; destruct (Z.leb_spec (MaxIdle cfg) 0); lia).
  assert (MaxIdle cfg <= 0 -> MaxIdle (defaults cfg) = Workers (defaults cfg)) as Hdef
    by (intros Hidle; cbn; destruct (Z.leb_spec (MaxIdle cfg) 0); [reflexivity|lia]).
  assert (MaxLife (defaults cfg) = MaxLife cfg) as Hlife by reflexivity.
  unfold run.
  destruct (in_flight_bound xsqlite.sqlClose execWithRetry parent_done h1
              (QueueSize (defaults cfg)) (Workers (defaults cfg)) cs acts)
    as (Hb & Hh & _); [lia|lia|].
  rewrite run_workers_length. cbn [workers set_callers start].
  rewrite length_replicate.
  destruct (pool_limits (MaxOpen (defaults cfg)) (MaxIdle (defaults cfg))
              (MaxLife cfg) Ho Hi) as (Hpo & Hpi & Hpl).
  set (p := SetConnMaxLifetime _ _) in *.
  split; [exact Hdsn|]. split; [exact Hw|]. split; [exact Hq|].
  split; [exact Hpo|]. split; [lia|]. split; [exact Hpi|]. split; [lia|].
  split; [intros Hidle; rewrite Hpi, Hpo, (Hdef Hidle); reflexivity|].
  split; [exact Hpl|].
  split; [exact Hc|]. split; [exact Hcl|].
  split; [|split; [exact Hb|exact Hh]].
  cbn [defaults Workers] in Hw |- *. lia.
Qed.

Lemma xmysql_Open_opened_witness :
  let cfg := {| DSN := "root:secret@tcp(localhost:3306)/app"; Workers := 30;
                QueueSize := 2; MaxOpen := 0; MaxIdle := 0; MaxLife := -1 |} in
  let s : system job xsqlite.sqlDB :=
    start false {| xsqlite.driver := Runs.ok;
                   xsqlite.calls := [("CREATE TABLE t(id INT)", [])];
                   xsqlite.close_result := None; xsqlite.closes := 0 |} 2 30 in
  let p := {| maxOpen := 20; maxIdleCount := 20; maxLifetime := 0 |} in
  let s' := run [ACaller 0 PickOther; AWorker 3 PickOther]
              (set_callers s [CRun (Enqueue "INSERT INTO t VALUES(?)" [xsqlite.Int 1] ;;
                                    Close)]) in
  Open false cfg ["CREATE TABLE t(id INT)"] (inr (Runs.sqldb Runs.ok)) = Opened s p /\
  DSN cfg <> "" /\
  0 < Workers (defaults cfg) /\ 0 < QueueSize (defaults cfg) /\
  maxOpen p = MaxOpen (defaults cfg) /\ 0 < maxOpen p /\
  maxIdleConns p = Z.min (MaxIdle (defaults cfg)) (MaxOpen (defaults cfg)) /\
  0 < maxIdleConns p <= maxOpen p /\
  (MaxIdle cfg <= 0 ->
   maxIdleConns p = Z.min (Workers (defaults cfg)) (maxOpen p)) /\
  maxLifetime p = Z.max 0 (MaxLife cfg) /\
  xsqlite.calls (handle (db s)) =
    xsqlite.calls (Runs.sqldb Runs.ok)
      ++ ((fun m => (m, [])) <$> ["CREATE TABLE t(id INT)"]) /\
  xsqlite.closes (handle (db s)) = xsqlite.closes (Runs.sqldb Runs.ok) /\
  Z.of_nat (length (workers s')) = Workers (defaults cfg) /\
  Chan.len (jobs (db s')) <= QueueSize (defaults cfg) /\
  Z.of_nat (length (concat (map held (workers s')))) <= Workers (defaults cfg).
Proof.
  intros cfg s p.
  split; [reflexivity|].
  exact (xmysql_Open_opened false cfg ["CREATE TABLE t(id INT)"] (Runs.sqldb Runs.ok)
           s p [CRun (Enqueue "INSERT INTO t VALUES(?)" [xsqlite.Int 1] ;; Close)]
           [ACaller 0 PickOther; AWorker 3 PickOther] eq_refl).
Defined.

(** X11 (src/uuid/uuid.go lines 259-290, xmysql execWithRetry and
    Enqueue).  In every state that the pipeline of xmysql reaches when its
    callers offer jobs with counter 0 (as [Enqueue] does) and payloads
    from a given list, every job in the queue or in the hands of a worker
    has a counter from 0 to 5 and a payload of that list: a retry changes
    the counter only, and no job is offered a sixth time. *)
Theorem xmysql_retry_invariant parent_done h queueSize nworkers
    (cs : list (cstate job xsqlite.sqlDB)) acts
    (payloads : list (string * list xsqlite.any)) :
  Forall (caller_jobs_in
            (fun j => tries j = 0 /\ (query j, args j) ∈ payloads)) cs ->
  Forall (fun j => 0 <= tries j <= maxAttempts /\ (query j, args j) ∈ payloads)
    (in_flight (run acts (set_callers (start parent_done h queueSize nworkers) cs))).
Proof.
  intros Hcs. apply jobs_in_in_flight. apply run_jobs_in.
  - intros j j' [Hj Hin] Hs. apply xmysql_submits_inv in Hs as [Hlt ->].
    cbn [tries query args]. split; [|exact Hin].
    unfold maxAttempts in *. rewrite tries_incr; unfold int64; lia.
  - apply start_jobs_in. eapply Forall_impl; [exact Hcs|].
    intros [q|r]; cbn; [|auto]. intros Hq j Hj. destruct (Hq j Hj) as [-> Hin].
    split; [unfold maxAttempts; lia|exact Hin].
Qed.

Lemma xmysql_retry_invariant_witness :
  Forall (fun j => 0 <= tries j <= maxAttempts /\
                   (query j, args j) ∈ [("INSERT INTO t VALUES(?)", [xsqlite.Int 1])])
    (in_flight
       (run [ACaller 0 PickOther; AWorker 0 PickOther; AWorker 0 PickOther;
             AWorker 0 PickOther; ATick (100 * Millisecond); AWorker 0 PickOther;
             AWorker 0 PickOther]
          (set_callers (start false (Runs.sqldb Runs.failing) 2 1)
             [CRun (Enqueue "INSERT INTO t VALUES(?)" [xsqlite.Int 1] ;; mret None)]))).
Proof.
  refine (xmysql_retry_invariant false (Runs.sqldb Runs.failing) 2 1
            [CRun (Enqueue "INSERT INTO t VALUES(?)" [xsqlite.Int 1] ;; mret None)]
            [ACaller 0 PickOther; AWorker 0 PickOther; AWorker 0 PickOther;
             AWorker 0 PickOther; ATick (100 * Millisecond); AWorker 0 PickOther;
             AWorker 0 PickOther]
            [("INSERT INTO t VALUES(?)", [xsqlite.Int 1])] _).
  constructor; [|constructor]. cbn. intros j Hj.
  inversion Hj; subst.
  - split; [reflexivity|]. cbn. apply list_elem_of_singleton. reflexivity.
  - match goal with H : submits (mret None) _ |- _ => inversion H end.
Defined.

Lemma append_assoc (a b c : string) : (a +:+ b) +:+ c = a +:+ b +:+ c.
Proof.
  induction a as [|x a IH]; [reflexivity|].
  change (String x ((a +:+ b) +:+ c) = String x (a +:+ b +:+ c)).
  rewrite IH. reflexivity.
Qed.

(** X12 (src/uuid/uuid.go lines 190-193 and 311-324, xmysql.Open and
    BuildMySQLDSN).  A DSN that [BuildMySQLDSN] has built, from whatever
    parts, passes the check of [Open]: once [sql.Open] has given a handle,
    the only error that [Open] returns is one of a migration. *)
Theorem BuildMySQLDSN_accepted
    (user password host : string) (port : Z) (dbname charset : string)
    (parseTime : bool) (loc : string)
    (parent_done : bool) (workers queueSize maxOpen maxIdle : Z) (maxLife : Duration)
    (migrations : list string) (sqldb : xsqlite.sqlDB) :
  match
    Open parent_done
      {| DSN := BuildMySQLDSN user password host port dbname charset parseTime loc;
         Workers := workers; QueueSize := queueSize; MaxOpen := maxOpen;
         MaxIdle := maxIdle; MaxLife := maxLife |}
      migrations (inr sqldb)
  with
  | OpenError e => exists err, e = "migration failed: " +:+ err
  | _ => True
  end.
Proof.
  unfold Open. cbn [DSN].
  destruct (decide (BuildMySQLDSN user password host port dbname charset parseTime loc
                    = "")) as [Hempty|_].
  - exfalso. unfold BuildMySQLDSN in Hempty.
    destruct user; discriminate Hempty.
  - destruct (xsqlite.run_migrations migrations sqldb) as [[ | e | v] h] eqn:Hm;
      [exact I| |exact I].
    exact (run_migrations_error _ _ _ _ Hm).
Qed.

(** X13 (src/uuid/uuid.go lines 311-324, BuildMySQLDSN).  An empty
    charset stands for utf8mb4 and an empty location for Local; and the
    parts are joined as they are, without escaping, so that a colon can
    move between the user and the password without changing the DSN. *)
Theorem BuildMySQLDSN_joins_parts
    (user password host : string) (port : Z) (dbname : string) (parseTime : bool)
    (middle : string) :
  BuildMySQLDSN user password host port dbname "" parseTime ""
  = BuildMySQLDSN user password host port dbname "utf8mb4" parseTime "Local" /\
  BuildMySQLDSN (user +:+ ":" +:+ middle) password host port dbname "" parseTime ""
  = BuildMySQLDSN user (middle +:+ ":" +:+ password) host port dbname "" parseTime "".
Proof.
  split; [reflexivity|].
  unfold BuildMySQLDSN. rewrite !append_assoc. reflexivity.
Qed.
End MysqlFacts.

(** * Package concurrency: WorkerPool and Semaphore *)

Section PoolFacts.
Import concurrency.

Local Abbreviation wg := concurrency.wg.
Local Abbreviation callers := concurrency.callers.

Lemma pool_run_cons a acts p : pool_run (a :: acts) p = pool_run acts (pool_step a p).
Proof. reflexivity. Qed.

Lemma pool_run_app acts acts' p :
  pool_run (acts ++ acts') p = pool_run acts' (pool_run acts p).
Proof. unfold pool_run. apply fold_left_app. Qed.

Lemma filter_app_length {A} (f : A -> bool) (l l' : list A) :
  length (List.filter f (l ++ l')) =
  (length (List.filter f l) + length (List.filter f l'))%nat.
Proof. rewrite List.filter_app, length_app. reflexivity. Qed.

Lemma filter_insert_length {A} (f : A -> bool) (l : list A) k x y :
  l !! k = Some x ->
  (length (List.filter f (<[k:=y]> l)) + (if f x then 1 else 0)
   = length (List.filter f l) + (if f y then 1 else 0))%nat.
Proof.
  revert k. induction l as [|z l IH]; intros [|k] H; try discriminate.
  - injection H as ->. cbn. destruct (f x), (f y); cbn; lia.
  - cbn in H. apply IH in H.
    change (<[S k:=y]> (z :: l)) with (z :: <[k:=y]> l).
    cbn [List.filter]. destruct (f z); cbn [length]; lia.
Qed.

Lemma pool_step_safe a p : pool_safe p -> pool_safe (pool_step a p).
Proof.
  unfold pool_safe, pool_step. intros [Hc Hl].
  destruct (crashed p) as [v|] eqn:Hcr; [rewrite Hcr; auto|].
  destruct a as [job|job i| |i|k].
  - destruct (Chan.send (jobChan p) job); cbn; rewrite ?Hcr; auto.
  - destruct (Chan.closed (jobChan p)); [cbn; auto|].
    destruct (dispatchers p !! i) as [[|job'|]|]; try (rewrite Hcr; auto; fail).
    destruct (Chan.buf (jobChan p)); cbn; rewrite ?Hcr; auto.
  - destruct (Chan.close (jobChan p)); cbn; rewrite ?Hcr; auto.
  - destruct (dispatchers p !! i) as [[|job|]|]; try (rewrite Hcr; auto; fail).
    + destruct (Chan.recv (jobChan p)); cbn; rewrite ?Hcr; auto.
    + cbn. split; [exact I|]. rewrite filter_app_length. cbn. lia.
  - destruct (started p !! k) as [[job [|]]|] eqn:Hk; try (rewrite Hcr; auto; fail).
    unfold SafeGo, recover. cbn.  split; [exact I|].
    pose proof (filter_insert_length recovered _ _ _ (job, true) Hk) as Hf.
    change (recovered (job, false)) with false in Hf.
    change (recovered (job, true))
      with (match job tt with Some _ => true | None => false end) in Hf.
    destruct (job tt) as [v|] eqn:Hj.
    + rewrite length_app. cbn [length]. lia.
    + lia.
Qed.

Lemma dispatching_insert (ds : list dstate) i d d' :
  ds !! i = Some d ->
  concat (dispatching <$> <[i:=d']> ds) ++ dispatching d
  ≡ₚ concat (dispatching <$> ds) ++ dispatching d'.
Proof.
  revert i. induction ds as [|d0 ds IH]; intros [|i] H; try discriminate.
  - injection H as ->. cbn [fmap list_fmap concat insert list_insert].
    rewrite (Permutation_app_comm (dispatching d' ++ _) (dispatching d)).
    rewrite (Permutation_app_comm (dispatching d') (concat _)).
    rewrite app_assoc. reflexivity.
  - cbn in H. apply IH in H. cbn [fmap list_fmap concat].
    change (<[S i:=d']> (d0 :: ds)) with (d0 :: <[i:=d']> ds).
    cbn [fmap list_fmap concat]. rewrite <- !app_assoc, H. reflexivity.
Qed.

Lemma elem_of_insert_returned (ds : list dstate) i d :
  DReturned ∈ <[i:=d]> ds -> d <> DReturned -> DReturned ∈ ds.
Proof.
  intros Hin Hd. apply list_elem_of_lookup in Hin as [k Hk].
  destruct (decide (k = i)) as [->|Hne].
  - destruct (decide (i < length ds)%nat) as [Hlt|Hge].
    + rewrite list_lookup_insert_eq in Hk by exact Hlt. congruence.
    + rewrite list_insert_ge in Hk by lia. eapply list_elem_of_lookup_2; exact Hk.
  - rewrite list_lookup_insert_ne in Hk by congruence.
    eapply list_elem_of_lookup_2; exact Hk.
Qed.

Lemma pool_step_inv a p : pool_inv p -> pool_inv (pool_step a p).
Proof.
  unfold pool_step. intros Hinv. pose proof Hinv as (Hw & Hr & Hs).
  destruct (crashed p) as [v|] eqn:Hcr; [exact Hinv|].
  destruct a as [job|job i| |i|k].
  - unfold Chan.send.
    destruct (Chan.closed (jobChan p)) eqn:Hcl; [exact Hinv|].
    destruct (Chan.full (jobChan p)); [exact Hinv|].
    unfold pool_inv; cbn. split; [exact Hw|]. split.
    + intros Hin. destruct (Hr Hin) as [Hc _]. congruence.
    + rewrite Hs. solve_Permutation.
  - destruct (Chan.closed (jobChan p)) eqn:Hcl; [exact Hinv|].
    destruct (dispatchers p !! i) as [[|job'|]|] eqn:Hi;
      [|exact Hinv|exact Hinv|exact Hinv].
    destruct (Chan.buf (jobChan p)) as [|job' rest] eqn:Hbuf; [|exact Hinv].
    unfold pool_inv; cbn. split; [|split].
    + pose proof (filter_insert_length ranging _ _ _ (DSpawn job) Hi) as Hf.
      cbn in Hf. lia.
    + intros Hin. apply elem_of_insert_returned in Hin; [|discriminate].
      destruct (Hr Hin) as [Hc _]. congruence.
    + pose proof (dispatching_insert _ _ _ (DSpawn job) Hi) as Hd.
      cbn in Hd. rewrite app_nil_r in Hd. rewrite Hs, Hd, Hbuf. solve_Permutation.
  - unfold Chan.close.
    destruct (Chan.closed (jobChan p)) eqn:Hcl; [exact Hinv|].
    unfold pool_inv; cbn. split; [exact Hw|]. split; [|exact Hs].
    intros Hin. destruct (Hr Hin) as [Hc _]. congruence.
  - destruct (dispatchers p !! i) as [[|job|]|] eqn:Hi;
      [| |exact Hinv|exact Hinv].
    + unfold Chan.recv.
      destruct (Chan.buf (jobChan p)) as [|job rest] eqn:Hbuf.
      * destruct (Chan.closed (jobChan p)) eqn:Hcl; [|exact Hinv].
        unfold pool_inv; cbn. split; [|split].
        -- pose proof (filter_insert_length ranging _ _ _ DReturned Hi) as Hf.
           cbn in Hf. lia.
        -- intros _. split; assumption.
        -- pose proof (dispatching_insert _ _ _ DReturned Hi) as Hd.
           cbn in Hd. rewrite !app_nil_r in Hd. rewrite Hs, Hd, Hbuf. reflexivity.
      * unfold pool_inv; cbn. split; [|split].
        -- pose proof (filter_insert_length ranging _ _ _ (DSpawn job) Hi) as Hf.
           cbn in Hf. lia.
        -- intros Hin. apply elem_of_insert_returned in Hin; [|discriminate].
           destruct (Hr Hin) as [_ He]. congruence.
        -- pose proof (dispatching_insert _ _ _ (DSpawn job) Hi) as Hd.
           cbn in Hd. rewrite app_nil_r in Hd. rewrite Hs, Hd. solve_Permutation.
    + unfold pool_inv; cbn. split; [|split].
      * pose proof (filter_insert_length ranging _ _ _ DRange Hi) as Hf.
        cbn in Hf. lia.
      * intros Hin. apply elem_of_insert_returned in Hin; [|discriminate].
        exact (Hr Hin).
      * pose proof (dispatching_insert _ _ _ DRange Hi) as Hd.
        cbn in Hd. rewrite app_nil_r in Hd.
        rewrite Hs, <- Hd, fmap_app. cbn. solve_Permutation.
  - destruct (started p !! k) as [[job [|]]|] eqn:Hk;
      [exact Hinv| |exact Hinv].
    unfold SafeGo, recover, pool_inv. cbn. split; [exact Hw|]. split; [exact Hr|].
    rewrite Hs. apply Permutation_app_tail.
    rewrite list_fmap_insert. cbn.
    rewrite list_insert_id; [reflexivity|].
    rewrite list_lookup_fmap, Hk. reflexivity.
Qed.

Lemma pool_run_inv acts p : pool_inv p -> pool_inv (pool_run acts p).
Proof.
  revert p. induction acts as [|a acts IH]; intros p H; [exact H|].
  rewrite pool_run_cons. apply IH, pool_step_inv, H.
Qed.

Lemma pool_run_safe acts p : pool_safe p -> pool_safe (pool_run acts p).
Proof.
  revert p. induction acts as [|a acts IH]; intros p H; [exact H|].
  rewrite pool_run_cons. apply IH, pool_step_safe, H.
Qed.

Lemma ranging_replicate n : length (List.filter ranging (replicate n DRange)) = n.
Proof. induction n as [|n IH]; cbn; [reflexivity|now rewrite IH]. Qed.

(** The pool that [NewWorkerPool] returns when [make] does not panic. *)
Lemma NewWorkerPool_made workerCount jobQueueSize :
  0 <= jobQueueSize ->
  NewWorkerPool workerCount jobQueueSize =
  {| jobChan := Chan.make jobQueueSize; wg := Z.max 0 workerCount;
     dispatchers := replicate (Z.to_nat workerCount) DRange;
     started := []; submitted := []; logs := []; crashed := None |}.
Proof.
  intros Hq. unfold NewWorkerPool.
  destruct (Z.ltb_spec jobQueueSize 0); [lia|reflexivity].
Qed.

Lemma NewWorkerPool_inv workerCount jobQueueSize :
  pool_inv (NewWorkerPool workerCount jobQueueSize).
Proof.
  unfold NewWorkerPool. destruct (jobQueueSize <? 0).
  - split; [|split]; cbn; [reflexivity| |reflexivity].
    intros Hin. apply elem_of_nil in Hin as [].
  - split; [|split]; cbn.
    + rewrite ranging_replicate. lia.
    + intros Hin. apply elem_of_replicate in Hin as [[=] _].
    + induction (Z.to_nat workerCount) as [|n IH]; cbn; [reflexivity|exact IH].
Qed.

Lemma pool_step_length a p :
  length (dispatchers (pool_step a p)) = length (dispatchers p).
Proof.
  unfold pool_step. destruct (crashed p); [reflexivity|].
  destruct a as [job|job i| |i|k].
  - destruct (Chan.send (jobChan p) job); reflexivity.
  - destruct (Chan.closed (jobChan p)); [reflexivity|].
    destruct (dispatchers p !! i) as [[|job'|]|]; try reflexivity.
    destruct (Chan.buf (jobChan p)); cbn; rewrite ?length_insert; reflexivity.
  - destruct (Chan.close (jobChan p)); reflexivity.
  - destruct (dispatchers p !! i) as [[|job|]|]; try reflexivity.
    + destruct (Chan.recv (jobChan p)); cbn; rewrite ?length_insert; reflexivity.
    + cbn. apply length_insert.
  - destruct (started p !! k) as [[job [|]]|]; reflexivity.
Qed.

Lemma pool_run_length acts p :
  length (dispatchers (pool_run acts p)) = length (dispatchers p).
Proof.
  revert p. induction acts as [|a acts IH]; intros p; [reflexivity|].
  rewrite pool_run_cons, IH. apply pool_step_length.
Qed.

Lemma none_ranging (ds : list dstate) :
  length (List.filter ranging ds) = 0%nat ->
  Forall (fun d => d = DReturned) ds /\ concat (dispatching <$> ds) = [].
Proof.
  induction ds as [|d ds IH]; [split; [constructor|reflexivity]|].
  destruct d; cbn; try discriminate.
  intros H. destruct (IH H) as [Hall Hc]. split; [constructor; auto|exact Hc].
Qed.

Lemma NewWorkerPool_safe workerCount jobQueueSize :
  0 <= jobQueueSize -> pool_safe (NewWorkerPool workerCount jobQueueSize).
Proof.
  intros Hq. rewrite NewWorkerPool_made by exact Hq.
  split; [exact I|reflexivity].
Qed.

(** X14 (src/concurrency/concurrency.go, NewWorkerPool, Submit, Close and
    SafeGo).  However a pool is used and scheduled, no panic of a job ends
    the process: the only panics that do are those of a send on, or a
    second close of, the closed channel; and the log holds one line for
    each job that has ended in a panic. *)
Theorem WorkerPool_recovers_job_panics
    (workerCount jobQueueSize : Z) (acts : list pool_action) :
  0 < jobQueueSize ->
  let p := pool_run acts (NewWorkerPool workerCount jobQueueSize) in
  match crashed p with
  | Some v => v = "send on closed channel" \/ v = "close of closed channel"
  | None => True
  end /\
  length (logs p) = length (List.filter recovered (started p)).
Proof.
  intros Hq p.
  destruct (pool_run_safe acts _
              (NewWorkerPool_safe workerCount jobQueueSize ltac:(lia)))
    as [Hcrash Hlogs].
  split; [exact Hcrash|exact Hlogs].
Qed.

Lemma WorkerPool_recovers_job_panics_witness :
  let boom : thunk := fun _ => Some "boom" in
  let p := pool_run [PSubmit boom; PDispatch 0; PDispatch 0; PRun 0; PClose; PClose]
             (NewWorkerPool 3 10) in
  match crashed p with
  | Some v => v = "send on closed channel" \/ v = "close of closed channel"
  | None => True
  end /\
  length (logs p) = length (List.filter recovered (started p)).
Proof.
  intros boom.
  exact (WorkerPool_recovers_job_panics 3 10
           [PSubmit boom; PDispatch 0; PDispatch 0; PRun 0; PClose; PClose] eq_refl).
Defined.

(** X15 (src/concurrency/concurrency.go, NewWorkerPool, Submit and Close).
    In a pool that [NewWorkerPool] has returned (the queue size is not
    negative) with at least one worker, with or without a buffer and
    however it is used and scheduled: whenever [p.wg.Wait()] can return
    the channel is closed and empty, every goroutine of the pool has
    returned, and each job whose [Submit] has returned has been handed to
    [SafeGo] exactly once: the goroutines started are those jobs, in some
    order. *)
Theorem WorkerPool_Close_hands_over_every_job
    (workerCount jobQueueSize : Z) (acts : list pool_action) :
  0 < workerCount -> 0 <= jobQueueSize ->
  let p := pool_run acts (NewWorkerPool workerCount jobQueueSize) in
  Wait p = true ->
  Chan.closed (jobChan p) = true /\ Chan.buf (jobChan p) = [] /\
  Forall (fun d => d = DReturned) (dispatchers p) /\
  length (dispatchers p) = Z.to_nat workerCount /\
  fst <$> started p ≡ₚ submitted p.
Proof.
  intros Hw Hq p Hwait. apply Z.eqb_eq in Hwait.
  destruct (pool_run_inv acts _ (NewWorkerPool_inv workerCount jobQueueSize))
    as (Hcount & Hret & Hsub). fold p in Hcount, Hret, Hsub.
  assert (length (dispatchers p) = Z.to_nat workerCount) as Hlen.
  { unfold p. rewrite pool_run_length, NewWorkerPool_made by exact Hq.
    cbn. apply length_replicate. }
  rewrite Hwait in Hcount.
  destruct (none_ranging (dispatchers p)) as [Hall Hnone]; [lia|].
  assert (DReturned ∈ dispatchers p) as Hin.
  { destruct (dispatchers p) as [|d ds]; [cbn in Hlen; lia|].
    inversion Hall; subst. apply list_elem_of_here. }
  destruct (Hret Hin) as [Hcl Hbuf].
  rewrite Hnone, Hbuf, !app_nil_r in Hsub.
  repeat split; try assumption. symmetry. exact Hsub.
Qed.

Lemma WorkerPool_Close_hands_over_every_job_witness :
  let boom : thunk := fun _ => Some "boom" in
  let fine : thunk := fun _ => None in
  let p := pool_run [PHandover boom 0; PHandover fine 1; PSubmit fine;
                     PDispatch 1; PDispatch 0; PClose; PDispatch 0; PDispatch 1]
             (NewWorkerPool 2 0) in
  (crashed p = None /\ submitted p = [boom; fine]) /\
  Chan.closed (jobChan p) = true /\ Chan.buf (jobChan p) = [] /\
  Forall (fun d => d = DReturned) (dispatchers p) /\
  length (dispatchers p) = Z.to_nat 2 /\
  fst <$> started p ≡ₚ submitted p.
Proof.
  intros boom fine.
  split; [split; reflexivity|].
  exact (WorkerPool_Close_hands_over_every_job 2 0
           [PHandover boom 0; PHandover fine 1; PSubmit fine;
            PDispatch 1; PDispatch 0; PClose; PDispatch 0; PDispatch 1]
           eq_refl ltac:(discriminate) eq_refl).
Defined.

Lemma submit_round (p : WorkerPool) (job : thunk) (ds : list dstate) :
  crashed p = None -> Chan.closed (jobChan p) = false ->
  Chan.buf (jobChan p) = [] -> 0 < Chan.cap (jobChan p) ->
  dispatchers p = DRange :: ds ->
  pool_run [PSubmit job; PDispatch 0; PDispatch 0] p =
  {| jobChan := jobChan p; wg := wg p; dispatchers := dispatchers p;
     started := started p ++ [(job, false)]; submitted := submitted p ++ [job];
     logs := logs p; crashed := None |}.
Proof.
  intros Hcr Hcl Hbuf Hcap Hds. destruct p as [[buf cap closed] w ds' st sub lg cr].
  cbn in Hcr, Hcl, Hbuf, Hcap, Hds. subst.
  unfold pool_run, fold_left, pool_step at 3. cbn.
  unfold Chan.send, Chan.full, Chan.len. cbn.
  destruct (Z.leb_spec cap (Z.of_nat 0)) as [Hle|_]; [lia|]. reflexivity.
Qed.

(** X16 (src/concurrency/concurrency.go, NewWorkerPool and Close).  The
    worker count bounds neither the jobs that run at a time, nor does
    [Close] wait for them: with any positive worker count and queue size
    and for any jobs, there is a schedule after which every job has its
    own goroutine, none of them has run, the channel is closed and
    [p.wg.Wait()] returns. *)
Theorem WorkerPool_Close_does_not_wait_for_jobs
    (workerCount jobQueueSize : Z) (jobs : list thunk) :
  0 < workerCount -> 0 < jobQueueSize ->
  let p := pool_run (submit_all_then_close (Z.to_nat workerCount) jobs)
             (NewWorkerPool workerCount jobQueueSize) in
  crashed p = None /\ Chan.closed (jobChan p) = true /\ Wait p = true /\
  started p = (fun job => (job, false)) <$> jobs /\
  submitted p = jobs.
Proof.
  intros Hw Hq. unfold submit_all_then_close. cbv zeta. rewrite pool_run_app.
  set (n := Z.to_nat workerCount).
  assert (exists ds, replicate n DRange = DRange :: ds) as [ds Hds].
  { assert (0 < n)%nat as Hn by lia. destruct n as [|n']; [lia|].
    eexists. reflexivity. }
  (* the jobs, one round each *)
  assert (forall st sub,
            pool_run (flat_map (fun job => [PSubmit job; PDispatch 0; PDispatch 0]) jobs)
              {| jobChan := Chan.make jobQueueSize; wg := Z.max 0 workerCount;
                 dispatchers := replicate n DRange; started := st; submitted := sub;
                 logs := []; crashed := None |}
            = {| jobChan := Chan.make jobQueueSize; wg := Z.max 0 workerCount;
                 dispatchers := replicate n DRange;
                 started := st ++ ((fun job => (job, false)) <$> jobs);
                 submitted := sub ++ jobs;
                 logs := []; crashed := None |}) as Hjobs.
  { induction jobs as [|job jobs IH]; intros st sub.
    - cbn. rewrite !app_nil_r. reflexivity.
    - cbn [flat_map]. rewrite pool_run_app.
      rewrite (submit_round _ job ds) by (try reflexivity; assumption).
      cbn [jobChan wg dispatchers started submitted logs].
      rewrite IH, <- !app_assoc. reflexivity. }
  rewrite NewWorkerPool_made by lia. fold n. rewrite (Hjobs [] []). cbn [app].
  rewrite pool_run_cons. unfold pool_step at 1. cbn.
  (* every goroutine of the pool sees the closed channel *)
  assert (forall k m st sub,
            (k + m)%nat = n ->
            pool_run (PDispatch <$> seq k m)
              {| jobChan := {| Chan.buf := []; Chan.cap := jobQueueSize;
                               Chan.closed := true |};
                 wg := Z.of_nat m;
                 dispatchers := replicate k DReturned ++ replicate m DRange;
                 started := st; submitted := sub; logs := []; crashed := None |}
            = {| jobChan := {| Chan.buf := []; Chan.cap := jobQueueSize;
                               Chan.closed := true |};
                 wg := 0;
                 dispatchers := replicate n DReturned;
                 started := st; submitted := sub; logs := []; crashed := None |})
    as Hclose.
  { intros k m. revert k. induction m as [|m IH]; intros k st sub Hk.
    - cbn. rewrite app_nil_r. replace k with n by lia. reflexivity.
    - cbn [seq fmap list_fmap]. rewrite pool_run_cons. unfold pool_step at 1.
      cbn [crashed dispatchers].
      rewrite lookup_app_r by (rewrite length_replicate; lia).
      rewrite length_replicate, Nat.sub_diag. cbn [replicate lookup list_lookup].
      cbn [jobChan Chan.recv Chan.buf Chan.closed wg started submitted logs].
      replace (Z.of_nat (S m) - 1) with (Z.of_nat m) by lia.
      replace (<[k:=DReturned]> (replicate k DReturned ++ DRange :: replicate m DRange))
        with (replicate (S k) DReturned ++ replicate m DRange).
      + apply IH. lia.
      + rewrite insert_app_r_alt by (rewrite length_replicate; lia).
        rewrite length_replicate, Nat.sub_diag. cbn.
        clear. induction k as [|k IHk]; cbn; [reflexivity|]. now rewrite <- IHk. }
  replace (Z.max 0 workerCount) with (Z.of_nat n) by lia.
  rewrite (Hclose 0%nat n) by lia. repeat split.
Qed.

Lemma WorkerPool_Close_does_not_wait_for_jobs_witness :
  let boom : thunk := fun _ => Some "boom" in
  let fine : thunk := fun _ => None in
  let p := pool_run (submit_all_then_close (Z.to_nat 1) [boom; fine; fine])
             (NewWorkerPool 1 1) in
  crashed p = None /\ Chan.closed (jobChan p) = true /\ Wait p = true /\
  started p = (fun job => (job, false)) <$> [boom; fine; fine] /\
  submitted p = [boom; fine; fine].
Proof.
  intros boom fine.
  exact (WorkerPool_Close_does_not_wait_for_jobs 1 1 [boom; fine; fine]
           eq_refl eq_refl).
Defined.

(** ** Semaphore *)

Lemma sem_run_cons i sched s : sem_run (i :: sched) s = sem_run sched (sem_step i s).
Proof. reflexivity. Qed.

Lemma sem_step_inv i s :
  Chan.closed (tokens s) = false ->
  Chan.len (tokens s) = Z.of_nat (length (List.filter holding (callers s))) ->
  Chan.within_cap (tokens s) ->
  let s' := sem_step i s in
  Chan.closed (tokens s') = false /\
  Chan.len (tokens s') = Z.of_nat (length (List.filter holding (callers s'))) /\
  Chan.within_cap (tokens s') /\
  Chan.cap (tokens s') = Chan.cap (tokens s).
Proof.
  intros Hcl Hlen Hcap. unfold sem_step.
  destruct (callers s !! i) as [[fn|fn|r|r]|] eqn:Hi; cbv zeta; try (repeat split; assumption).
  - unfold Chan.send. rewrite Hcl. unfold Chan.full.
    destruct (Z.leb_spec (Chan.cap (tokens s)) (Chan.len (tokens s))) as [Hfull|Hroom];
      [repeat split; assumption|].
    pose proof (filter_insert_length holding _ _ _ (SRunning fn) Hi) as Hf.
    unfold Chan.within_cap, Chan.len in *. cbn in *. rewrite length_app. cbn.
    repeat split; lia.
  - pose proof (filter_insert_length holding _ _ _ (SRelease (fn tt)) Hi) as Hf.
    cbn in *. repeat split; try assumption. lia.
  - unfold Chan.recv. rewrite Hcl.
    pose proof (filter_insert_length holding _ _ _ (SDone r) Hi) as Hf.
    destruct (Chan.buf (tokens s)) as [|u rest] eqn:Hbuf; [repeat split; assumption|].
    unfold Chan.within_cap, Chan.len in *. rewrite Hbuf in *. cbn in *.
    repeat split; lia.
Qed.

(** X17 (src/concurrency/concurrency.go, NewSemaphore, Acquire, Release
    and WithSemaphore).  Whatever the functions do and however the
    goroutines are scheduled, the tokens in the channel are as many as the
    goroutines between their [Acquire] and the end of their [Release], and
    never more than the limit; and the deferred [Release] never blocks, so
    that a goroutine gives its token back also when its function has
    panicked. *)
Theorem Semaphore_bounds_concurrency
    (limit : Z) (fns : list thunk) (sched : list nat) :
  0 <= limit ->
  let s := sem_run sched (NewSemaphore limit fns) in
  Chan.len (tokens s) = Z.of_nat (length (List.filter holding (callers s))) /\
  Z.of_nat (length (List.filter holding (callers s))) <= limit /\
  forall i panicking,
    callers s !! i = Some (SRelease panicking) ->
    callers (sem_step i s) !! i = Some (SDone panicking) /\
    Chan.len (tokens (sem_step i s)) = Chan.len (tokens s) - 1.
Proof.
  intros Hlimit.
  assert (forall s,
            Chan.closed (tokens s) = false /\
            Chan.len (tokens s) = Z.of_nat (length (List.filter holding (callers s))) /\
            Chan.within_cap (tokens s) /\ Chan.cap (tokens s) = limit ->
            let s' := sem_run sched s in
            Chan.closed (tokens s') = false /\
            Chan.len (tokens s') = Z.of_nat (length (List.filter holding (callers s'))) /\
            Chan.within_cap (tokens s') /\ Chan.cap (tokens s') = limit) as Hrun.
  { induction sched as [|i sched IH]; intros s Hs; [exact Hs|].
    cbv zeta. rewrite sem_run_cons. apply IH.
    destruct Hs as (Hcl & Hlen & Hcap & Hlim).
    destruct (sem_step_inv i s Hcl Hlen Hcap) as (H1 & H2 & H3 & H4).
    repeat split; try assumption. congruence. }
  destruct (Hrun (NewSemaphore limit fns)) as (Hcl & Hlen & Hcap & Hlim).
  { cbn. unfold Chan.within_cap, Chan.len. cbn. repeat split; [|lia].
    clear. induction fns as [|fn fns IH]; [reflexivity|exact IH]. }
  cbv zeta. split; [exact Hlen|]. split.
  { unfold Chan.within_cap in Hcap. lia. }
  intros i panicking Hi. unfold sem_step. rewrite Hi. unfold Chan.recv.
  destruct (Chan.buf (tokens (sem_run sched (NewSemaphore limit fns))))
    as [|u rest] eqn:Hbuf.
  - exfalso. unfold Chan.len in Hlen. rewrite Hbuf in Hlen.
    pose proof (filter_insert_length holding _ _ _ (SDone panicking) Hi) as Hf.
    cbn in Hlen, Hf. lia.
  - cbn. split.
    + apply list_lookup_insert_eq. eapply lookup_lt_Some; exact Hi.
    + unfold Chan.len. rewrite Hbuf. cbn [Chan.buf length]. lia.
Qed.

Lemma Semaphore_bounds_concurrency_witness :
  let boom : thunk := fun _ => Some "boom" in
  let fine : thunk := fun _ => None in
  let s := sem_run [0; 1; 2; 0; 2]%nat (NewSemaphore 2 [boom; fine; fine]) in
  Chan.len (tokens s) = Z.of_nat (length (List.filter holding (callers s))) /\
  Z.of_nat (length (List.filter holding (callers s))) <= 2 /\
  forall i panicking,
    callers s !! i = Some (SRelease panicking) ->
    callers (sem_step i s) !! i = Some (SDone panicking) /\
    Chan.len (tokens (sem_step i s)) = Chan.len (tokens s) - 1.
Proof.
  intros boom fine.
  exact (Semaphore_bounds_concurrency 2 [boom; fine; fine] [0; 1; 2; 0; 2]%nat
           ltac:(discriminate)).
Defined.
End PoolFacts.

(** * Package logger *)

Section LoggerFacts.
Import logger.

Local Abbreviation wg := logger.wg.

Ltac logger_use :=
  repeat match goal with
         | H : ?P -> _, Hx : ?P |- _ => specialize (H Hx)
         end.

Ltac logger_inv :=
  intros; logger_use;
  repeat match goal with
         | H : _ /\ _ |- _ => destruct H
         | H : exists _, _ |- _ => destruct H
         end;
  try congruence;
  try (repeat split; try assumption; try congruence; fail);
  try (split; [assumption|]; do 2 eexists; (split; [eassumption|]); repeat split;
       first [assumption | intros; logger_use; first [congruence | eauto]]).

Lemma logger_run_cons a acts l : run (a :: acts) l = run acts (step a l).
Proof. reflexivity. Qed.

Lemma invariant_crashed l v : invariant l -> invariant (set_crashed l v).
Proof. intros [H1 H2 H3 H4 H5 H6 H7]. constructor; assumption. Qed.

(** The goroutine inside [closeOnce.Do] is the only one there. *)
Lemma inside_once l i c :
  invariant l -> closers l !! i = Some c -> in_once c = true ->
  closeOnce l = OnceRunning /\ writer_closed l = 0%nat /\
  (forall j c', closers l !! j = Some c' -> j <> i -> c' = CDo) /\
  (c <> CCloseChan -> Chan.closed (chan l) = true) /\
  (c = CCloseChan -> Chan.closed (chan l) = false) /\
  (c = CWriterClose -> runner l = RReturned).
Proof.
  intros [_ _ _ Hfree Hrunning Hdone _] Hi Hc.
  destruct (closeOnce l) eqn:Ho.
  - destruct (Hfree eq_refl) as (_ & _ & Hall).
    rewrite Forall_lookup in Hall. rewrite (Hall _ _ Hi) in Hc. discriminate.
  - destruct (Hrunning eq_refl) as (Hw & i0 & c0 & Hi0 & Hc0 & Hothers & H1 & H2 & H3).
    destruct (decide (i = i0)) as [->|Hne].
    + assert (c0 = c) as -> by congruence. repeat split; assumption.
    + rewrite (Hothers _ _ Hi Hne) in Hc. discriminate.
  - destruct (Hdone eq_refl) as (_ & _ & Hall).
    rewrite Forall_lookup in Hall. destruct (Hall _ _ Hi) as [-> | ->]; discriminate.
Qed.

Lemma lookup_insert_cases {A} (l : list A) i j x y :
  <[i:=x]> l !! j = Some y -> (j = i /\ y = x) \/ (j <> i /\ l !! j = Some y).
Proof.
  intros H. destruct (decide (j = i)) as [->|Hne].
  - left. split; [reflexivity|].
    destruct (decide (i < length l)%nat) as [Hlt|Hge].
    + rewrite list_lookup_insert_eq in H by exact Hlt. congruence.
    + rewrite list_insert_ge in H by lia. apply lookup_lt_Some in H. lia.
  - right. rewrite list_lookup_insert_ne in H by congruence. auto.
Qed.

Lemma log_invariant ctx level msg t l : invariant l -> invariant (log ctx level msg t l).
Proof.
  intros Hinv. unfold log.
  destruct ctx as [[[s|]|]|]; try (apply invariant_crashed; exact Hinv).
  all: match goal with
       | |- context [Chan.send ?c ?v] => destruct (Chan.send c v) as [c'| |] eqn:Hsend
       end;
    [|destruct Hinv as [H1 H2 H3 H4 H5 H6 H7]; constructor; assumption
     |apply invariant_crashed; exact Hinv].
  all: apply send_sent in Hsend as (Hcl & _ & Hbuf & _ & Hcl'); rewrite <- Hcl in Hcl';
    destruct Hinv as [H1 H2 H3 H4 H5 H6 H7]; constructor; cbn;
    rewrite ?Hcl', ?Hbuf; try assumption.
  all: try (rewrite H1, <- !app_assoc; reflexivity).
  all: intros Hr; destruct (H3 Hr) as [Hc _]; congruence.
Qed.

Lemma run_step_invariant l : invariant l -> invariant (run_step l).
Proof.
  intros Hinv. unfold run_step. destruct (runner l) as [|msg|] eqn:Hr; [| |exact Hinv].
  - unfold Chan.recv. destruct (Chan.buf (chan l)) as [|msg rest] eqn:Hbuf.
    + destruct (Chan.closed (chan l)) eqn:Hcl; [|exact Hinv].
      destruct Hinv as [H1 H2 H3 H4 H5 H6 H7]. constructor; cbn; try assumption.
      all: try (rewrite ?H1, ?H2, Hr, ?Hbuf; reflexivity).
      all: logger_inv.
    + destruct Hinv as [H1 H2 H3 H4 H5 H6 H7]. constructor; cbn; try assumption.
      all: try (rewrite ?H1, ?H2, Hr, ?Hbuf; reflexivity).
      all: logger_inv.
  - destruct Hinv as [H1 H2 H3 H4 H5 H6 H7]. constructor; cbn; try assumption.
    all: try (rewrite ?H1, ?H2, Hr, <- ?app_assoc; reflexivity).
    all: logger_inv.
Qed.

Lemma close_step_invariant i l : invariant l -> invariant (close_step i l).
Proof.
  intros Hinv. unfold close_step.
  destruct (closers l !! i) as [c|] eqn:Hi; [|exact Hinv].
  assert (i < length (closers l))%nat as Hlt by (eapply lookup_lt_Some; exact Hi).
  destruct c; [| | | |exact Hinv].
  - (* closeOnce.Do *)
    destruct (closeOnce l) eqn:Ho; [| exact Hinv |].
    + destruct Hinv as [H1 H2 H3 H4 H5 H6 H7].
      destruct (H4 Ho) as (Hcl & Hw & Hall).
      constructor; cbn; try assumption; try (intros; discriminate).
      * intros _. split; [exact Hw|]. exists i, CCloseChan.
        split; [apply list_lookup_insert_eq; exact Hlt|]. split; [reflexivity|].
        split; [|split; [congruence|split; [auto|discriminate]]].
        intros j c' Hj Hne. rewrite list_lookup_insert_ne in Hj by congruence.
        rewrite Forall_lookup in Hall. exact (Hall _ _ Hj).
      * intros Hin. apply list_elem_of_lookup in Hin as [j Hj].
        apply lookup_insert_cases in Hj as [[_ [=]]|[_ Hj]].
        rewrite Forall_lookup in Hall. specialize (Hall _ _ Hj). discriminate.
    + destruct Hinv as [H1 H2 H3 H4 H5 H6 H7].
      destruct (H6 Ho) as (Hw & Hr & Hall).
      constructor; cbn; try assumption; try (intros; discriminate).
      * intros _. split; [exact Hw|]. split; [exact Hr|].
        apply Forall_insert; [exact Hall|]. right. reflexivity.
      * intros _. reflexivity.
  - (* close(l.logChan) *)
    destruct (inside_once l i CCloseChan Hinv Hi eq_refl)
      as (Ho & Hw & Hothers & _ & Hopen & _).
    unfold Chan.close. rewrite (Hopen eq_refl).
    destruct Hinv as [H1 H2 H3 H4 H5 H6 H7].
    constructor; cbn; try assumption; try (rewrite Ho; intros; discriminate).
    + intros Hr. destruct (H3 Hr) as [Hc _]. rewrite (Hopen eq_refl) in Hc. discriminate.
    + intros _. split; [exact Hw|]. exists i, CWait.
      split; [apply list_lookup_insert_eq; exact Hlt|]. split; [reflexivity|].
      split; [|split; [reflexivity|split; discriminate]].
      intros j c' Hj Hne. rewrite list_lookup_insert_ne in Hj by congruence.
      exact (Hothers _ _ Hj Hne).
    + intros Hin. apply list_elem_of_lookup in Hin as [j Hj].
      apply lookup_insert_cases in Hj as [[_ [=]]|[Hne Hj]].
      specialize (Hothers _ _ Hj Hne). discriminate.
  - (* l.wg.Wait() *)
    destruct (Z.eqb_spec (wg l) 0) as [H0|_]; [|exact Hinv].
    destruct (inside_once l i CWait Hinv Hi eq_refl)
      as (Ho & Hw & Hothers & Hclosed & _ & _).
    destruct Hinv as [H1 H2 H3 H4 H5 H6 H7].
    assert (runner l = RReturned) as Hr
      by (rewrite H2 in H0; destruct (runner l); [discriminate|discriminate|reflexivity]).
    constructor; cbn; try assumption; try (rewrite Ho; intros; discriminate).
    + intros _. split; [exact Hw|]. exists i, CWriterClose.
      split; [apply list_lookup_insert_eq; exact Hlt|]. split; [reflexivity|].
      split; [|split; [intros _; apply Hclosed; discriminate|split; [discriminate|auto]]].
      intros j c' Hj Hne. rewrite list_lookup_insert_ne in Hj by congruence.
      exact (Hothers _ _ Hj Hne).
    + intros Hin. apply list_elem_of_lookup in Hin as [j Hj].
      apply lookup_insert_cases in Hj as [[_ [=]]|[Hne Hj]].
      specialize (Hothers _ _ Hj Hne). discriminate.
  - (* l.writer.Close() *)
    destruct (inside_once l i CWriterClose Hinv Hi eq_refl)
      as (Ho & Hw & Hothers & Hclosed & _ & Hr).
    destruct Hinv as [H1 H2 H3 H4 H5 H6 H7].
    constructor; cbn; try assumption; try (intros; discriminate).
    + intros _. split; [rewrite Hw; reflexivity|]. split; [auto|].
      apply Forall_lookup. intros j c' Hj.
      apply lookup_insert_cases in Hj as [[_ ->]|[Hne Hj]]; [right; reflexivity|].
      left. exact (Hothers _ _ Hj Hne).
    + reflexivity.
Qed.

Lemma step_invariant a l : invariant l -> invariant (step a l).
Proof.
  intros Hinv. unfold step. destruct (crashed l); [exact Hinv|].
  destruct a as [ctx level msg t|f| |i].
  - apply log_invariant, Hinv.
  - destruct f as [f|]; [|exact Hinv].
    destruct Hinv as [H1 H2 H3 H4 H5 H6 H7]. constructor; assumption.
  - apply run_step_invariant, Hinv.
  - apply close_step_invariant, Hinv.
Qed.

Lemma run_invariant acts l : invariant l -> invariant (run acts l).
Proof.
  revert l. induction acts as [|a acts IH]; intros l H; [exact H|].
  rewrite logger_run_cons. apply IH, step_invariant, H.
Qed.

Lemma NewLogger_invariant defaultFormatter f write_result n :
  invariant (NewLogger defaultFormatter f write_result n).
Proof.
  constructor; cbn; try reflexivity; try discriminate.
  - intros _. repeat split. apply Forall_replicate. reflexivity.
  - intros Hin. apply elem_of_replicate in Hin as [[=] _].
Qed.

Lemma accepted_app wr n msgs msg :
  accepted wr n (msgs ++ [msg]) =
  accepted wr n msgs ++
  match wr (n + length msgs)%nat with None => [msg] | Some _ => [] end.
Proof.
  revert n. induction msgs as [|m msgs IH]; intros n; cbn.
  - rewrite Nat.add_0_r. destruct (wr n); reflexivity.
  - rewrite IH. replace (S n + length msgs)%nat with (n + S (length msgs))%nat by lia.
    destruct (wr n); reflexivity.
Qed.

Lemma step_file_invariant a l :
  file_invariant l ->
  file_invariant (step a l) /\ write_result (step a l) = write_result l.
Proof.
  intros (Hf & Hcap & Hc). unfold step.
  destruct (crashed l); [repeat split; assumption|].
  destruct a as [ctx level msg t|f| |i].
  - unfold log. destruct ctx as [[[s|]|]|]; try (repeat split; assumption).
    all: match goal with
         | |- context [Chan.send ?c ?v] => destruct (Chan.send c v) as [c'| |] eqn:Hs
         end; try (repeat split; assumption).
    all: pose proof (send_within_cap _ _ _ Hs) as Hin;
      apply send_sent in Hs as (_ & _ & _ & Hcap' & _);
      repeat split; cbn; try assumption; congruence.
  - destruct f; repeat split; assumption.
  - unfold run_step. destruct (runner l) as [|msg|]; [| |repeat split; assumption].
    + destruct (Chan.recv (chan l)) as [msg c| |] eqn:Hr; try (repeat split; assumption).
      pose proof (recv_within_cap _ _ _ Hr Hcap) as Hin.
      apply recv_received in Hr as (_ & Hcap' & _).
      repeat split; cbn; try assumption; congruence.
    + repeat split; cbn; try assumption.
      rewrite accepted_app, <- Hf. cbn. destruct (write_result l (length (handed l)));
        [rewrite app_nil_r|]; reflexivity.
  - unfold close_step. destruct (closers l !! i) as [[| | | |]|];
      try (repeat split; assumption).
    + destruct (closeOnce l); repeat split; assumption.
    + destruct (Chan.close (chan l)) as [c|] eqn:Hcl; [|repeat split; assumption].
      apply close_closed in Hcl as (_ & Hbuf & Hcap' & _).
      repeat split; cbn; try assumption; [|congruence].
      unfold Chan.within_cap, Chan.len in *. rewrite Hbuf, Hcap'. exact Hcap.
    + destruct (wg l =? 0); repeat split; assumption.
Qed.

Lemma run_file_invariant acts l :
  file_invariant l ->
  file_invariant (run acts l) /\ write_result (run acts l) = write_result l.
Proof.
  revert l. induction acts as [|a acts IH]; intros l H; [split; [exact H|reflexivity]|].
  rewrite logger_run_cons. destruct (step_file_invariant a l H) as [H' Hw].
  destruct (IH _ H') as [H'' Hw']. split; [exact H''|congruence].
Qed.

(** X18 (src/logger/logger.go, log and run).  However the logger is used
    and scheduled, the lines that [log] has queued are, in their order,
    those that [run] has handed to the writer, then the one in its hands,
    then those in the channel; the file holds the handed lines that the
    writer accepted; and the channel never holds more than 1000 lines. *)
Theorem logger_lines_in_order
    (defaultFormatter : Formatter) (f : option Formatter)
    (write_result : nat -> option error) (n : nat) (acts : list action) :
  let l := run acts (NewLogger defaultFormatter f write_result n) in
  queued l = handed l ++ writing (runner l) ++ Chan.buf (chan l) /\
  file l = accepted write_result 0%nat (handed l) /\
  Chan.len (chan l) <= 1000.
Proof.
  intros l.
  destruct (run_invariant acts _ (NewLogger_invariant defaultFormatter f write_result n))
    as [Horder _ _ _ _ _ _]. fold l in Horder.
  destruct (run_file_invariant acts (NewLogger defaultFormatter f write_result n))
    as [(Hfile & Hin & Hcap) Hw].
  { repeat split. unfold Chan.within_cap, Chan.len. cbn. lia. }
  fold l in Hfile, Hin, Hcap, Hw. cbn in Hw. rewrite Hw in Hfile.
  unfold Chan.within_cap in Hin. rewrite Hcap in Hin.
  split; [exact Horder|]. split; [exact Hfile|exact Hin].
Qed.

(** X19 (src/logger/logger.go, Close and run).  When a call of [Close]
    has returned, whichever it was: the channel is closed and empty, [run]
    has returned, every line that [log] had queued has been handed to the
    writer in its order, and the writer has been closed exactly once. *)
Theorem logger_Close_flushes
    (defaultFormatter : Formatter) (f : option Formatter)
    (write_result : nat -> option error) (n : nat) (acts : list action) (i : nat) :
  let l := run acts (NewLogger defaultFormatter f write_result n) in
  closers l !! i = Some CReturned ->
  Chan.closed (chan l) = true /\ Chan.buf (chan l) = [] /\
  runner l = RReturned /\ handed l = queued l /\
  file l = accepted write_result 0%nat (queued l) /\
  writer_closed l = 1%nat.
Proof.
  intros l Hi.
  destruct (run_invariant acts _ (NewLogger_invariant defaultFormatter f write_result n))
    as [Horder _ Hret _ _ Hdone Hclosers].
  fold l in Horder, Hret, Hdone, Hclosers.
  assert (closeOnce l = OnceDone) as Ho
    by (apply Hclosers; eapply list_elem_of_lookup_2; exact Hi).
  destruct (Hdone Ho) as (Hw & Hr & _). destruct (Hret Hr) as [Hcl Hbuf].
  rewrite Hr, Hbuf in Horder. cbn in Horder. rewrite app_nil_r in Horder.
  destruct (run_file_invariant acts (NewLogger defaultFormatter f write_result n))
    as [(Hfile & _) Hwr].
  { repeat split. unfold Chan.within_cap, Chan.len. cbn. lia. }
  fold l in Hfile, Hwr. cbn in Hwr. rewrite Hwr, <- Horder in Hfile.
  repeat split; try assumption. symmetry. exact Horder.
Qed.

Lemma logger_Close_flushes_witness :
  let fmt : Formatter := fun level msg t => "[" +:+ level +:+ "] " +:+ msg in
  let l := run [ALog None "INFO" "a" 0; ALog None "WARN" "b" 1; AClose 0; AClose 1;
                AClose 0; ARun; ARun; ARun; ARun; ARun; AClose 0; AClose 0; AClose 1]
             (NewLogger fmt None (fun n => if (n =? 1)%nat then Some "disk full" else None)
                2) in
  Chan.closed (chan l) = true /\ Chan.buf (chan l) = [] /\
  runner l = RReturned /\ handed l = queued l /\
  file l = accepted (fun n => if (n =? 1)%nat then Some "disk full" else None) 0%nat
             (queued l) /\
  writer_closed l = 1%nat.
Proof.
  intros fmt.
  exact (logger_Close_flushes fmt None
           (fun n => if (n =? 1)%nat then Some "disk full" else None) 2
           [ALog None "INFO" "a" 0; ALog None "WARN" "b" 1; AClose 0; AClose 1;
            AClose 0; ARun; ARun; ARun; ARun; ARun; AClose 0; AClose 0; AClose 1]
           1 eq_refl).
Defined.


End LoggerFacts.

(** * Package config *)

Section ConfigFacts.
Import config.

Lemma LoadConfig_sets (fs : string -> file) (files : list string) (p : package) :
  (once p = true -> is_Some (cfg p)) ->
  let p' := snd (LoadConfig fs files p) in
  once p' = true /\ is_Some (cfg p') /\ (once p = true -> p' = p).
Proof.
  intros Hp. unfold LoadConfig. destruct (once p) eqn:Honce.
  - cbn. repeat split; auto.
  - destruct (load fs files zero) as [err c]. cbn.
    repeat split; [eexists; reflexivity|discriminate].
Qed.

(** X21 (src/unnamed/part_002, LoadConfig).  Only the first call of
    [LoadConfig] reads files.  Every later call, whatever files it names,
    returns the configuration of the first call with a nil error and
    leaves the package as it is, also when the first call returned an
    error. *)
Theorem LoadConfig_only_first_call_loads
  (fs fs' : string -> file) (files files' : list string) :
  let '((c, err), p) := LoadConfig fs files initial in
  LoadConfig fs' files' p = ((c, None), p) /\
  c = Some (snd (load fs files zero)) /\ err = fst (load fs files zero).
Proof.
  unfold LoadConfig. cbn [once initial].
  destruct (load fs files zero) as [err c]. cbn. repeat split.
Qed.

(** X22 (src/unnamed/part_002, GetConfig and LoadConfig).  [GetConfig]
    panics exactly when [LoadConfig] has not been called: after any calls
    of [LoadConfig], failed or not, it returns what the first of them
    left in [cfg]. *)
Theorem GetConfig_panics_iff_not_loaded
  (calls : list ((string -> file) * list string)) :
  match calls with
  | [] => GetConfig (loads calls initial) = inl "配置尚未初始化，请先调用 LoadConfig()"
  | (fs, files) :: _ =>
      GetConfig (loads calls initial) = inr (snd (load fs files zero))
  end.
Proof.
  destruct calls as [|[fs files] calls]; [reflexivity|].
  unfold loads. cbn [fold_left fst snd].
  assert (forall p, once p = true -> forall calls,
            fold_left (fun p call => snd (LoadConfig (fst call) (snd call) p)) calls p
            = p) as Hstable.
  { intros p Hp. induction calls0 as [|call calls0 IH]; [reflexivity|].
    cbn [fold_left]. unfold LoadConfig at 2. rewrite Hp. exact IH. }
  rewrite Hstable.
  - unfold LoadConfig. cbn [once initial].
    destruct (load fs files zero) as [err c]. reflexivity.
  - unfold LoadConfig. cbn [once initial].
    destruct (load fs files zero) as [err c]. reflexivity.
Qed.

(** X23 (src/unnamed/part_002, LoadConfig).  The loop stops at the first
    file that is missing or does not decode: the files before it have
    been decoded into the configuration, one after the other, the error
    names that file, and the files after it are not looked at. *)
Theorem load_stops_at_first_bad_file
  (fs : string -> file) (good : list string) (bad : string) (rest : list string)
  (c : Config) :
  Forall (fun f => exists d, fs f = Present d /\ forall c, fst (d c) = None) good ->
  let c1 := snd (load fs good c) in
  load fs good c = (None, c1) /\
  match fs bad with
  | Missing =>
      load fs (good ++ bad :: rest) c = (Some ("配置文件不存在: " +:+ bad), c1)
  | Present d =>
      forall e, fst (d c1) = Some e ->
        load fs (good ++ bad :: rest) c =
        (Some ("解析配置文件失败 " +:+ bad +:+ ": " +:+ e), snd (d c1))
  end.
Proof.
  intros Hgood. revert c.
  induction Hgood as [|f good (d & Hf & Hd) _ IH]; intros c; cbn [app load snd].
  - split; [reflexivity|]. destruct (fs bad) as [|d]; [reflexivity|].
    intros e He. destruct (d c) as [[e'|] c']; cbn in He |- *; congruence.
  - rewrite Hf. specialize (Hd c). destruct (d c) as [[e|] c1]; [discriminate|].
    apply IH.
Qed.

Lemma load_stops_at_first_bad_file_witness :
  let fs := fun f : string =>
    if decide (f = "app.toml")
    then Present (fun c => (None, {| App := {| Name := "demo"; Port := 8080; Mode := "dev" |};
                                    Database := Database c; Redis := Redis c |}))
    else Missing in
  let c1 := snd (load fs ["app.toml"] zero) in
  load fs ["app.toml"] zero = (None, c1) /\
  load fs (["app.toml"] ++ "db.toml" :: ["app.toml"]) zero =
  (Some ("配置文件不存在: " +:+ "db.toml"), c1).
Proof.
  refine (load_stops_at_first_bad_file _ ["app.toml"] "db.toml" ["app.toml"] zero _).
  repeat constructor. eexists. split; [reflexivity|]. intros c. reflexivity.
Defined.
End ConfigFacts.

(** * Package uuid *)

Section UuidFacts.
Import Stdlib.Strings.Ascii uuid.

(** A property of the numbers below [n], checked on each of them. *)
Lemma below_forall (P : Z -> bool) (n : nat) :
  forallb P (Z.of_nat <$> seq 0 n) = true ->
  forall x, 0 <= x < Z.of_nat n -> P x = true.
Proof.
  intros H x Hx. rewrite forallb_forall in H. apply H.
  apply in_map_iff. exists (Z.to_nat x). split; [lia|].
  apply in_seq. lia.
Qed.

Lemma land_15 b : 0 <= Z.land b 15 < 16.
Proof.
  change 15 with (Z.ones 4). rewrite Z.land_ones by lia.
  apply Z.mod_pos_bound. reflexivity.
Qed.

Lemma land_63 b : 0 <= Z.land b 63 < 64.
Proof.
  change 63 with (Z.ones 6). rewrite Z.land_ones by lia.
  apply Z.mod_pos_bound. reflexivity.
Qed.

(** Whatever the number, [hexdigit] prints a lower-case hexadecimal
    digit. *)
Lemma hexdigit_HexDigit n : in_class HexDigit (to_lower_ascii (hexdigit n)) = true.
Proof.
  destruct n as [|p|p]; try reflexivity.
  do 4 (try destruct p as [p|p|]); reflexivity.
Qed.

Lemma unhex_hexdigit n : 0 <= n < 16 -> unhex (hexdigit n) = Some n.
Proof.
  intros H.
  apply (below_forall (fun n => bool_decide (unhex (hexdigit n) = Some n)) 16) in H;
    [|reflexivity].
  apply bool_decide_eq_true in H. exact H.
Qed.

Lemma hexdigit_not_dash n : Ascii.eqb (hexdigit n) "-" = false.
Proof.
  destruct n as [|p|p]; try reflexivity.
  do 4 (try destruct p as [p|p|]); reflexivity.
Qed.

(** [(b & 0x0f) | v<<4]: the high four bits become [v], the low four
    stay. *)
Lemma set_version b v :
  (v = 1 \/ v = 4 \/ v = 5) ->
  Z.lor (Z.land b 15) (v * 16) = v * 16 + Z.land b 15.
Proof.
  intros Hv. pose proof (land_15 b) as H.
  apply (below_forall
           (fun x => bool_decide (Z.lor x 16 = 16 + x /\ Z.lor x 64 = 64 + x /\
                                  Z.lor x 80 = 80 + x)) 16) in H; [|reflexivity].
  apply bool_decide_eq_true in H. destruct H as (H1 & H4 & H5).
  destruct Hv as [-> | [-> | ->]]; assumption.
Qed.

(** [(b & 0x3f) | 0x80]: the high two bits become 10, the low six stay. *)
Lemma set_variant b : Z.lor (Z.land b 63) 128 = 128 + Z.land b 63.
Proof.
  pose proof (land_63 b) as H.
  apply (below_forall (fun x => bool_decide (Z.lor x 128 = 128 + x)) 64) in H;
    [|reflexivity].
  apply bool_decide_eq_true in H. exact H.
Qed.

Lemma version_digit b v :
  (v = 1 \/ v = 4 \/ v = 5) ->
  in_class Version (to_lower_ascii (hexdigit (Z.lor (Z.land b 15) (v * 16) / 16))) = true.
Proof.
  intros Hv. rewrite set_version by exact Hv. pose proof (land_15 b) as H.
  replace ((v * 16 + Z.land b 15) / 16) with v
    by (apply Z.div_unique with (Z.land b 15); lia).
  destruct Hv as [-> | [-> | ->]]; reflexivity.
Qed.

Lemma variant_digit b :
  in_class Variant (to_lower_ascii (hexdigit (Z.lor (Z.land b 63) 128 / 16))) = true.
Proof.
  rewrite set_variant. pose proof (land_63 b) as H.
  apply (below_forall
           (fun x => in_class Variant (to_lower_ascii (hexdigit ((128 + x) / 16)))) 64)
    in H; [exact H|reflexivity].
Qed.

Lemma layout_valid (u : list Z) :
  length u = 16%nat ->
  in_class Version (to_lower_ascii (hexdigit (u !!! 6%nat / 16))) = true ->
  in_class Variant (to_lower_ascii (hexdigit (u !!! 8%nat / 16))) = true ->
  IsValidUUID (layout u) = true.
Proof.
  intros Hlen Hver Hvar.
  do 17 (destruct u as [|? u]; try discriminate Hlen).
  unfold layout, IsValidUUID, MatchString.
  cbn -[Z.div Z.modulo hexdigit in_class to_lower_ascii] in *.
  lazy [String.append]. cbn -[Z.div Z.modulo hexdigit in_class to_lower_ascii].
  rewrite Hver, Hvar, !hexdigit_HexDigit. reflexivity.
Qed.

Lemma NewV4_layout (u : list Z) :
  length u = 16%nat ->
  NewV4 (inr u) =
  inr (layout (<[8%nat := Z.lor (Z.land (u !!! 8%nat) 63) 128]>
                 (<[6%nat := Z.lor (Z.land (u !!! 6%nat) 15) 64]> u))).
Proof.
  intros Hlen. do 17 (destruct u as [|? u]; try discriminate Hlen).
  reflexivity.
Qed.

(** The bytes that [hex.DecodeString] gives back. *)
Lemma decode_pair a b :
  0 <= a < 16 -> 0 <= b < 16 -> Z.lor (Z.shiftl a 4) b = a * 16 + b.
Proof.
  intros Ha Hb.
  apply (below_forall
           (fun a => forallb (fun b => bool_decide (Z.lor (Z.shiftl a 4) b = a * 16 + b))
                       (Z.of_nat <$> seq 0 16)) 16) in Ha; [|reflexivity].
  apply (below_forall _ 16 Ha) in Hb. apply bool_decide_eq_true in Hb. exact Hb.
Qed.

Lemma remove_dashes_hex bs : remove_dashes (hex bs) = hex bs.
Proof.
  induction bs as [|b bs IH]; [reflexivity|].
  cbn [hex remove_dashes]. rewrite !hexdigit_not_dash, IH. reflexivity.
Qed.

Lemma remove_dashes_app s t :
  remove_dashes (s +:+ t) = remove_dashes s +:+ remove_dashes t.
Proof.
  induction s as [|c s IH]; [reflexivity|].
  change (String c s +:+ t) with (String c (s +:+ t)). cbn [remove_dashes].
  destruct (Ascii.eqb c "-"); rewrite IH; reflexivity.
Qed.

Lemma hex_app bs cs : hex (bs ++ cs) = hex bs +:+ hex cs.
Proof.
  induction bs as [|b bs IH]; [reflexivity|].
  cbn [app hex]. rewrite IH. reflexivity.
Qed.

Lemma DecodeString_hex bs : Forall is_byte bs -> DecodeString (hex bs) = inr bs.
Proof.
  induction 1 as [|b bs Hb _ IH]; [reflexivity|].
  unfold is_byte in Hb. cbn [hex DecodeString].
  assert (0 <= b / 16 < 16) as Hq
    by (split; [apply Z.div_pos; lia|apply Z.div_lt_upper_bound; lia]).
  pose proof (Z.mod_pos_bound b 16 eq_refl) as Hr.
  rewrite !unhex_hexdigit, IH, decode_pair by assumption.
  rewrite (Z.div_mod b 16) at 3 by lia. do 2 f_equal. lia.
Qed.

Lemma layout_decodes (u : list Z) :
  length u = 16%nat -> Forall is_byte u ->
  DecodeString (remove_dashes (layout u)) = inr u.
Proof.
  intros Hlen Hu. unfold layout.
  rewrite !remove_dashes_app, !remove_dashes_hex.
  change (remove_dashes "-") with "".
  rewrite <- DecodeString_hex by exact Hu. f_equal.
  do 17 (destruct u as [|? u]; try discriminate Hlen). reflexivity.
Qed.

(** Where the version, the byte after it and the fourth group stand in
    the string. *)
Lemma layout_fields (u : list Z) :
  length u = 16%nat ->
  String.length (layout u) = 36%nat /\
  String.substring 14 1 (layout u) = String (hexdigit (u !!! 6%nat / 16)) "" /\
  String.substring 16 2 (layout u) = hex [u !!! 7%nat] /\
  String.substring 19 4 (layout u) = hex [u !!! 8%nat; u !!! 9%nat].
Proof.
  intros Hlen. do 17 (destruct u as [|? u]; try discriminate Hlen).
  repeat split; reflexivity.
Qed.

Lemma version_char b v :
  (v = 1 \/ v = 4 \/ v = 5) ->
  hexdigit (Z.lor (Z.land b 15) (v * 16) / 16) = hexdigit v.
Proof.
  intros Hv. rewrite set_version by exact Hv. pose proof (land_15 b) as H.
  f_equal. symmetry. apply Z.div_unique with (Z.land b 15); lia.
Qed.

Lemma NewV1_layout (unix_nano : Z) (node : list Z) :
  length node = 6%nat ->
  exists u b,
    NewV1 unix_nano (inr node) = inr (layout u) /\ length u = 16%nat /\
    u !!! 6%nat = Z.lor (Z.land b 15) (1 * 16) /\ u !!! 7%nat = 0 /\
    u !!! 8%nat = Z.lor (Z.land 0 63) 128 /\ u !!! 9%nat = 0.
Proof.
  intros Hlen. do 7 (destruct node as [|? node]; try discriminate Hlen).
  eexists. eexists. split; [reflexivity|]. repeat split; reflexivity.
Qed.

Lemma all_hex_class (k : class) (c : ascii) :
  in_class k (to_lower_ascii c) = true ->
  match k with
  | Dash => Ascii.eqb c "-" = true
  | _ => Ascii.eqb c "-" = false /\ bool_decide (is_Some (unhex c)) = true
  end.
Proof.
  destruct c as [[] [] [] [] [] [] [] []]; destruct k; cbv; intros H;
    first [discriminate H | reflexivity | split; reflexivity].
Qed.

(** What a match of the lower-cased string against classes says of the
    string without its hyphens. *)
Lemma match_classes_all_hex (ks : list class) (s : string) :
  match_classes ks (ToLower s) = true ->
  all_hex (remove_dashes s) = true /\
  String.length (remove_dashes s) =
  length (List.filter (fun k => match k with Dash => false | _ => true end) ks).
Proof.
  revert s. induction ks as [|k ks IH]; intros [|c s] H; try discriminate H;
    [split; reflexivity|].
  cbn [ToLower match_classes] in H. apply andb_true_iff in H as [Hc H].
  apply IH in H as [Hall Hlen]. apply all_hex_class in Hc.
  cbn [remove_dashes]. destruct k.
  1,3,4: destruct Hc as [-> Hc]; cbn [all_hex String.length List.filter length];
    rewrite Hc, Hall, Hlen; split; reflexivity.
  rewrite Hc. split; assumption.
Qed.

(** What [hex.DecodeString] accepts. *)
Lemma DecodeString_accepts (n : nat) : forall s : string,
  (String.length s <= 2 * n)%nat ->
  match DecodeString s with
  | inr bs =>
      all_hex s = true /\ String.length s = (2 * length bs)%nat /\ Forall is_byte bs
  | inl _ => all_hex s = false \/ Nat.Odd (String.length s)
  end.
Proof.
  induction n as [|n IH]; intros [|p [|q s]] Hlen; cbn [String.length] in Hlen;
    try lia.
  1,2: cbn; repeat split; constructor.
  - cbn [DecodeString all_hex]. destruct (unhex p); [right; exists 0%nat; reflexivity|].
    left. reflexivity.
  - cbn [DecodeString all_hex String.length].
    pose proof (IH s ltac:(lia)) as Hs.
    assert (forall c a, unhex c = Some a -> 0 <= a < 16) as Hrange.
    { intros c a. unfold unhex.
      pose proof (N_ascii_bounded c) as Hc.
      repeat case_match; intros [= <-]; lia. }
    destruct (unhex p) as [a|] eqn:Hp; [|left; reflexivity].
    destruct (unhex q) as [b|] eqn:Hq; [|left; reflexivity].
    rewrite !bool_decide_eq_true_2 by (eexists; reflexivity). cbn [andb].
    destruct (DecodeString s) as [err|bs].
    + destruct Hs as [Hs|[m Hm]]; [left; exact Hs|right].
      exists (S m). lia.
    + destruct Hs as (Hs & Hl & Hbs). split; [exact Hs|]. split; [cbn [length]; lia|].
      constructor; [|exact Hbs].
      rewrite decode_pair by eauto. unfold is_byte.
      pose proof (Hrange _ _ Hp). pose proof (Hrange _ _ Hq). lia.
Qed.
End UuidFacts.

Section UuidProperties.
Import Stdlib.Strings.Ascii uuid.

(** X24 (src/uuid/uuid.go, NewV4 and IsValidUUID).  Whatever 16 bytes the
    random source delivers, [NewV4] returns a string of 36 characters that
    [IsValidUUID] accepts, with the version digit 4. *)
Theorem NewV4_valid (u : list Z) :
  length u = 16%nat ->
  exists s,
    NewV4 (inr u) = inr s /\ IsValidUUID s = true /\
    String.length s = 36%nat /\ String.substring 14 1 s = "4".
Proof.
  intros Hlen. eexists. split; [apply NewV4_layout; exact Hlen|].
  set (u' := <[8%nat:=_]> _).
  assert (length u' = 16%nat) as Hlen' by (unfold u'; rewrite !length_insert; exact Hlen).
  assert (u' !!! 6%nat = Z.lor (Z.land (u !!! 6%nat) 15) (4 * 16)) as H6.
  { unfold u'. rewrite list_lookup_total_insert_ne by discriminate.
    apply list_lookup_total_insert_eq. lia. }
  assert (u' !!! 8%nat = Z.lor (Z.land (u !!! 8%nat) 63) 128) as H8.
  { unfold u'. apply list_lookup_total_insert_eq. rewrite length_insert. lia. }
  destruct (layout_fields u' Hlen') as (Hl & Hv & _).
  split; [|split; [exact Hl|]].
  - apply layout_valid; [exact Hlen'| |].
    + rewrite H6. apply version_digit. tauto.
    + rewrite H8. apply variant_digit.
  - rewrite Hv, H6, version_char by tauto. reflexivity.
Qed.

Lemma NewV4_valid_witness :
  exists s,
    NewV4 (inr [18; 52; 86; 120; 154; 188; 222; 240; 17; 34; 51; 68; 85; 102; 119; 136])
    = inr s /\ IsValidUUID s = true /\
    String.length s = 36%nat /\ String.substring 14 1 s = "4".
Proof.
  exact (NewV4_valid
           [18; 52; 86; 120; 154; 188; 222; 240; 17; 34; 51; 68; 85; 102; 119; 136]
           eq_refl).
Defined.

(** X25 (src/uuid/uuid.go, NewV4).  The string of [NewV4] holds the random
    bytes: decoded without its hyphens it gives them back, except that
    byte 6 has the high four bits 0100 and byte 8 the high two bits 10;
    the other 122 bits are those of the random source. *)
Theorem NewV4_keeps_random_bits (u : list Z) :
  length u = 16%nat -> Forall is_byte u ->
  exists s u',
    NewV4 (inr u) = inr s /\ DecodeString (remove_dashes s) = inr u' /\
    (forall i, i <> 6%nat -> i <> 8%nat -> u' !! i = u !! i) /\
    u' !!! 6%nat = 64 + (u !!! 6%nat) mod 16 /\
    u' !!! 8%nat = 128 + (u !!! 8%nat) mod 64.
Proof.
  intros Hlen Hu. eexists. eexists. split; [apply NewV4_layout; exact Hlen|].
  assert (forall b, is_byte (Z.lor (Z.land b 15) 64)) as Hb6.
  { intros b. pose proof (set_version b 4 ltac:(tauto)) as H.
    pose proof (land_15 b). unfold is_byte. change (4 * 16) with 64 in H. lia. }
  assert (forall b, is_byte (Z.lor (Z.land b 63) 128)) as Hb8.
  { intros b. rewrite set_variant. pose proof (land_63 b). unfold is_byte. lia. }
  split; [|split; [|split]].
  - apply layout_decodes; [rewrite !length_insert; exact Hlen|].
    apply Forall_insert; [apply Forall_insert; [exact Hu|apply Hb6]|apply Hb8].
  - intros i Hi6 Hi8. rewrite !list_lookup_insert_ne by congruence. reflexivity.
  - rewrite list_lookup_total_insert_ne by discriminate.
    rewrite list_lookup_total_insert_eq by lia.
    change 64 with (4 * 16) at 1. rewrite set_version by tauto.
    change 15 with (Z.ones 4). rewrite Z.land_ones by lia. reflexivity.
  - rewrite list_lookup_total_insert_eq by (rewrite length_insert; lia).
    rewrite set_variant. change 63 with (Z.ones 6). rewrite Z.land_ones by lia.
    reflexivity.
Qed.

Lemma NewV4_keeps_random_bits_witness :
  exists s u',
    NewV4 (inr [255; 52; 86; 120; 154; 188; 222; 240; 17; 34; 51; 68; 85; 102; 119; 0])
    = inr s /\ DecodeString (remove_dashes s) = inr u' /\
    (forall i, i <> 6%nat -> i <> 8%nat ->
               u' !! i =
               [255; 52; 86; 120; 154; 188; 222; 240; 17; 34; 51; 68; 85; 102; 119; 0]
                 !! i) /\
    u' !!! 6%nat = 64 + 222 mod 16 /\
    u' !!! 8%nat = 128 + 17 mod 64.
Proof.
  refine (NewV4_keeps_random_bits
            [255; 52; 86; 120; 154; 188; 222; 240; 17; 34; 51; 68; 85; 102; 119; 0]
            eq_refl _).
  repeat constructor; discriminate.
Defined.

(** X26 (src/uuid/uuid.go, NewV1 and IsValidUUID).  At any clock reading
    and for any 6 node bytes, [NewV1] returns a string that [IsValidUUID]
    accepts, with the version digit 1; byte 7 and the clock sequence are
    never written, so the third group always ends in 00 and the fourth
    group is always 8000. *)
Theorem NewV1_valid (unix_nano : Z) (node : list Z) :
  length node = 6%nat ->
  exists s,
    NewV1 unix_nano (inr node) = inr s /\ IsValidUUID s = true /\
    String.substring 14 1 s = "1" /\
    String.substring 16 2 s = "00" /\
    String.substring 19 4 s = "8000".
Proof.
  intros Hlen.
  destruct (NewV1_layout unix_nano node Hlen) as (u & b & -> & Hu & H6 & H7 & H8 & H9).
  eexists. split; [reflexivity|].
  destruct (layout_fields u Hu) as (_ & Hv & H16 & H19).
  rewrite Hv, H16, H19, H6, H7, H8, H9, version_char by tauto.
  split; [|repeat split; reflexivity].
  apply layout_valid; [exact Hu| |].
  - rewrite H6. apply version_digit. tauto.
  - rewrite H8. apply variant_digit.
Qed.

Lemma NewV1_valid_witness :
  exists s,
    NewV1 1700000000123456789 (inr [1; 2; 3; 4; 5; 255]) = inr s /\
    IsValidUUID s = true /\
    String.substring 14 1 s = "1" /\
    String.substring 16 2 s = "00" /\
    String.substring 19 4 s = "8000".
Proof.
  exact (NewV1_valid 1700000000123456789 [1; 2; 3; 4; 5; 255] eq_refl).
Defined.

(** A namespace that [IsValidUUID] accepts decodes to 16 bytes. *)
Lemma valid_namespace_decodes (namespace : string) :
  IsValidUUID namespace = true ->
  exists nsBytes,
    DecodeString (remove_dashes namespace) = inr nsBytes /\ length nsBytes = 16%nat.
Proof.
  intros Hns. unfold IsValidUUID, MatchString in Hns.
  apply match_classes_all_hex in Hns as [Hall Hlen].
  change (length _) with 32%nat in Hlen.
  pose proof (DecodeString_accepts 16 (remove_dashes namespace) ltac:(lia)) as Hdec.
  destruct (DecodeString (remove_dashes namespace)) as [err|nsBytes].
  - destruct Hdec as [Hdec|[m Hm]]; [congruence|lia].
  - destruct Hdec as (_ & Hl & _). exists nsBytes. split; [reflexivity|lia].
Qed.

(** What [NewV5] returns for a namespace that decodes to 16 bytes. *)
Lemma NewV5_accepted (digest : list Z -> list Z) (namespace name : string)
    (nsBytes : list Z) :
  (forall bs, length (digest bs) = 16%nat) ->
  DecodeString (remove_dashes namespace) = inr nsBytes -> length nsBytes = 16%nat ->
  exists s,
    NewV5 digest namespace name = inr s /\ IsValidUUID s = true /\
    String.substring 14 1 s = "5".
Proof.
  intros Hd Hdec Hl. unfold NewV5. rewrite Hdec, Hl. cbn [Nat.eqb negb].
  eexists. split; [reflexivity|].
  set (sum := digest _).
  fold (layout (<[8%nat := Z.lor (Z.land (<[6%nat := Z.lor (Z.land (sum !!! 6%nat) 15) 80]>
                                            sum !!! 8%nat) 63) 128]>
                  (<[6%nat := Z.lor (Z.land (sum !!! 6%nat) 15) 80]> sum))).
  set (sum' := <[8%nat:=_]> _).
  assert (length sum' = 16%nat) as Hlen'
    by (unfold sum'; rewrite !length_insert; apply Hd).
  assert (sum' !!! 6%nat = Z.lor (Z.land (sum !!! 6%nat) 15) (5 * 16)) as H6.
  { unfold sum'. rewrite list_lookup_total_insert_ne by discriminate.
    apply list_lookup_total_insert_eq. unfold sum. rewrite Hd. lia. }
  assert (exists b, sum' !!! 8%nat = Z.lor (Z.land b 63) 128) as [b H8].
  { eexists. unfold sum'. apply list_lookup_total_insert_eq.
    rewrite length_insert. unfold sum. rewrite Hd. lia. }
  destruct (layout_fields sum' Hlen') as (_ & Hv & _).
  split.
  - apply layout_valid; [exact Hlen'| |].
    + rewrite H6. apply version_digit. tauto.
    + rewrite H8. apply variant_digit.
  - rewrite Hv, H6, version_char by tauto. reflexivity.
Qed.

(** X27 (src/uuid/uuid.go, NewV5 and IsValidUUID).  With a digest of 16
    bytes, as MD5 gives, every string that [IsValidUUID] accepts is a
    namespace that [NewV5] accepts, and what [NewV5] returns for it is
    again accepted by [IsValidUUID], with the version digit 5. *)
Theorem NewV5_of_valid_namespace
  (digest : list Z -> list Z) (namespace name : string) :
  (forall bs, length (digest bs) = 16%nat) ->
  IsValidUUID namespace = true ->
  exists s,
    NewV5 digest namespace name = inr s /\ IsValidUUID s = true /\
    String.substring 14 1 s = "5".
Proof.
  intros Hd Hns.
  destruct (valid_namespace_decodes namespace Hns) as (nsBytes & Hdec & Hl).
  exact (NewV5_accepted digest namespace name nsBytes Hd Hdec Hl).
Qed.

Lemma NewV5_of_valid_namespace_witness :
  exists s,
    NewV5 (fun bs => take 16 (bs ++ replicate 16 0))
      "6ba7b810-9dad-11d1-80b4-00c04fd430c8" "example.org" = inr s /\
    IsValidUUID s = true /\ String.substring 14 1 s = "5".
Proof.
  refine (NewV5_of_valid_namespace (fun bs => take 16 (bs ++ replicate 16 0))
            "6ba7b810-9dad-11d1-80b4-00c04fd430c8" "example.org" _ eq_refl).
  intros bs. rewrite length_take, length_app, length_replicate. lia.
Defined.

(** X28 (src/uuid/uuid.go, NewV5).  [NewV5] accepts a namespace exactly
    when, its hyphens removed wherever they stand, it is 32 hexadecimal
    digits of either case: the version and variant of the namespace are
    not looked at, and the only error is "invalid namespace UUID". *)
Theorem NewV5_namespace (digest : list Z -> list Z) (namespace name : string) :
  ((exists s, NewV5 digest namespace name = inr s) <->
   all_hex (remove_dashes namespace) = true /\
   String.length (remove_dashes namespace) = 32%nat) /\
  (forall err, NewV5 digest namespace name = inl err ->
               err = "invalid namespace UUID").
Proof.
  unfold NewV5.
  pose proof (DecodeString_accepts (String.length (remove_dashes namespace))
                (remove_dashes namespace) ltac:(lia)) as Hdec.
  destruct (DecodeString (remove_dashes namespace)) as [e|nsBytes].
  - split; [|intros err [= <-]; reflexivity].
    split; [intros [s [=]]|]. intros [Hall Hlen].
    destruct Hdec as [Hdec|[m Hm]]; [congruence|lia].
  - destruct Hdec as (Hall & Hlen & _).
    destruct (Nat.eqb_spec (length nsBytes) 16) as [H16|H16]; cbn [negb].
    + split; [|intros err [=]]. split; [intros _; split; [exact Hall|lia]|].
      intros _. eexists. reflexivity.
    + split; [|intros err [= <-]; reflexivity].
      split; [intros [s [=]]|]. intros [_ H32]. lia.
Qed.

(** X29 (src/uuid/uuid.go, GetMAC).  [GetMAC] answers with the first
    interface, in the order of [net.Interfaces], whose hardware address has
    6 bytes, and with "no MAC found" exactly when no interface has one. *)
Theorem GetMAC_first (interfaces : list (list Z)) :
  (forall addr, GetMAC (inr interfaces) = inr addr <->
     exists before after,
       interfaces = before ++ addr :: after /\ length addr = 6%nat /\
       Forall (fun a => length a <> 6%nat) before) /\
  (forall err, GetMAC (inr interfaces) = inl err <->
     err = "no MAC found" /\ Forall (fun a => length a <> 6%nat) interfaces).
Proof.
  cbn [GetMAC]. induction interfaces as [|a l [IHr IHl]]; cbn [first_mac].
  - split.
    + intros addr. split; [discriminate|]. intros ([|? ?] & ? & [=] & _).
    + intros err. split; [intros [= <-]; split; [reflexivity|constructor]|].
      intros [-> _]. reflexivity.
  - destruct (Nat.eqb_spec (length a) 6) as [H6|H6]; split.
    + intros addr. split.
      * intros [= <-]. exists [], l. repeat split; [exact H6|constructor].
      * intros ([|b before] & after & Heq & Hlen & Hbefore); cbn in Heq.
        -- congruence.
        -- injection Heq as <- _. inversion Hbefore; subst. contradiction.
    + intros err. split; [discriminate|]. intros [_ Hall].
      inversion Hall; subst. contradiction.
    + intros addr. rewrite IHr. split.
      * intros (before & after & -> & Hlen & Hbefore).
        exists (a :: before), after. repeat split; [exact Hlen|].
        constructor; assumption.
      * intros ([|b before] & after & Heq & Hlen & Hbefore); cbn in Heq.
        -- injection Heq as -> _. contradiction.
        -- injection Heq as <- ->. inversion Hbefore; subst.
           exists before, after. repeat split; assumption.
    + intros err. rewrite IHl. split; intros [-> Hall]; (split; [reflexivity|]).
      * constructor; assumption.
      * inversion Hall; subst. assumption.
Qed.

(** X30 (src/example/uuid.go, main; src/uuid/uuid.go, MustV4 and MustV5).
    The example never panics at [MustV5]: whatever 16 bytes the random
    source delivers for the namespace, [MustV4] returns a string that
    [MustV5] accepts as a namespace, for any name, and the result is a
    string for which [IsValidUUID] says true. *)
Theorem MustV5_of_MustV4
    (digest : list Z -> list Z) (random : list Z) (name : string) :
  (forall bs, length (digest bs) = 16%nat) ->
  length random = 16%nat ->
  exists ns u5,
    MustV4 (inr random) = Returns ns /\
    MustV5 digest ns name = Returns u5 /\
    IsValidUUID u5 = true.
Proof.
  intros Hd Hlen. unfold MustV4, MustV5.
  rewrite (NewV4_layout random Hlen).
  set (u := <[8%nat:=_]> _).
  assert (length u = 16%nat) as Hu by (unfold u; rewrite !length_insert; exact Hlen).
  assert (IsValidUUID (layout u) = true) as Hvalid.
  { apply layout_valid; [exact Hu| |].
    - unfold u. rewrite list_lookup_total_insert_ne by discriminate.
      rewrite list_lookup_total_insert_eq by lia.
      change 64 with (4 * 16). apply version_digit. tauto.
    - unfold u. rewrite list_lookup_total_insert_eq by (rewrite length_insert; lia).
      apply variant_digit. }
  destruct (valid_namespace_decodes _ Hvalid) as (nsBytes & Hdec & Hl).
  destruct (NewV5_accepted digest (layout u) name nsBytes Hd Hdec Hl)
    as (u5 & H5 & Hv5 & _).
  exists (layout u), u5. cbn [must_of]. rewrite H5. cbn [must_of]. auto.
Qed.

Lemma MustV5_of_MustV4_witness :
  exists ns u5,
    MustV4 (inr [18; 52; 86; 120; 154; 188; 222; 240; 17; 34; 51; 68; 85; 102; 119; 136])
    = Returns ns /\
    MustV5 (fun bs => take 16 (bs ++ replicate 16 0)) ns "my-name" = Returns u5 /\
    IsValidUUID u5 = true.
Proof.
  refine (MustV5_of_MustV4 (fun bs => take 16 (bs ++ replicate 16 0))
            [18; 52; 86; 120; 154; 188; 222; 240; 17; 34; 51; 68; 85; 102; 119; 136]
            "my-name" _ eq_refl).
  intros bs. rewrite length_take, length_app, length_replicate. lia.
Defined.
End UuidProperties.
